(** * ComicStreamer library monitor

    A shallow embedding of [comicstreamerlib/monitor.py]: the worker that
    keeps the persisted comic catalog in step with the watched folders.

    The Python object [Monitor] becomes the record [State]; its methods become
    functions in a state-and-exception monad [M].  Everything the worker
    thread cannot see in advance (what is on disk, what an archive contains,
    when another thread calls [stop()], when the database raises) is gathered
    in the record [World]. *)

From stdpp Require Import gmap strings list pretty.
From Stdlib Require Import ZArith Lia Sorted.

Open Scope Z_scope.
Open Scope nat_scope.

(** ** Data *)

Definition Path := string.
Definition Timestamp := Z.
Definition ComicId := nat.

Inductive MetaDataStyle := CBI | CIX.

(** The exceptions ([Exception] subclasses) that the modelled calls raise. *)
Inductive Exn :=
| ArchiveError (path : Path)
| ImageError
| OSError (path : Path)
| KeyError (key : Path)
| DatabaseError (tick : nat).

Inductive Result (A : Type) :=
| Ok (a : A)
| Raise (e : Exn).
Arguments Ok {A} a.
Arguments Raise {A} e.

(** What [comicapi] reads out of an archive. *)
Record Tags := { series : string; issue : string; title : string }.

(** A [ComicArchive] object, as far as [getComicMetadata] uses it. *)
Record ComicArchive := {
  seemsToBeAComicArchive : bool;
  hasMetadata : MetaDataStyle → bool;
  readMetadata : MetaDataStyle → Result Tags;
  metadataFromFilename : Tags;
  page_count : nat;
  getPage : nat → Result (list Byte.byte);
}.

(** The [md] object that [getComicMetadata] returns. *)
Record Metadata := {
  md_tags : Tags;
  md_path : Path;
  md_page_count : nat;
  md_mod_ts : Timestamp;
  md_filesize : Z;
  md_hash : string;
  md_thumbnail : list Byte.byte;
}.

(** A [Comic] object built by the library, not yet stored. *)
Record Comic := { comic_path : Path; comic_mod_ts : Timestamp }.

(** A stored row of the comics table. *)
Record FileRecord := {
  comic_id : ComicId;
  rec_path : Path;
  rec_mod_ts : Timestamp;
}.

Global Instance Comic_eq_dec : EqDecision Comic.
Proof. solve_decision. Defined.
Global Instance FileRecord_eq_dec : EqDecision FileRecord.
Proof. solve_decision. Defined.

(** ** The catalog *)

(** Modelled from the spec: the [Library] class of
    [comicstreamerlib/library.py] is not among the sources.  The spec gives
    its interface (section 6): [queryAllPaths() -> [(id, path, modTime)]],
    [bulkDelete(ids)], [bulkInsert(candidates) -> assigned ids]; ids are
    assigned by the catalog on insert (section 3). *)
Record Catalog := {
  comics : list FileRecord;
  next_id : ComicId;
}.

Module Library.

(** Modelled from the spec: [queryAllPaths], all stored triples. *)
Definition getComicPaths (c : Catalog) : list (ComicId * Path * Timestamp) :=
  (λ r, (comic_id r, rec_path r, rec_mod_ts r)) <$> comics c.

(** Modelled from the spec: [bulkDelete], the rows with these ids go. *)
Definition deleteComics (ids : list ComicId) (c : Catalog) : Catalog :=
  {| comics := filter (λ r, comic_id r ∉ ids) (comics c);
     next_id := next_id c |}.

(** Modelled from the spec: a candidate keeps its path and modification
    timestamp, the two identity fields the reconciliation relies on. *)
Definition createComicFromMetadata (md : Metadata) : Comic :=
  {| comic_path := md_path md; comic_mod_ts := md_mod_ts md |}.

Definition store (first : ComicId) (i : nat) (c : Comic) : FileRecord :=
  {| comic_id := first + i;
     rec_path := comic_path c;
     rec_mod_ts := comic_mod_ts c |}.

(** Modelled from the spec: [bulkInsert], fresh consecutive ids. *)
Definition addComics (cs : list Comic) (c : Catalog) : Catalog :=
  {| comics := comics c ++ imap (store (next_id c)) cs;
     next_id := next_id c + length cs |}.

End Library.

(** The calls the monitor makes on its collaborators (the archive reader and
    the library), in the order it makes them. *)
Inductive Call :=
| OpenArchive (path : Path)
| GetComicPaths
| DeleteComics (ids : list ComicId)
| CreateMetaObjs (mds : list Metadata)
| CreateComicFromMetadata (md : Metadata)
| AddComics (cs : list Comic).

(** ** Logging *)

Inductive Level := DEBUG | INFO | ERROR.

Inductive LogRecord :=
| LogMsg (lvl : Level) (msg : string)
| LogException (e : Exn).

(** ** The world outside the worker thread *)

Record World := {
  (** regular files on disk, with [utcfromtimestamp(getmtime(path))] *)
  disk : gmap Path Timestamp;
  getsize : Path → Z;
  (** [inside root file]: the recursive walk of [root] reaches [file] *)
  inside : Path → Path → bool;
  (** [ComicArchive(path, ...)] *)
  open_archive : Path → Result ComicArchive;
  (** [comicstreamerlib.utils.resize] to 200x200 *)
  resize : list Byte.byte → Result (list Byte.byte);
  (** the tick of the worker during which another thread runs [stop()] *)
  stop_at : option nat;
  (** the library call made at this tick raises *)
  fault_at : nat → bool;
  (** [int(time.mktime(datetime.utcnow().timetuple()) * 1000)] at a tick *)
  utcnow_ms : nat → Z;
}.

(** ** The monitor object *)

(** [scancomplete_ts] starts as the empty string and becomes an integer. *)
Inductive Stamp := NoStamp | StampMs (ms : Z).

Inductive Command := CmdScan | CmdEvents (eventList : list Path).

Record State := {
  paths : list Path;
  queue : list Command;
  quit : bool;
  quit_when_done : bool;
  status : string;
  statusdetail : string;
  scancomplete_ts : Stamp;
  add_count : nat;
  remove_count : nat;
  read_count : nat;
  (** the local [md_list] of [dofullScan]; it lives here because the
      [except] clause of the loop resumes with the list as the failed
      iteration left it *)
  md_list : list Metadata;
  (** [self.library], the catalog behind the session *)
  library : Catalog;
  (** observations: library calls issued, log records written, ticks *)
  calls : list Call;
  logs : list LogRecord;
  clock : nat;
}.

Definition set_queue (v : list Command) (s : State) : State :=
  {| paths := paths s; queue := v; quit := quit s;
     quit_when_done := quit_when_done s; status := status s;
     statusdetail := statusdetail s; scancomplete_ts := scancomplete_ts s;
     add_count := add_count s; remove_count := remove_count s;
     read_count := read_count s; md_list := md_list s; library := library s;
     calls := calls s; logs := logs s; clock := clock s |}.
Definition set_quit (v : bool) (s : State) : State :=
  {| paths := paths s; queue := queue s; quit := v;
     quit_when_done := quit_when_done s; status := status s;
     statusdetail := statusdetail s; scancomplete_ts := scancomplete_ts s;
     add_count := add_count s; remove_count := remove_count s;
     read_count := read_count s; md_list := md_list s; library := library s;
     calls := calls s; logs := logs s; clock := clock s |}.
Definition set_status (v : string) (s : State) : State :=
  {| paths := paths s; queue := queue s; quit := quit s;
     quit_when_done := quit_when_done s; status := v;
     statusdetail := statusdetail s; scancomplete_ts := scancomplete_ts s;
     add_count := add_count s; remove_count := remove_count s;
     read_count := read_count s; md_list := md_list s; library := library s;
     calls := calls s; logs := logs s; clock := clock s |}.
Definition set_statusdetail (v : string) (s : State) : State :=
  {| paths := paths s; queue := queue s; quit := quit s;
     quit_when_done := quit_when_done s; status := status s;
     statusdetail := v; scancomplete_ts := scancomplete_ts s;
     add_count := add_count s; remove_count := remove_count s;
     read_count := read_count s; md_list := md_list s; library := library s;
     calls := calls s; logs := logs s; clock := clock s |}.
Definition set_scancomplete_ts (v : Stamp) (s : State) : State :=
  {| paths := paths s; queue := queue s; quit := quit s;
     quit_when_done := quit_when_done s; status := status s;
     statusdetail := statusdetail s; scancomplete_ts := v;
     add_count := add_count s; remove_count := remove_count s;
     read_count := read_count s; md_list := md_list s; library := library s;
     calls := calls s; logs := logs s; clock := clock s |}.
Definition set_add_count (v : nat) (s : State) : State :=
  {| paths := paths s; queue := queue s; quit := quit s;
     quit_when_done := quit_when_done s; status := status s;
     statusdetail := statusdetail s; scancomplete_ts := scancomplete_ts s;
     add_count := v; remove_count := remove_count s;
     read_count := read_count s; md_list := md_list s; library := library s;
     calls := calls s; logs := logs s; clock := clock s |}.
Definition set_remove_count (v : nat) (s : State) : State :=
  {| paths := paths s; queue := queue s; quit := quit s;
     quit_when_done := quit_when_done s; status := status s;
     statusdetail := statusdetail s; scancomplete_ts := scancomplete_ts s;
     add_count := add_count s; remove_count := v;
     read_count := read_count s; md_list := md_list s; library := library s;
     calls := calls s; logs := logs s; clock := clock s |}.
Definition set_read_count (v : nat) (s : State) : State :=
  {| paths := paths s; queue := queue s; quit := quit s;
     quit_when_done := quit_when_done s; status := status s;
     statusdetail := statusdetail s; scancomplete_ts := scancomplete_ts s;
     add_count := add_count s; remove_count := remove_count s;
     read_count := v; md_list := md_list s; library := library s;
     calls := calls s; logs := logs s; clock := clock s |}.
Definition set_md_list (v : list Metadata) (s : State) : State :=
  {| paths := paths s; queue := queue s; quit := quit s;
     quit_when_done := quit_when_done s; status := status s;
     statusdetail := statusdetail s; scancomplete_ts := scancomplete_ts s;
     add_count := add_count s; remove_count := remove_count s;
     read_count := read_count s; md_list := v; library := library s;
     calls := calls s; logs := logs s; clock := clock s |}.
Definition set_library (v : Catalog) (s : State) : State :=
  {| paths := paths s; queue := queue s; quit := quit s;
     quit_when_done := quit_when_done s; status := status s;
     statusdetail := statusdetail s; scancomplete_ts := scancomplete_ts s;
     add_count := add_count s; remove_count := remove_count s;
     read_count := read_count s; md_list := md_list s; library := v;
     calls := calls s; logs := logs s; clock := clock s |}.
Definition set_calls (v : list Call) (s : State) : State :=
  {| paths := paths s; queue := queue s; quit := quit s;
     quit_when_done := quit_when_done s; status := status s;
     statusdetail := statusdetail s; scancomplete_ts := scancomplete_ts s;
     add_count := add_count s; remove_count := remove_count s;
     read_count := read_count s; md_list := md_list s; library := library s;
     calls := v; logs := logs s; clock := clock s |}.
Definition set_logs (v : list LogRecord) (s : State) : State :=
  {| paths := paths s; queue := queue s; quit := quit s;
     quit_when_done := quit_when_done s; status := status s;
     statusdetail := statusdetail s; scancomplete_ts := scancomplete_ts s;
     add_count := add_count s; remove_count := remove_count s;
     read_count := read_count s; md_list := md_list s; library := library s;
     calls := calls s; logs := v; clock := clock s |}.
Definition set_clock (v : nat) (s : State) : State :=
  {| paths := paths s; queue := queue s; quit := quit s;
     quit_when_done := quit_when_done s; status := status s;
     statusdetail := statusdetail s; scancomplete_ts := scancomplete_ts s;
     add_count := add_count s; remove_count := remove_count s;
     read_count := read_count s; md_list := md_list s; library := library s;
     calls := calls s; logs := logs s; clock := v |}.

(** [Monitor.__init__] followed by [start()], which clears [quit]. *)
Definition new_monitor (dirs : list Path) (c : Catalog) : State :=
  {| paths := dirs; queue := []; quit := false; quit_when_done := false;
     status := "IDLE"; statusdetail := ""; scancomplete_ts := NoStamp;
     add_count := 0; remove_count := 0; read_count := 0; md_list := [];
     library := c; calls := []; logs := []; clock := 0 |}.

(** ** The monad: state that survives a raised exception *)

Definition M (A : Type) : Type := State → Result A * State.

Definition ret {A} (a : A) : M A := λ s, (Ok a, s).

Definition bind {A B} (m : M A) (k : A → M B) : M B :=
  λ s, match m s with
       | (Ok a, s') => k a s'
       | (Raise e, s') => (Raise e, s')
       end.

Definition raise {A} (e : Exn) : M A := λ s, (Raise e, s).

(** [try: m except Exception as e: h e] *)
Definition try_except {A} (m : M A) (h : Exn → M A) : M A :=
  λ s, match m s with
       | (Ok a, s') => (Ok a, s')
       | (Raise e, s') => h e s'
       end.

Global Instance Result_ret : MRet Result := @Ok.
Global Instance Result_bind : MBind Result := λ A B k r,
  match r with
  | Ok a => k a
  | Raise e => Raise e
  end.

Definition lift {A} (r : Result A) : M A := λ s, (r, s).
Definition get {A} (f : State → A) : M A := λ s, (Ok (f s), s).
Definition modify (f : State → State) : M unit := λ s, (Ok tt, f s).

(** The actions unfold once they are given a state to run from. *)
Arguments ret {A} a s /.
Arguments bind {A B} m k s /.
Arguments raise {A} e s /.
Arguments try_except {A} m h s /.
Arguments lift {A} r s /.
Arguments get {A} f s /.
Arguments modify f s /.

Global Instance M_ret : MRet M := @ret.
Global Instance M_bind : MBind M := λ A B k m, bind m k.

(** ** The methods of [Monitor] *)

Definition CR : string := String (Ascii.ascii_of_nat 13) "".

Inductive ScanExit :=
| Halted     (** [dofullScan] left through the [return] inside its loop *)
| Completed. (** [dofullScan] ran to its last line *)

Section Monitor.

Context (w : World).

(** One unit of the worker's time passes.  The stop flag is written by
    another thread: [stop()] lands in the tick the world names. *)
Definition tick : M nat := λ s,
  let t := clock s in
  let s' := set_clock (S t) s in
  (Ok t, if decide (stop_at w = Some t) then set_quit true s' else s').

Definition logging (r : LogRecord) : M unit :=
  modify (λ s, set_logs (logs s ++ [r]) s).
Definition logging_debug (msg : string) : M unit := logging (LogMsg DEBUG msg).
Definition logging_info (msg : string) : M unit := logging (LogMsg INFO msg).
Definition logging_error (msg : string) : M unit := logging (LogMsg ERROR msg).
Definition logging_exception (e : Exn) : M unit := logging (LogException e).

(** A call on [self.library]: it takes a tick and is recorded; it raises
    when the world says so, and has its effect on the catalog otherwise. *)
Definition library_call (c : Call) (effect : Catalog → Catalog) : M unit :=
  t ← tick;
  modify (λ s, set_calls (calls s ++ [c]) s);;
  if fault_at w t then raise (DatabaseError t)
  else modify (λ s, set_library (effect (library s)) s).

Definition library_getComicPaths : M (list (ComicId * Path * Timestamp)) :=
  library_call GetComicPaths id;;
  get (λ s, Library.getComicPaths (library s)).

Definition library_deleteComics (ids : list ComicId) : M unit :=
  library_call (DeleteComics ids) (Library.deleteComics ids).

Definition library_create_meta_objs (mds : list Metadata) : M unit :=
  library_call (CreateMetaObjs mds) id.

Definition library_createComicFromMetadata (md : Metadata) : M Comic :=
  library_call (CreateComicFromMetadata md) id;;
  mret (Library.createComicFromMetadata md).

Definition library_addComics (cs : list Comic) : M unit :=
  library_call (AddComics cs) (Library.addComics cs).

(** Modelled from the spec: [comicstreamerlib.utils.get_recursive_filelist]
    is not among the sources.  Step 2 of the algorithm: "Enumerate all
    regular files under roots recursively", one root after the other. *)
Definition get_recursive_filelist (dirs : list Path) : list Path :=
  dirs ≫= (λ root, filter (λ p, inside w root p) (elements (dom (disk w)))).

(** [datetime.utcfromtimestamp(os.path.getmtime(path))] *)
Definition getmtime (path : Path) : M Timestamp :=
  match disk w !! path with
  | Some t => mret t
  | None => raise (OSError path)
  end.

Definition scan : M unit :=
  modify (λ s, set_queue (queue s ++ [CmdScan]) s).

(** The part of [getComicMetadata] after [self.read_count += 1]: it
    reads the archive and the file system and leaves the monitor alone. *)
Definition read_metadata (ca : ComicArchive) (path : Path) : Result Metadata :=
  let style :=
    if hasMetadata ca CIX then Some CIX
    else if hasMetadata ca CBI then Some CBI
    else None in
  tags ← match style with
         | Some st => readMetadata ca st
         | None => Ok (metadataFromFilename ca)
         end;
  mod_ts ← match disk w !! path with
           | Some t => Ok t
           | None => Raise (OSError path)
           end;
  image_data ← getPage ca 0;
  thumb ← resize w image_data;
  Ok {| md_tags := tags; md_path := path;
        md_page_count := page_count ca; md_mod_ts := mod_ts;
        md_filesize := getsize w path; md_hash := "";
        md_thumbnail := thumb |}.

Definition getComicMetadata (path : Path) : M (option Metadata) :=
  tick;;
  modify (λ s, set_calls (calls s ++ [OpenArchive path]) s);;
  ca ← lift (open_archive w path);
  logging_debug ("checking path " +:+ path +:+ CR);;
  if seemsToBeAComicArchive ca then
    n ← get read_count;
    logging_debug ("Reading in " +:+ pretty n +:+ " " +:+ path +:+ CR);;
    modify (λ s, set_read_count (read_count s + 1) s);;
    md ← lift (read_metadata ca path);
    mret (Some md)
  else mret None.

Definition setStatusDetail (detail : string) (level : Level) : M unit :=
  modify (set_statusdetail detail);;
  match level with
  | DEBUG => logging_debug detail
  | _ => logging_info detail
  end.

Definition setStatusDetailOnly (detail : string) : M unit :=
  modify (set_statusdetail detail).

(** The [for md in md_list] loop of [commitMetadataList]; [None] stands
    for the [return] taken when [quit] is seen. *)
Fixpoint create_comics (mds : list Metadata) (comics : list Comic)
    : M (option (list Comic)) :=
  match mds with
  | [] => mret (Some comics)
  | md :: rest =>
      modify (λ s, set_add_count (add_count s + 1) s);;
      comic ← library_createComicFromMetadata md;
      q ← get quit;
      if q : bool then setStatusDetail "Monitor: halting scan!" DEBUG;; mret None
      else create_comics rest (comics ++ [comic])
  end.

Definition commitMetadataList (mds : list Metadata) : M unit :=
  library_create_meta_objs mds;;
  r ← create_comics mds [];
  match r with
  | None => mret tt
  | Some comics => library_addComics comics
  end.

Fixpoint collect_current (filelist : list Path)
    (current_set : gset (Path * Timestamp)) : M (gset (Path * Timestamp)) :=
  match filelist with
  | [] => mret current_set
  | path :: rest =>
      t ← getmtime path;
      collect_current rest ({[ (path, t) ]} ∪ current_set)
  end.

Definition index_rows (rows : list (ComicId * Path * Timestamp))
    : gset (Path * Timestamp) * gmap Path ComicId :=
  foldl (λ acc row,
           let '(db_set, ix) := acc in
           let '(comic_id, path, md_ts) := row in
           ({[ (path, md_ts) ]} ∪ db_set, <[ path := comic_id ]> ix))
        (∅, ∅) rows.

(** [[ix[r[0]] for r in to_remove]] *)
Fixpoint lookup_ids (ix : gmap Path ComicId) (rs : list (Path * Timestamp))
    : Result (list ComicId) :=
  match rs with
  | [] => Ok []
  | r :: rest =>
      match ix !! r.1 with
      | None => Raise (KeyError r.1)
      | Some i =>
          match lookup_ids ix rest with
          | Ok ids => Ok (i :: ids)
          | Raise e => Raise e
          end
      end
  end.

Definition createAddRemoveLists (dirs : list Path)
    : M (list Path * list ComicId) :=
  let filelist := get_recursive_filelist dirs in
  current_set ← collect_current filelist ∅;
  logging_info ("NEW -- current_set size [" +:+ pretty (size current_set) +:+ "]");;
  rows ← library_getComicPaths;
  let '(db_set, ix) := index_rows rows in
  let to_add := current_set ∖ db_set in
  let to_remove := db_set ∖ current_set in
  logging_info ("NEW -- db_set size [" +:+ pretty (size db_set) +:+ "]");;
  logging_info ("NEW -- to_add size [" +:+ pretty (size to_add) +:+ "]");;
  logging_info ("NEW -- to_remove size [" +:+ pretty (size to_remove) +:+ "]");;
  ids ← lift (lookup_ids ix (elements to_remove));
  mret ((elements to_add).*1, ids).

(** The body of the [try] inside the loop of [dofullScan]; [true] stands
    for the [return] taken when [quit] is seen. *)
Definition scan_file (total : nat) (filename : Path) : M bool :=
  md ← getComicMetadata filename;
  match md with
  | Some md => modify (λ s, set_md_list (md_list s ++ [md]) s)
  | None => mret tt
  end;;
  rc ← get read_count;
  ac ← get add_count;
  setStatusDetailOnly
    ("Monitor: " +:+ pretty total +:+ " files: " +:+ pretty rc
      +:+ " scanned, " +:+ pretty ac +:+ " added to library...");;
  q ← get quit;
  if q : bool then setStatusDetail "Monitor: halting scan!" DEBUG;; mret true
  else
    (** every so often, commit to DB *)
    (if bool_decide (rc `mod` 10 = 0 ∧ rc ≠ 0) then
       mds ← get md_list;
       if bool_decide (0 < length mds) then
         commitMetadataList mds;;
         modify (set_md_list [])
       else mret tt
     else mret tt);;
    mret false.

(** [for filename in filelist: try: ... except Exception as e: ...] *)
Fixpoint scan_files (total : nat) (filelist : list Path) : M bool :=
  match filelist with
  | [] => mret false
  | filename :: rest =>
      returned ← try_except (scan_file total filename)
                   (λ e, logging_error ("unable to process file: " +:+ filename);;
                         logging_exception e;;
                         mret false);
      if returned : bool then mret true else scan_files total rest
  end.

(** [dofullScan] up to its loop: the status, the counters, the two
    lists, the bulk delete, the empty buffer. *)
Definition scan_begin (dirs : list Path) : M (list Path) :=
  modify (set_status "SCANNING");;
  logging_info "Monitor: Beginning file scan...";;
  setStatusDetail "Monitor: Making a list of all files in the folders..." DEBUG;;
  modify (set_add_count 0);;
  modify (set_remove_count 0);;
  '(filelist, to_remove) ← createAddRemoveLists dirs;
  setStatusDetail
    ("Monitor: Removing missing or modified files from db ("
       +:+ pretty (length to_remove) +:+ " files)") INFO;;
  (if bool_decide (0 < length to_remove)
   then library_deleteComics to_remove else mret tt);;
  setStatusDetail
    ("Monitor: " +:+ pretty (length filelist) +:+ " new files to scan...") INFO;;
  modify (set_md_list []);;
  modify (set_read_count 0);;
  mret filelist.

(** [dofullScan] after its loop: the last commit, the status, the stamp
    and the two counters in the log. *)
Definition scan_end (total : nat) : M unit :=
  mds ← get md_list;
  (if bool_decide (0 < length mds) then commitMetadataList mds else mret tt);;
  rc ← get read_count;
  setStatusDetail
    ("Monitor: finished scanning metadata in " +:+ pretty rc +:+ " of "
       +:+ pretty total +:+ " files") INFO;;
  modify (set_status "IDLE");;
  modify (set_statusdetail "");;
  t ← get clock;
  modify (set_scancomplete_ts (StampMs (utcnow_ms w t)));;
  ac ← get add_count;
  logging_info ("Monitor: Added " +:+ pretty ac +:+ " comics");;
  rmc ← get remove_count;
  logging_info ("Monitor: Removed " +:+ pretty rmc +:+ " comics");;
  qwd ← get quit_when_done;
  if qwd : bool then modify (set_quit true) else mret tt.

Definition dofullScan (dirs : list Path) : M ScanExit :=
  filelist ← scan_begin dirs;
  returned ← scan_files (length filelist) filelist;
  if returned : bool then mret Halted
  else scan_end (length filelist);; mret Completed.

(** The message holds the list as [format] prints it, [['a', 'b']]: each
    path between single quotes, as [repr] gives a string that has no
    quote, backslash or unprintable character in it. *)
Definition doEventProcessing (eventList : list Path) : M unit :=
  logging_debug
    ("Monitor: event_list:[" +:+
       String.concat ", " ((λ p, "'" +:+ p +:+ "'") <$> eventList) +:+ "]").

(** [queue.get(block=True, timeout=1)] under its [try]: an empty queue
    raises after the timeout and [msg] becomes [None]. *)
Definition queue_get : M (option Command) := λ s,
  match queue s with
  | [] => (Ok None, s)
  | msg :: rest => (Ok (Some msg), set_queue rest s)
  end.

Definition _loop : M unit :=
  msg ← queue_get;
  match msg with
  | None => mret tt
  | Some CmdScan =>
      dirs ← get paths;
      try_except (dofullScan dirs;; mret tt) logging_exception
  | Some (CmdEvents args) =>
      try_except (doEventProcessing args) logging_exception
  end.

(** [while True: self._loop(); if self.quit: break], for at most [n]
    turns of the loop. *)
Fixpoint mainLoop (n : nat) : M unit :=
  match n with
  | 0 => mret tt
  | S n' =>
      _loop;;
      q ← get quit;
      if q : bool then mret tt else mainLoop n'
  end.

End Monitor.

(** * Notions used in the theorems *)

(** ** Relations on runs *)

(** The state one tick later. *)
Definition ticked (w : World) (s : State) : State := (tick w s).2.

(** However the action ends, the state it leaves is [R]-related to the state
    it started from. *)
Definition respects (R : relation State) {A} (m : M A) : Prop :=
  ∀ s, R s (m s).2.

(** A field that the action leaves as it found it. *)
Definition keeps {X} (f : State → X) : relation State := λ s s', f s' = f s.

(** The fields that nothing between the bulk delete and the end of the loop
    writes: they commute with every setter used there. *)
Class LoopFrame {X} (f : State → X) : Prop := {
  lf_clock v s : f (set_clock v s) = f s;
  lf_quit v s : f (set_quit v s) = f s;
  lf_logs v s : f (set_logs v s) = f s;
  lf_calls v s : f (set_calls v s) = f s;
  lf_library v s : f (set_library v s) = f s;
  lf_add_count v s : f (set_add_count v s) = f s;
  lf_read_count v s : f (set_read_count v s) = f s;
  lf_md_list v s : f (set_md_list v s) = f s;
  lf_statusdetail v s : f (set_statusdetail v s) = f s;
}.

(** The calls made on top of those already made all satisfy [P]. *)
Definition emits (P : Call → Prop) : relation State :=
  λ s s', ∃ l, calls s' = calls s ++ l ∧ Forall P l.

(** The stop flag, once set, stays set. *)
Definition stays_stopped : relation State :=
  λ s s', quit s = true → quit s' = true.

(** The stop flag, while nobody sets it, stays clear. *)
Definition stays_running : relation State :=
  λ s s', quit s = false → quit s' = false.

(** The calls that the loop and the last commit make: every call but the
    catalog query and the bulk delete. *)
Definition scan_call (c : Call) : Prop :=
  match c with
  | GetComicPaths | DeleteComics _ => False
  | _ => True
  end.

(** The size of a bulk insert. *)
Definition insert_size (c : Call) : option nat :=
  match c with
  | AddComics cs => Some (length cs)
  | _ => None
  end.

(** What the archive reader yields for a path, whatever the state of the
    monitor: the metadata, [None] for a file that is no comic archive, or
    the exception. *)
Definition extract (w : World) (path : Path) : Result (option Metadata) :=
  ca ← open_archive w path;
  if seemsToBeAComicArchive ca
  then md ← read_metadata w ca path; Ok (Some md)
  else Ok None.

(** Whether [getComicMetadata] gets as far as [self.read_count += 1]. *)
Definition counted (w : World) (path : Path) : bool :=
  match open_archive w path with
  | Ok ca => seemsToBeAComicArchive ca
  | Raise _ => false
  end.

(** A file recognised as a comic archive whose metadata is read without an
    exception. *)
Definition recognised (w : World) (f : Path) : Prop :=
  ∃ md, extract w f = Ok (Some md).

(** ** Example worlds *)

Module Examples.

Definition guessed : Tags := {| series := "s"; issue := "1"; title := "" |}.

(** An archive without embedded tags whose pages decode. *)
Definition plain : ComicArchive :=
  {| seemsToBeAComicArchive := true; hasMetadata := λ _, false;
     readMetadata := λ _, Raise (ArchiveError "");
     metadataFromFilename := guessed;
     page_count := 3; getPage := λ _, Ok [] |}.

(** An archive that looks like a comic and whose first page does not
    decode: [getPage(0)] raises, after [read_count] has counted it. *)
Definition corrupt : ComicArchive :=
  {| seemsToBeAComicArchive := true; hasMetadata := λ _, false;
     readMetadata := λ _, Raise (ArchiveError "");
     metadataFromFilename := guessed;
     page_count := 3; getPage := λ _, Raise ImageError |}.

Definition names (n : nat) : list Path :=
  (λ i, "/c/" +:+ pretty i +:+ ".cbz") <$> seq 0 n.

(** The folder [/c] with [n] comic files, all modified at time 7; the
    files listed in [bad] are corrupt. *)
Definition shelf (n : nat) (bad : list Path) (stop : option nat)
    (fault : nat → bool) : World :=
  {| disk := list_to_map ((λ p, (p, 7%Z)) <$> names n);
     getsize := λ _, 100%Z;
     inside := λ r p, String.prefix r p;
     open_archive := λ p, if decide (p ∈ bad) then Ok corrupt else Ok plain;
     resize := λ b, Ok b;
     stop_at := stop;
     fault_at := fault;
     utcnow_ms := λ t, Z.of_nat t |}.

Definition no_fault : nat → bool := λ _, false.

(** A monitor just started on [/c], over an empty catalog. *)
Definition start : State := new_monitor ["/c"] {| comics := []; next_id := 1 |}.

(** A monitor just started on [/c], over a catalog that knows
    [/c/0.cbz] as it is on disk, [/c/1.cbz] with an older timestamp and
    [/c/gone.cbz], which is no longer there. *)
Definition stale : State :=
  new_monitor ["/c"]
    {| comics := [ {| comic_id := 1; rec_path := "/c/0.cbz"; rec_mod_ts := 7%Z |};
                   {| comic_id := 2; rec_path := "/c/1.cbz"; rec_mod_ts := 5%Z |};
                   {| comic_id := 3; rec_path := "/c/gone.cbz"; rec_mod_ts := 7%Z |} ];
       next_id := 4 |}.

(** The error records of the log. *)
Definition errors (s : State) : list LogRecord :=
  omap (λ l, match l with
             | LogException _ | LogMsg ERROR _ => Some l
             | _ => None
             end) (logs s).

End Examples.

(** ** The debounce timer

    [handleSingleEvent] and [handleEventProcessing] run on other threads than
    the worker, each under [self.mutex] from its first line to its last, so
    the model runs them one at a time.  Time is counted in seconds. *)

Module Debounce.

(** A [threading.Timer]: started when it is made, it runs its function at
    its deadline unless [finished] was set before; [cancel()] sets
    [finished], and so does the timer itself after its function ran. *)
Record Timer := { deadline : Z; finished : bool }.

Definition finish (tm : Timer) : Timer :=
  {| deadline := deadline tm; finished := true |}.

Record State := {
  (** [self.eventProcessingTimer]: [None], or the index of a [Timer]
      object among those made so far *)
  eventProcessingTimer : option nat;
  timers : list Timer;
  (** [self.queue], each command with the time of its [put] *)
  queue : list (Z * Command);
}.

Definition init : State :=
  {| eventProcessingTimer := None; timers := []; queue := [] |}.

(** [self.queue.put(("scan", None))] at time [now] *)
Definition scan (now : Z) (st : State) : State :=
  {| eventProcessingTimer := eventProcessingTimer st;
     timers := timers st;
     queue := queue st ++ [(now, CmdScan)] |}.

Definition handleSingleEvent (now : Z) (st : State) : State :=
  let cancelled :=
    match eventProcessingTimer st with
    | Some i => alter finish i (timers st)
    | None => timers st
    end in
  {| eventProcessingTimer := Some (length cancelled);
     timers := cancelled ++ [{| deadline := (now + 30)%Z; finished := false |}];
     queue := queue st |}.

Definition handleEventProcessing (now : Z) (st : State) : State :=
  let st := scan now st in
  {| eventProcessingTimer :=
       match eventProcessingTimer st with
       | Some _ => None
       | None => None
       end;
     timers := timers st;
     queue := queue st |}.

(** The thread of timer [i] at time [now]: past its deadline, and unless
    [finished] is set, it runs [handleEventProcessing] and sets
    [finished]. *)
Definition expire (now : Z) (st : State) (i : nat) : State :=
  match timers st !! i with
  | Some tm =>
      if finished tm then st
      else if bool_decide (deadline tm ≤ now)%Z then
        let st := handleEventProcessing (deadline tm) st in
        {| eventProcessingTimer := eventProcessingTimer st;
           timers := alter finish i (timers st);
           queue := queue st |}
      else st
  | None => st
  end.

(** Time passes until [now]: the timers that are due expire, oldest
    first. *)
Definition advance (now : Z) (st : State) : State :=
  foldl (expire now) st (seq 0 (length (timers st))).

(** The raw file events, given by their times in the order they happen. *)
Definition run (events : list Z) (st : State) : State :=
  foldl (λ st t, handleSingleEvent t (advance t st)) st events.

(** Each event comes less than the quiet period after the one before. *)
Fixpoint burst (t : Z) (rest : list Z) : Prop :=
  match rest with
  | [] => True
  | t' :: rest' => (t ≤ t' < t + 30)%Z ∧ burst t' rest'
  end.

(** Between two events of a burst: no command queued, one live timer. *)
Definition pending (t : Z) (st : State) : Prop :=
  ∃ old, timers st = old ++ [{| deadline := (t + 30)%Z; finished := false |}]
       ∧ Forall (λ tm, finished tm = true) old
       ∧ eventProcessingTimer st = Some (length old)
       ∧ queue st = [].

End Debounce.

(** ** Disk and catalog *)

(** The file [p] exists with modification time [t] and the walk of one of
    the watched roots reaches it. *)
Definition on_disk (w : World) (dirs : list Path) (p : Path) (t : Timestamp)
    : Prop :=
  disk w !! p = Some t ∧ ∃ root, root ∈ dirs ∧ inside w root p.

(** The catalog has a record for path [p] with modification time [t]. *)
Definition in_catalog (c : Catalog) (p : Path) (t : Timestamp) : Prop :=
  ∃ r, r ∈ comics c ∧ rec_path r = p ∧ rec_mod_ts r = t.

(** The comics table: one row per path, one row per id, and every id
    below the next one to be assigned. *)
Definition catalog_wf (c : Catalog) : Prop :=
  NoDup (rec_path <$> comics c)
  ∧ NoDup (comic_id <$> comics c)
  ∧ Forall (λ r, comic_id r < next_id c) (comics c).

(** One step of the loop over [getComicPaths()] in [createAddRemoveLists]. *)
Definition index_step (acc : gset (Path * Timestamp) * gmap Path ComicId)
    (row : ComicId * Path * Timestamp)
    : gset (Path * Timestamp) * gmap Path ComicId :=
  let '(db_set, ix) := acc in
  let '(comic_id, path, md_ts) := row in
  ({[ (path, md_ts) ]} ∪ db_set, <[ path := comic_id ]> ix).

(** The catalog only gains rows, and they get ids not used before. *)
Definition appends : relation State := λ s s',
  ∃ added, comics (library s') = comics (library s) ++ added
    ∧ next_id (library s) ≤ next_id (library s')
    ∧ Forall (λ r, next_id (library s) ≤ comic_id r) added.

(** The calls that read and change nothing in the catalog's comics. *)
Definition reads_only (c : Call) : Prop :=
  match c with
  | GetComicPaths | OpenArchive _ => True
  | _ => False
  end.

(** Every buffered metadata object and every row of the catalog names a file
    that is on disk under a root, with the modification time it has there. *)
Definition all_on_disk (w : World) (dirs : list Path) (s : State) : Prop :=
  Forall (λ md, on_disk w dirs (md_path md) (md_mod_ts md)) (md_list s)
  ∧ Forall (λ r, on_disk w dirs (rec_path r) (rec_mod_ts r)) (comics (library s)).

(** ** The module run as a program *)

(** The module's [__main__]: a monitor on the folders of the command line,
    [quit_when_done] set, started, and asked for one scan. *)
Definition main_monitor (dirs : list Path) (c : Catalog) : State :=
  {| paths := dirs; queue := [CmdScan]; quit := false; quit_when_done := true;
     status := "IDLE"; statusdetail := ""; scancomplete_ts := NoStamp;
     add_count := 0; remove_count := 0; read_count := 0; md_list := [];
     library := c; calls := []; logs := []; clock := 0 |}.

(** ** One record per path *)

(** The paths of the catalog, of the buffered metadata and of the files
    still to be processed are all different. *)
Definition apart (rest : list Path) (s : State) : Prop :=
  NoDup ((rec_path <$> comics (library s)) ++ (md_path <$> md_list s) ++ rest).

(** The ids of the catalog are all different and below the next one. *)
Definition ids_wf (c : Catalog) : Prop :=
  NoDup (comic_id <$> comics c) ∧ Forall (λ r, comic_id r < next_id c) (comics c).

(** ** The two counters of a scan *)

(** The number of comics that the bulk inserts among the calls carry. *)
Definition inserted (l : list Call) : nat := sum_list (omap insert_size l).

(** [add_count] grows by at least what the new calls insert. *)
Definition covers : relation State := λ s s',
  ∃ l, calls s' = calls s ++ l ∧ add_count s + inserted l ≤ add_count s'.

(** ** The event handler in front of the timer *)

Module Watch.

Import Debounce.

(** A file-system event as [on_any_event] sees it, with the time at which
    the observer delivers it. *)
Record Event := { at_time : Z; is_directory : bool }.

(** [MonitorEventHandler.on_any_event] *)
Definition on_any_event (event : Event) (st : State) : State :=
  if is_directory event then st
  else handleSingleEvent (at_time event) st.

(** The events in the order they are delivered; before each one, time
    passes until its delivery. *)
Definition observe (events : list Event) (st : State) : State :=
  foldl (λ st ev, on_any_event ev (advance (at_time ev) st)) st events.

(** The times of the events that are not directory events. *)
Definition file_times (events : list Event) : list Z :=
  at_time <$> filter (λ ev, is_directory ev = false) events.

(** Of the events at [t] and then at the times of [rest], those that no
    other event follows within the quiet period, as seen at time [now]. *)
Fixpoint quiet_ends (t : Z) (rest : list Z) (now : Z) : list Z :=
  match rest with
  | [] => if bool_decide (t + 30 ≤ now)%Z then [t] else []
  | t' :: rest' =>
      (if bool_decide (t + 30 ≤ t')%Z then [t] else [])
        ++ quiet_ends t' rest' now
  end.

(** One "scan" command for each of them, put 30 seconds after it. *)
Definition scans_due (times : list Z) (now : Z) : list (Z * Command) :=
  match times with
  | [] => []
  | t :: rest => (λ t, ((t + 30)%Z, CmdScan)) <$> quiet_ends t rest now
  end.

(** No live timer: every timer made so far has run or was cancelled. *)
Definition idle (q : list (Z * Command)) (st : State) : Prop :=
  Forall (λ tm, finished tm = true) (timers st)
  ∧ eventProcessingTimer st = None
  ∧ queue st = q.

(** One live timer, set by an event at [t]. *)
Definition armed (t : Z) (q : list (Z * Command)) (st : State) : Prop :=
  ∃ old, timers st = old ++ [{| deadline := (t + 30)%Z; finished := false |}]
       ∧ Forall (λ tm, finished tm = true) old
       ∧ eventProcessingTimer st = Some (length old)
       ∧ queue st = q.

(** The states the handlers and the timers can get the monitor into. *)
Definition reachable (st : State) : Prop :=
  (∃ q, idle q st) ∨ (∃ t q, armed t q st).

End Watch.

(** ** The check of one stored comic *)

(** [p in filepath] on two strings: [p] occurs in [filepath]. *)
Fixpoint str_in (p filepath : string) : bool :=
  String.prefix p filepath
  || match filepath with
     | EmptyString => false
     | String _ rest => str_in p rest
     end.

(** The local function [inFolderlist] of [checkIfRemovedOrModified]. *)
Fixpoint inFolderlist (filepath : Path) (pathlist : list Path) : bool :=
  match pathlist with
  | [] => false
  | p :: rest => if str_in p filepath then true else inFolderlist filepath rest
  end.

(** [Monitor.checkIfRemovedOrModified]; [os.path.exists] is asked of the
    path of a stored comic, which names a file. *)
Definition checkIfRemovedOrModified (w : World) (comic : FileRecord)
    (pathlist : list Path) : M bool :=
  if negb (bool_decide (is_Some (disk w !! rec_path comic))) then
    logging_debug ("Removing missing " +:+ rec_path comic);;
    mret true
  else if negb (inFolderlist (rec_path comic) pathlist) then
    logging_debug ("Removing unwanted " +:+ rec_path comic);;
    mret true
  else
    curr ← getmtime w (rec_path comic);
    let prev := rec_mod_ts comic in
    if bool_decide (curr ≠ prev) then
      logging_debug ("Removed modifed " +:+ rec_path comic);;
      mret true
    else mret false.

(** * Reasoning about runs *)

Arguments commitMetadataList : simpl never.
Arguments createAddRemoveLists : simpl never.
Arguments getComicMetadata : simpl never.
Arguments library_call : simpl never.
Arguments scan_begin : simpl never.
Arguments scan_end : simpl never.
Arguments dofullScan : simpl never.
Arguments pretty : simpl never.
Arguments String.app : simpl never.
Arguments Nat.div : simpl never.
Arguments Nat.modulo : simpl never.

Lemma run_bind {A B} (m : M A) (k : A → M B) s :
  (m ≫= k) s = match m s with
               | (Ok a, s') => k a s'
               | (Raise e, s') => (Raise e, s')
               end.
Proof. reflexivity. Qed.

Lemma run_modify_bind {B} (f : State → State) (k : unit → M B) s :
  (modify f ≫= k) s = k tt (f s).
Proof. reflexivity. Qed.

Lemma run_get_bind {A B} (f : State → A) (k : A → M B) s :
  (get f ≫= k) s = k (f s) s.
Proof. reflexivity. Qed.

Lemma run_bind_assoc {A B C} (m : M A) (k1 : A → M B) (k2 : B → M C) s :
  ((m ≫= k1) ≫= k2) s = (m ≫= (λ a, k1 a ≫= k2)) s.
Proof. unfold mbind, M_bind. simpl. by destruct (m s) as [[a|e] s1]. Qed.

Lemma tick_run w s : tick w s = (Ok (clock s), ticked w s).
Proof. reflexivity. Qed.

Lemma ticked_clock w s : clock (ticked w s) = S (clock s).
Proof. unfold ticked, tick. simpl. by case_decide. Qed.
Lemma ticked_quit w s :
  quit (ticked w s) = quit s || bool_decide (stop_at w = Some (clock s)).
Proof.
  unfold ticked, tick. simpl.
  destruct (decide (stop_at w = Some (clock s))) as [E|E]; simpl.
  - by rewrite bool_decide_eq_true_2, orb_true_r.
  - by rewrite bool_decide_eq_false_2, orb_false_r.
Qed.
Lemma ticked_calls w s : calls (ticked w s) = calls s.
Proof. unfold ticked, tick. simpl. by case_decide. Qed.
Lemma ticked_library w s : library (ticked w s) = library s.
Proof. unfold ticked, tick. simpl. by case_decide. Qed.
Lemma ticked_md_list w s : md_list (ticked w s) = md_list s.
Proof. unfold ticked, tick. simpl. by case_decide. Qed.
Lemma ticked_read_count w s : read_count (ticked w s) = read_count s.
Proof. unfold ticked, tick. simpl. by case_decide. Qed.
Lemma ticked_add_count w s : add_count (ticked w s) = add_count s.
Proof. unfold ticked, tick. simpl. by case_decide. Qed.
Lemma ticked_logs w s : logs (ticked w s) = logs s.
Proof. unfold ticked, tick. simpl. by case_decide. Qed.
Lemma ticked_statusdetail w s : statusdetail (ticked w s) = statusdetail s.
Proof. unfold ticked, tick. simpl. by case_decide. Qed.
Lemma ticked_status w s : status (ticked w s) = status s.
Proof. unfold ticked, tick. simpl. by case_decide. Qed.

Global Opaque ticked.
Arguments tick : simpl never.

(** Read a field off a state written as setters over ticks. *)
Ltac fields :=
  repeat first
    [ progress cbn [paths queue quit quit_when_done status statusdetail
                    scancomplete_ts add_count remove_count read_count md_list
                    library calls logs clock set_queue set_quit set_status
                    set_statusdetail set_scancomplete_ts set_add_count
                    set_remove_count set_read_count set_md_list set_library
                    set_calls set_logs set_clock fst snd]
    | rewrite ticked_clock | rewrite ticked_quit | rewrite ticked_calls
    | rewrite ticked_library | rewrite ticked_md_list
    | rewrite ticked_read_count | rewrite ticked_add_count
    | rewrite ticked_logs | rewrite ticked_statusdetail
    | rewrite ticked_status ].

(** Run an action from a state, as far as the code is straight-line. *)
Ltac mrun :=
  unfold mbind, M_bind, mret, M_ret;
  cbn [bind modify get ret lift raise try_except fst snd];
  repeat (rewrite tick_run;
          cbn [bind modify get ret lift raise try_except fst snd]).

(** Run the straight-line head of an action and keep the rest folded. *)
Ltac mstep :=
  repeat first
    [ rewrite run_bind_assoc
    | rewrite run_modify_bind
    | rewrite run_get_bind
    | progress cbn beta iota ].

(** ** Relations between the state before and after an action *)

Section Respects.

Context (R : relation State) `{!PreOrder R}.

Lemma respects_ret {A} (a : A) : respects R (mret a).
Proof. intros s. reflexivity. Qed.

Lemma respects_raise {A} (e : Exn) : respects R (@raise A e).
Proof. intros s. reflexivity. Qed.

Lemma respects_lift {A} (r : Result A) : respects R (lift r).
Proof. intros s. reflexivity. Qed.

Lemma respects_get {A} (f : State → A) : respects R (get f).
Proof. intros s. reflexivity. Qed.

Lemma respects_modify (f : State → State) :
  (∀ s, R s (f s)) → respects R (modify f).
Proof. intros Hf s. apply Hf. Qed.

Lemma respects_bind {A B} (m : M A) (k : A → M B) :
  respects R m → (∀ a, respects R (k a)) → respects R (m ≫= k).
Proof.
  intros Hm Hk s. rewrite run_bind.
  specialize (Hm s). destruct (m s) as [[a|e] s1]; simpl in *; [|done].
  etrans; [exact Hm|apply Hk].
Qed.

Lemma respects_try_except {A} (m : M A) (h : Exn → M A) :
  respects R m → (∀ e, respects R (h e)) → respects R (try_except m h).
Proof.
  intros Hm Hh s. unfold try_except.
  specialize (Hm s). destruct (m s) as [[a|e] s1]; simpl in *; [done|].
  etrans; [exact Hm|apply Hh].
Qed.

Lemma respects_run {A} (m : M A) s r s' :
  respects R m → m s = (r, s') → R s s'.
Proof. intros H E. specialize (H s). by rewrite E in H. Qed.

End Respects.

Ltac respects_step :=
  lazymatch goal with
  | |- respects _ (mret _) => apply respects_ret; tc_solve
  | |- respects _ (ret _) => apply respects_ret; tc_solve
  | |- respects _ (raise _) => apply respects_raise; tc_solve
  | |- respects _ (lift _) => apply respects_lift; tc_solve
  | |- respects _ (get _) => apply respects_get; tc_solve
  | |- respects _ (modify _) => apply respects_modify; [tc_solve..|intros ?]
  | |- respects _ (_ ≫= _) => apply respects_bind; [tc_solve| |intros ?]
  | |- respects _ (bind _ _) => apply respects_bind; [tc_solve| |intros ?]
  | |- respects _ (try_except _ _) =>
      apply respects_try_except; [tc_solve| |intros ?]
  | |- respects _ (if ?b then _ else _) => destruct b
  | |- respects _ (match ?x with _ => _ end) => destruct x
  end.

Global Instance keeps_preorder {X} (f : State → X) : PreOrder (keeps f).
Proof.
  split; [intros s; reflexivity|].
  intros s1 s2 s3 H1 H2. unfold keeps in *. congruence.
Qed.

Global Instance remove_count_frame : LoopFrame remove_count.
Proof. by split. Qed.
Global Instance status_frame : LoopFrame status.
Proof. by split. Qed.
Global Instance scancomplete_ts_frame : LoopFrame scancomplete_ts.
Proof. by split. Qed.
Global Instance paths_frame : LoopFrame paths.
Proof. by split. Qed.
Global Instance queue_frame : LoopFrame queue.
Proof. by split. Qed.
Global Instance quit_when_done_frame : LoopFrame quit_when_done.
Proof. by split. Qed.

Create HintDb frame discriminated.
Create HintDb monitor discriminated.

Global Hint Unfold logging logging_debug logging_info logging_error
  logging_exception library_call library_getComicPaths library_deleteComics
  library_create_meta_objs library_createComicFromMetadata library_addComics
  getmtime scan getComicMetadata setStatusDetail setStatusDetailOnly
  commitMetadataList createAddRemoveLists scan_file scan_begin scan_end
  dofullScan doEventProcessing : monitor.

Global Instance emits_preorder P : PreOrder (emits P).
Proof.
  split.
  - intros s. exists []. by rewrite app_nil_r.
  - intros s1 s2 s3 (l1 & E1 & H1) (l2 & E2 & H2). exists (l1 ++ l2).
    rewrite E2, E1, app_assoc. split; [done|]. by apply Forall_app.
Qed.

Global Instance stays_stopped_preorder : PreOrder stays_stopped.
Proof. split; unfold stays_stopped; [by intros s|by intros s1 s2 s3; auto]. Qed.

Global Instance stays_running_preorder : PreOrder stays_running.
Proof. split; unfold stays_running; [by intros s|by intros s1 s2 s3; auto]. Qed.

Ltac frame_leaf :=
  solve
    [ intros; unfold keeps; cbn;
      rewrite ?lf_clock, ?lf_quit, ?lf_logs, ?lf_calls, ?lf_library,
        ?lf_add_count, ?lf_read_count, ?lf_md_list, ?lf_statusdetail;
      done
    | intros; unfold emits; cbn; exists []; by rewrite app_nil_r
    | intros; unfold emits; cbn; eexists [_]; split; [done|];
      by repeat constructor
    | intros; unfold stays_stopped; cbn; done
    | intros; unfold stays_running; cbn; done ].

Lemma tick_keeps {X} w (f : State → X) `{!LoopFrame f} :
  respects (keeps f) (tick w).
Proof.
  intros s. unfold keeps, tick. simpl.
  case_decide; rewrite ?lf_quit, ?lf_clock; done.
Qed.

Lemma tick_emits w P : respects (emits P) (tick w).
Proof.
  intros s. exists []. rewrite app_nil_r. split; [|done].
  unfold tick. simpl. by case_decide.
Qed.

Lemma tick_stays_stopped w : respects stays_stopped (tick w).
Proof. intros s. unfold stays_stopped, tick. simpl. by case_decide. Qed.

Lemma tick_stays_running w :
  stop_at w = None → respects stays_running (tick w).
Proof.
  intros Hstop s. unfold stays_running. rewrite tick_run. simpl.
  rewrite ticked_quit, Hstop. intros ->. done.
Qed.

Global Hint Resolve tick_keeps tick_emits tick_stays_stopped
  tick_stays_running : frame.

Ltac frame :=
  repeat first
    [ solve [eauto 2 with frame typeclass_instances]
    | respects_step
    | frame_leaf
    | progress autounfold with monitor ].

(** From a finished run, what a frame relation says about its end state. *)
Ltac frame_in E R :=
  lazymatch type of E with
  | ?m ?s = (_, _) =>
      let H := fresh "Hfr" in
      assert (respects R m) as H by frame;
      apply (respects_run _ _ _ _ _ H) in E;
      clear H
  end.

Section LoopFrame.

Context {X} (f : State → X) `{!LoopFrame f} (w : World).

Lemma create_comics_keeps mds cs : respects (keeps f) (create_comics w mds cs).
Proof. revert cs. induction mds as [|md mds IH]; intros cs; simpl; frame. Qed.
Hint Resolve create_comics_keeps : frame.

Lemma collect_current_keeps fl cur :
  respects (keeps f) (collect_current w fl cur).
Proof. revert cur. induction fl as [|p fl IH]; intros cur; simpl; frame. Qed.
Hint Resolve collect_current_keeps : frame.

Lemma scan_files_keeps total fl : respects (keeps f) (scan_files w total fl).
Proof. induction fl as [|p fl IH]; simpl; frame. Qed.

End LoopFrame.

Global Hint Resolve create_comics_keeps collect_current_keeps
  scan_files_keeps : frame.

(** ** The three parts of [dofullScan] *)

Lemma dofullScan_inv w dirs s r s' :
  dofullScan w dirs s = (r, s') →
  (∃ e, r = Raise e ∧ scan_begin w dirs s = (Raise e, s'))
  ∨ ∃ fl s1, scan_begin w dirs s = (Ok fl, s1)
      ∧ ((∃ e, r = Raise e ∧ scan_files w (length fl) fl s1 = (Raise e, s'))
         ∨ (r = Ok Halted ∧ scan_files w (length fl) fl s1 = (Ok true, s'))
         ∨ ∃ s2, scan_files w (length fl) fl s1 = (Ok false, s2)
             ∧ ((∃ e, r = Raise e ∧ scan_end w (length fl) s2 = (Raise e, s'))
                ∨ (r = Ok Completed ∧ scan_end w (length fl) s2 = (Ok tt, s')))).
Proof.
  unfold dofullScan. mrun.
  destruct (scan_begin w dirs s) as [[fl|e] s1] eqn:E1;
    [|intros [= <- <-]; eauto].
  destruct (scan_files w (length fl) fl s1) as [[[]|e] s2] eqn:E2; mrun;
    [intros [= <- <-]; right; eauto 10| |intros [= <- <-]; right; eauto 10].
  destruct (scan_end w (length fl) s2) as [[[]|e] s3] eqn:E3; mrun;
    intros [= <- <-]; right; eexists _, _; (split; [done|]);
    right; right; eauto 10.
Qed.

Lemma scan_begin_fields w dirs s r s' :
  scan_begin w dirs s = (r, s') →
  remove_count s' = 0 ∧ status s' = "SCANNING"
  ∧ scancomplete_ts s' = scancomplete_ts s.
Proof.
  unfold scan_begin, setStatusDetail, logging_info, logging_debug, logging.
  mstep. intros E.
  pose proof E as E1. frame_in E1 (keeps remove_count).
  pose proof E as E2. frame_in E2 (keeps status).
  pose proof E as E3. frame_in E3 (keeps scancomplete_ts).
  done.
Qed.

Lemma scan_end_logs w total s s' :
  scan_end w total s = (Ok tt, s') →
  last (logs s')
  = Some (LogMsg INFO ("Monitor: Removed " +:+ pretty (remove_count s) +:+ " comics")).
Proof.
  unfold scan_end. mrun.
  set (c := if bool_decide _ then _ else _).
  assert (respects (keeps remove_count) c) as Hk by (subst c; frame).
  specialize (Hk s). destruct (c s) as [[[]|e] s1]; [|done].
  unfold setStatusDetail, logging_info, logging. mrun. rewrite <- Hk.
  destruct (quit_when_done _); intros [= <-]; cbn; by rewrite last_snoc.
Qed.

(** ** Counters and status *)

(** C9.  [remove_count] is set to 0 when a full scan starts and nothing
    increments it: whatever the scan deleted and however it ended, the counter
    is 0 afterwards, and a scan that runs to its end reports
    "Monitor: Removed 0 comics" as its last log line. *)
Theorem removed_count_stays_zero w dirs s :
  remove_count (dofullScan w dirs s).2 = 0
  ∧ ((dofullScan w dirs s).1 = Ok Completed →
     last (logs (dofullScan w dirs s).2)
     = Some (LogMsg INFO "Monitor: Removed 0 comics")).
Proof.
  destruct (dofullScan w dirs s) as [r s'] eqn:E. simpl.
  apply dofullScan_inv in E as [(e & -> & E1)|(fl & s1 & E1 & E)].
  { apply scan_begin_fields in E1 as (? & _). done. }
  apply scan_begin_fields in E1 as (H0 & _).
  destruct E as [(e & -> & E2)|[(-> & E2)|(s2 & E2 & E)]];
    frame_in E2 (keeps remove_count); unfold keeps in *.
  1,2: split; [congruence|done].
  destruct E as [(e & -> & E3)|(-> & E3)].
  - frame_in E3 (keeps remove_count). unfold keeps in *. split; [congruence|done].
  - pose proof E3 as E4. frame_in E4 (keeps remove_count). unfold keeps in *.
    split; [congruence|]. intros _. apply scan_end_logs in E3.
    rewrite E3. assert (remove_count s2 = 0) as -> by congruence. done.
Qed.

(** Case analysis on every call the goal still waits for. *)
Ltac mcases := repeat (mrun; case_match); mrun.

Lemma scan_file_returned w total f s s' :
  scan_file w total f s = (Ok true, s') →
  statusdetail s' = "Monitor: halting scan!".
Proof.
  unfold scan_file, setStatusDetail, setStatusDetailOnly, logging_debug, logging.
  mcases; intros [=]; by subst.
Qed.

Lemma scan_files_returned w total fl s s' :
  scan_files w total fl s = (Ok true, s') →
  statusdetail s' = "Monitor: halting scan!".
Proof.
  revert s. induction fl as [|f fl IH]; intros s; simpl; [done|].
  mrun. destruct (scan_file w total f s) as [[[]|e] s1] eqn:E1; mrun.
  - intros [= <-]. by eapply scan_file_returned.
  - apply IH.
  - unfold logging_error, logging_exception, logging. mrun. apply IH.
Qed.

Lemma scan_end_fields w total s s' :
  scan_end w total s = (Ok tt, s') →
  status s' = "IDLE" ∧ statusdetail s' = ""
  ∧ scancomplete_ts s' = StampMs (utcnow_ms w (clock s')).
Proof.
  unfold scan_end. mrun.
  set (c := if bool_decide _ then _ else _).
  destruct (c s) as [[[]|e] s1]; [|done].
  unfold setStatusDetail, logging_info, logging. mrun.
  destruct (quit_when_done _); intros [= <-]; done.
Qed.

(** The status fields after a full scan, by the way it ended. *)
Lemma dofullScan_status w dirs s :
  let r := (dofullScan w dirs s).1 in
  let s' := (dofullScan w dirs s).2 in
  (r = Ok Halted →
     status s' = "SCANNING" ∧ statusdetail s' = "Monitor: halting scan!"
     ∧ scancomplete_ts s' = scancomplete_ts s)
  ∧ (r = Ok Completed →
     status s' = "IDLE" ∧ statusdetail s' = ""
     ∧ scancomplete_ts s' = StampMs (utcnow_ms w (clock s')))
  ∧ (r ≠ Ok Completed →
     status s' = "SCANNING" ∧ scancomplete_ts s' = scancomplete_ts s).
Proof.
  destruct (dofullScan w dirs s) as [r s'] eqn:E. simpl.
  apply dofullScan_inv in E as [(e & -> & E1)|(fl & s1 & E1 & E)].
  { apply scan_begin_fields in E1 as (_ & ? & ?). done. }
  apply scan_begin_fields in E1 as (_ & Hst & Hts).
  destruct E as [(e & -> & E2)|[(-> & E2)|(s2 & E2 & E)]].
  - pose proof E2 as E3. frame_in E2 (keeps status).
    frame_in E3 (keeps scancomplete_ts). unfold keeps in *.
    repeat split; try done; congruence.
  - pose proof (scan_files_returned _ _ _ _ _ E2).
    pose proof E2 as E3. frame_in E2 (keeps status).
    frame_in E3 (keeps scancomplete_ts). unfold keeps in *.
    repeat split; try done; congruence.
  - pose proof E2 as E3. frame_in E2 (keeps status).
    frame_in E3 (keeps scancomplete_ts). unfold keeps in *.
    destruct E as [(e & -> & E4)|(-> & E4)].
    + assert (status s' = status s2 ∧ scancomplete_ts s' = scancomplete_ts s2)
        as [??].
      { revert E4. unfold scan_end. mrun.
        set (c := if bool_decide _ then _ else _).
        assert (respects (keeps status) c) as Hk1 by (subst c; frame).
        assert (respects (keeps scancomplete_ts) c) as Hk2 by (subst c; frame).
        specialize (Hk1 s2). specialize (Hk2 s2).
        destruct (c s2) as [[[]|e'] s3]; [|by intros [= <- <-]].
        unfold setStatusDetail, logging_info, logging. mrun.
        by destruct (quit_when_done _). }
      repeat split; try done; congruence.
    + apply scan_end_fields in E4. repeat split; try done; tauto.
Qed.

(** C10.  A scan that the stop flag ends early leaves the status fields as
    they were mid-flight: [status] is still "SCANNING", [statusdetail] reads
    "Monitor: halting scan!" and [scancomplete_ts] is not stamped.  Only a
    scan that runs to its end sets "IDLE", clears the detail and stamps the
    time; every other way out leaves "SCANNING" and the old stamp. *)
Theorem cancelled_scan_status w dirs s :
  let r := (dofullScan w dirs s).1 in
  let s' := (dofullScan w dirs s).2 in
  (r = Ok Halted →
     status s' = "SCANNING" ∧ statusdetail s' = "Monitor: halting scan!"
     ∧ scancomplete_ts s' = scancomplete_ts s)
  ∧ (r = Ok Completed →
     status s' = "IDLE" ∧ statusdetail s' = ""
     ∧ scancomplete_ts s' = StampMs (utcnow_ms w (clock s')))
  ∧ (r ≠ Ok Completed →
     status s' = "SCANNING" ∧ scancomplete_ts s' = scancomplete_ts s).
Proof. apply dofullScan_status. Qed.

(** ** The calls of a scan *)

Lemma create_comics_emits w mds cs :
  respects (emits scan_call) (create_comics w mds cs).
Proof. revert cs. induction mds as [|md mds IH]; intros cs; simpl; frame. Qed.
Global Hint Resolve create_comics_emits : frame.

Lemma scan_files_emits w total fl :
  respects (emits scan_call) (scan_files w total fl).
Proof. induction fl as [|p fl IH]; simpl; frame. Qed.
Global Hint Resolve scan_files_emits : frame.

Lemma create_comics_stays_stopped w mds cs :
  respects stays_stopped (create_comics w mds cs).
Proof. revert cs. induction mds as [|md mds IH]; intros cs; simpl; frame. Qed.
Global Hint Resolve create_comics_stays_stopped : frame.

Lemma scan_files_stays_stopped w total fl :
  respects stays_stopped (scan_files w total fl).
Proof. induction fl as [|p fl IH]; simpl; frame. Qed.
Global Hint Resolve scan_files_stays_stopped : frame.

Lemma create_comics_stays_running w mds cs :
  stop_at w = None → respects stays_running (create_comics w mds cs).
Proof.
  intros Hstop. revert cs.
  induction mds as [|md mds IH]; intros cs; simpl; frame.
Qed.
Global Hint Resolve create_comics_stays_running : frame.

Lemma collect_current_stays_running w fl cur :
  respects stays_running (collect_current w fl cur).
Proof. revert cur. induction fl as [|p fl IH]; intros cur; simpl; frame. Qed.
Global Hint Resolve collect_current_stays_running : frame.

Lemma scan_files_stays_running w total fl :
  stop_at w = None → respects stays_running (scan_files w total fl).
Proof. intros Hstop. induction fl as [|p fl IH]; simpl; frame. Qed.
Global Hint Resolve scan_files_stays_running : frame.

(** ** The two lists *)

(** Reading the modification times touches nothing in the monitor, and what
    it returns is the same from every state. *)
Lemma collect_current_pure w fl cur s :
  (collect_current w fl cur s).2 = s
  ∧ ∀ s0, (collect_current w fl cur s0).1 = (collect_current w fl cur s).1.
Proof.
  revert cur. induction fl as [|p fl IH]; intros cur; simpl; [done|].
  unfold getmtime. destruct (disk w !! p) as [t|]; mrun; [|done].
  apply IH.
Qed.

(** What [createAddRemoveLists] returns depends on the catalog and the
    clock only; when it returns, it has made one call, the catalog query. *)
Lemma createAddRemoveLists_run w dirs s r s' :
  createAddRemoveLists w dirs s = (r, s') →
  (∀ s0, library s0 = library s → clock s0 = clock s →
         (createAddRemoveLists w dirs s0).1 = r)
  ∧ (∀ x, r = Ok x →
          calls s' = calls s ++ [GetComicPaths] ∧ library s' = library s).
Proof.
  unfold createAddRemoveLists. intros E. split.
  - intros s0 Hl Hc. revert E. mrun.
    destruct (collect_current_pure w (get_recursive_filelist w dirs) ∅ s)
      as [E1 E2].
    destruct (collect_current_pure w (get_recursive_filelist w dirs) ∅ s0)
      as [E3 _].
    specialize (E2 s0).
    destruct (collect_current w _ ∅ s) as [r1 s1].
    destruct (collect_current w _ ∅ s0) as [r2 s2].
    simpl in *. subst r2 s1 s2.
    destruct r1 as [cur|e]; [|by intros [= <- _]].
    unfold logging_info, logging, library_getComicPaths, library_call.
    mrun. fields. rewrite Hc.
    destruct (fault_at w (clock s)); mrun; [by intros [= <- _]|].
    fields. unfold id. rewrite Hl.
    destruct (index_rows _) as [db_set ix]. mrun.
    destruct (lookup_ids _ _); mrun; by intros [= <- _].
  - intros x ->. revert E. mrun.
    destruct (collect_current_pure w (get_recursive_filelist w dirs) ∅ s)
      as [E1 _].
    destruct (collect_current w _ ∅ s) as [r1 s1]. simpl in *. subst s1.
    destruct r1 as [cur|e]; [|done].
    unfold logging_info, logging, library_getComicPaths, library_call.
    mrun. fields.
    destruct (fault_at w (clock s)); mrun; [done|].
    destruct (index_rows _) as [db_set ix]. mrun.
    destruct (lookup_ids _ _); mrun; [|done].
    intros [= _ <-]. by fields.
Qed.

Lemma deleteComics_nil c : Library.deleteComics [] c = c.
Proof.
  destruct c as [cs n]. unfold Library.deleteComics. simpl. f_equal.
  induction cs as [|c cs IH]; [done|].
  rewrite filter_cons_True by set_solver. by rewrite IH.
Qed.

Lemma emits_run {A} P (m : M A) s r s' :
  respects (emits P) m → m s = (r, s') →
  ∃ l, calls s' = calls s ++ l ∧ Forall P l.
Proof. intros H E. by apply (respects_run _ _ _ _ _ H) in E. Qed.

(** The calls of [scan_begin], once the two lists are there: the query,
    then the bulk delete when there is something to remove. *)
Lemma scan_begin_spec w dirs s fl tr s1 r s' :
  createAddRemoveLists w dirs s = (Ok (fl, tr), s1) →
  scan_begin w dirs s = (r, s') →
  calls s' = calls s ++ [GetComicPaths]
               ++ (if bool_decide (tr = []) then [] else [DeleteComics tr])
  ∧ ((r = Ok fl ∧ md_list s' = [] ∧ read_count s' = 0
      ∧ library s' = Library.deleteComics tr (library s))
     ∨ (∃ e t, r = Raise e ∧ fault_at w t = true ∧ library s' = library s)).
Proof.
  intros E. unfold scan_begin, setStatusDetail, logging_info, logging_debug, logging.
  mstep.
  match goal with |- context [(createAddRemoveLists w dirs ≫= _) ?s5] =>
    destruct (createAddRemoveLists w dirs s5) as [r5 s6] eqn:E5;
    pose proof (proj1 (createAddRemoveLists_run _ _ _ _ _ E) s5 eq_refl eq_refl)
      as E6;
    rewrite E5 in E6; simpl in E6; subst r5;
    destruct (proj2 (createAddRemoveLists_run _ _ _ _ _ E5) _ eq_refl)
      as [Hc Hl]; simpl in Hc
  end.
  rewrite run_bind, E5. mrun.
  case_bool_decide as Hlen.
  - rewrite bool_decide_eq_false_2 by (intros ->; simpl in Hlen; lia).
    unfold library_deleteComics, library_call. mrun.
    destruct (fault_at w _) eqn:Hf; mrun; intros [= <- <-]; fields; rewrite Hc;
      rewrite <- !app_assoc; (split; [done|]).
    + right. eauto 10.
    + left. by rewrite Hl.
  - rewrite bool_decide_eq_true_2 by (destruct tr; [done|simpl in Hlen; lia]).
    mrun. intros [= <- <-]. fields. rewrite Hc. split; [done|]. left.
    rewrite Hl. destruct tr; [|simpl in Hlen; lia].
    by rewrite deleteComics_nil.
Qed.

(** C8.  When the computed [to_remove] list is not empty, the monitor
    deletes all of it in one [deleteComics] call, and that call comes right
    after the catalog query, before any call that creates or inserts a
    comic; when the list is empty there is no delete call at all. *)
Theorem delete_precedes_inserts w dirs s fl tr s1 :
  createAddRemoveLists w dirs s = (Ok (fl, tr), s1) →
  ∃ l, calls (dofullScan w dirs s).2
       = calls s ++ [GetComicPaths]
           ++ (if bool_decide (tr = []) then [] else [DeleteComics tr]) ++ l
     ∧ Forall scan_call l.
Proof.
  intros E0. destruct (dofullScan w dirs s) as [r s'] eqn:E. simpl.
  apply dofullScan_inv in E as [(e & -> & E1)|(fl' & s2 & E1 & E)].
  { destruct (scan_begin_spec _ _ _ _ _ _ _ _ E0 E1) as [-> _].
    exists []. by rewrite !app_nil_r. }
  destruct (scan_begin_spec _ _ _ _ _ _ _ _ E0 E1) as [Hb _].
  assert (∃ l, calls s' = calls s2 ++ l ∧ Forall scan_call l) as (l & -> & Hl).
  { destruct E as [(e & -> & E2)|[(-> & E2)|(s3 & E2 & E)]].
    1,2: eapply emits_run; [|exact E2]; frame.
    assert (∃ l, calls s3 = calls s2 ++ l ∧ Forall scan_call l)
      as (l2 & Hc2 & Hl2) by (eapply emits_run; [|exact E2]; frame).
    assert (∃ l, calls s' = calls s3 ++ l ∧ Forall scan_call l)
      as (l3 & Hc3 & Hl3).
    { destruct E as [(e & -> & E3)|(-> & E3)];
        (eapply emits_run; [|exact E3]; frame). }
    exists (l2 ++ l3). rewrite Hc3, Hc2, app_assoc.
    split; [done|by apply Forall_app]. }
  exists l. rewrite Hb, <- !app_assoc. done.
Qed.

(** ** One file, one commit *)

Lemma getComicMetadata_spec w f s :
  ∃ s', getComicMetadata w f s = (extract w f, s')
    ∧ calls s' = calls s ++ [OpenArchive f]
    ∧ read_count s' = read_count s + (if counted w f then 1 else 0)
    ∧ md_list s' = md_list s
    ∧ library s' = library s
    ∧ quit s' = quit s || bool_decide (stop_at w = Some (clock s)).
Proof.
  unfold getComicMetadata, extract, counted, logging_debug, logging. mrun.
  unfold Result_bind.
  destruct (open_archive w f) as [ca|e]; mrun.
  2: { eexists; split; [done|]. fields. by rewrite Nat.add_0_r. }
  destruct (seemsToBeAComicArchive ca); mrun.
  2: { eexists; split; [done|]. fields. by rewrite Nat.add_0_r. }
  destruct (read_metadata w ca f) as [md|e]; mrun;
    (eexists; split; [done|]; by fields).
Qed.

Lemma omap_insert_size_snoc l c :
  omap insert_size (l ++ [c]) = omap insert_size l ++ option_list (insert_size c).
Proof. rewrite omap_app. simpl. by destruct (insert_size c). Qed.

Lemma create_comics_spec w mds cs s r s' :
  create_comics w mds cs s = (r, s') →
  library s' = library s ∧ md_list s' = md_list s
  ∧ read_count s' = read_count s
  ∧ (∃ l, calls s' = calls s ++ l ∧ omap insert_size l = [])
  ∧ match r with
    | Ok (Some cs') => cs' = cs ++ (Library.createComicFromMetadata <$> mds)
    | Ok None => quit s' = true
    | Raise _ => ∃ t, fault_at w t = true
    end.
Proof.
  revert cs s. induction mds as [|md mds IH]; intros cs s; simpl.
  { mrun. intros [= <- <-]. rewrite app_nil_r.
    repeat split; try done. exists []. by rewrite app_nil_r. }
  unfold library_createComicFromMetadata, library_call. mrun. fields.
  destruct (fault_at w (clock s)) eqn:Hf; mrun.
  { intros [= <- <-]. fields. repeat split; eauto. }
  match goal with |- context [quit ?s1] => destruct (quit s1) eqn:Hq end.
  { unfold setStatusDetail, logging_debug, logging. mrun.
    intros [= <- <-]. revert Hq. fields. intros Hq.
    repeat split; eauto. }
  intros E. apply IH in E as (Hl & Hm & Hr & (l & Hc & Hs) & Hres).
  revert Hl Hm Hr Hc. fields. intros Hl Hm Hr Hc.
  repeat split; try done.
  - exists (CreateComicFromMetadata md :: l). rewrite Hc, <- app_assoc. done.
  - destruct r as [[cs'|]|e]; try done. by rewrite Hres, <- app_assoc.
Qed.

(** What a batch commit does: it inserts the whole list in one call, or it
    stops short because the stop flag is up, or a library call raises. *)
Lemma commitMetadataList_spec w mds s r s' :
  commitMetadataList w mds s = (r, s') →
  md_list s' = md_list s ∧ read_count s' = read_count s
  ∧ ∃ l, calls s' = calls s ++ l
     ∧ ((r = Ok tt
         ∧ library s'
           = Library.addComics (Library.createComicFromMetadata <$> mds) (library s)
         ∧ omap insert_size l = [length mds])
        ∨ (r = Ok tt ∧ quit s' = true ∧ library s' = library s
           ∧ omap insert_size l = [])
        ∨ (∃ e t, r = Raise e ∧ fault_at w t = true ∧ library s' = library s
           ∧ (omap insert_size l = [] ∨ omap insert_size l = [length mds]))).
Proof.
  unfold commitMetadataList, library_create_meta_objs, library_call. mrun. fields.
  destruct (fault_at w (clock s)) eqn:Hf; mrun.
  { intros [= <- <-]. fields. repeat split; try done.
    eexists [_]. split; [done|]. right; right. eauto 10. }
  match goal with |- context [create_comics w mds [] ?s1] =>
    destruct (create_comics w mds [] s1) as [r1 s2] eqn:E1 end.
  apply create_comics_spec in E1 as (Hl & Hm & Hr & (l & Hc & Hs) & Hres).
  revert Hl Hm Hr Hc. fields. unfold id. intros Hl Hm Hr Hc.
  destruct r1 as [[cs|]|e]; mrun.
  - simpl in Hres. subst cs. unfold library_addComics, library_call. mrun.
    destruct (fault_at w (clock s2)) eqn:Hf2; mrun; intros [= <- <-]; fields.
    + repeat split; try done.
      exists (CreateMetaObjs mds :: l ++ [AddComics (Library.createComicFromMetadata <$> mds)]).
      rewrite Hc, <- !app_assoc. split; [done|]. right; right.
      eexists _, _. repeat split; try done. right. simpl.
      rewrite omap_insert_size_snoc, Hs. simpl. by rewrite length_fmap.
    + repeat split; try done.
      exists (CreateMetaObjs mds :: l ++ [AddComics (Library.createComicFromMetadata <$> mds)]).
      rewrite Hc, <- !app_assoc. split; [done|]. left.
      repeat split; [by rewrite Hl|]. simpl.
      rewrite omap_insert_size_snoc, Hs. simpl. by rewrite length_fmap.
  - intros [= <- <-]. repeat split; try done.
    exists (CreateMetaObjs mds :: l). rewrite Hc, <- !app_assoc.
    split; [done|]. right; left. done.
  - intros [= <- <-]. destruct Hres as [t Ht]. repeat split; try done.
    exists (CreateMetaObjs mds :: l). rewrite Hc, <- !app_assoc.
    split; [done|]. right; right. eauto 10.
Qed.

(** What one turn of the loop body does, by cases: the extraction raises;
    the stop flag is seen; there is nothing to commit yet; or the commit
    runs, and then inserts the buffer, stops short, or raises. *)
Lemma scan_file_spec w total f s r s' :
  scan_file w total f s = (r, s') →
  let rc := read_count s + (if counted w f then 1 else 0) in
  let q := quit s || bool_decide (stop_at w = Some (clock s)) in
  read_count s' = rc
  ∧ ∃ l, calls s' = calls s ++ OpenArchive f :: l
    ∧ ((∃ e, extract w f = Raise e ∧ r = Raise e ∧ l = []
             ∧ library s' = library s ∧ md_list s' = md_list s ∧ quit s' = q)
       ∨ ∃ omd, extract w f = Ok omd
           ∧ let buf := md_list s ++ option_list omd in
             (q = true ∧ r = Ok true ∧ l = [] ∧ library s' = library s
              ∧ md_list s' = buf ∧ quit s' = true)
             ∨ (q = false ∧ ¬ (rc `mod` 10 = 0 ∧ rc ≠ 0 ∧ buf ≠ [])
                ∧ r = Ok false ∧ l = [] ∧ library s' = library s
                ∧ md_list s' = buf ∧ quit s' = false)
             ∨ (q = false ∧ rc `mod` 10 = 0 ∧ rc ≠ 0 ∧ buf ≠ []
                ∧ ((r = Ok false ∧ md_list s' = []
                    ∧ library s'
                      = Library.addComics
                          (Library.createComicFromMetadata <$> buf) (library s)
                    ∧ omap insert_size l = [length buf])
                   ∨ (r = Ok false ∧ md_list s' = [] ∧ quit s' = true
                      ∧ library s' = library s ∧ omap insert_size l = [])
                   ∨ (∃ e t, r = Raise e ∧ fault_at w t = true
                             ∧ md_list s' = buf ∧ library s' = library s
                             ∧ (omap insert_size l = []
                                ∨ omap insert_size l = [length buf]))))).
Proof.
  intros E rc q.
  destruct (getComicMetadata_spec w f s) as (s1 & E1 & Hc1 & Hr1 & Hm1 & Hl1 & Hq1).
  fold rc in Hr1. fold q in Hq1.
  revert E. unfold scan_file. mrun. rewrite E1.
  destruct (extract w f) as [omd|e].
  2: { intros [= <- <-]. split; [done|]. exists []. split; [done|].
       left. eauto 10. }
  remember (md_list s ++ option_list omd) as buf eqn:Hbuf.
  set (s2 := match omd with
             | Some md => set_md_list (md_list s1 ++ [md]) s1
             | None => s1
             end).
  assert (md_list s2 = buf ∧ calls s2 = calls s1 ∧ read_count s2 = rc
          ∧ library s2 = library s ∧ quit s2 = q ∧ add_count s2 = add_count s1)
    as (Hm2 & Hc2 & Hr2 & Hl2 & Hq2 & Ha2).
  { subst s2 buf. destruct omd; fields; rewrite ?Hm1, ?app_nil_r; done. }
  assert ((match omd with
           | Some md => modify (λ s, set_md_list (md_list s ++ [md]) s)
           | None => ret ()
           end) s1 = (Ok tt, s2)) as -> by (subst s2; by destruct omd).
  clearbody s2. unfold setStatusDetailOnly. mrun. fields.
  rewrite Hq2, Hr2. clearbody q rc.
  destruct q eqn:Hq.
  { unfold setStatusDetail, logging_debug, logging. mrun.
    intros [= <- <-]. fields. split; [done|]. exists [].
    split; [by rewrite Hc2|]. right. exists omd. split; [done|]. cbn zeta. rewrite <- Hbuf. left.
    repeat split; done. }
  case_bool_decide as Hcp; mrun.
  2: { intros [= <- <-]. fields. split; [done|]. exists [].
       split; [by rewrite Hc2|]. right. exists omd. split; [done|]. cbn zeta. rewrite <- Hbuf.
       right; left. repeat split; try done.
       intros (? & ? & _). by apply Hcp. }
  fields. rewrite Hm2.
  case_bool_decide as Hne; mrun.
  2: { intros [= <- <-]. fields. split; [done|]. exists [].
       split; [by rewrite Hc2|]. right. exists omd. split; [done|]. cbn zeta. rewrite <- Hbuf.
       right; left. repeat split; try done.
       intros (_ & _ & Hb). apply Hb, nil_length_inv. lia. }
  match goal with |- context [commitMetadataList w buf ?s3] =>
    destruct (commitMetadataList w buf s3) as [r4 s4] eqn:E4 end.
  apply commitMetadataList_spec in E4 as (Hm4 & Hr4 & l & Hc4 & Hcases).
  revert Hm4 Hr4 Hc4 Hcases. fields. intros Hm4 Hr4 Hc4 Hcases.
  assert (buf ≠ []) as Hb.
  { intros Hb. apply (f_equal length) in Hb. simpl in Hb. lia. }
  destruct Hcp as [Hcp1 Hcp2].
  assert (calls s4 = calls s ++ OpenArchive f :: l) as Hc5
    by (by rewrite Hc4, Hc2, Hc1, <- app_assoc).
  destruct Hcases as [(-> & Hl4 & Hs4)|[(-> & Hq4 & Hl4 & Hs4)
                                       |(e & t & -> & Hf & Hl4 & Hs4)]];
    mrun; intros [= <- <-]; fields; (split; [congruence|]); exists l;
    (split; [done|]); right; exists omd; (split; [done|]); cbn zeta; rewrite <- Hbuf;
    right; right;
    (split; [done|]); (split; [done|]); (split; [done|]); (split; [done|]).
  - left. rewrite Hl4, Hl2. done.
  - right; left. rewrite Hl4, Hl2. done.
  - right; right. exists e, t. rewrite Hl4, Hl2, Hm4, Hm2. done.
Qed.

Lemma extract_counted w f omd :
  extract w f = Ok omd →
  counted w f = match omd with Some _ => true | None => false end.
Proof.
  unfold extract, counted, mbind, Result_bind.
  destruct (open_archive w f) as [ca|e]; [|done].
  destruct (seemsToBeAComicArchive ca); [|by intros [= <-]].
  destruct (read_metadata w ca f); [|done]. by intros [= <-].
Qed.

(** What the end of [dofullScan] does to the catalog: nothing when the
    buffer is empty, one last commit otherwise. *)
Lemma scan_end_spec w total s r s' :
  scan_end w total s = (r, s') →
  (md_list s = [] ∧ r = Ok tt ∧ calls s' = calls s ∧ library s' = library s)
  ∨ (md_list s ≠ []
     ∧ ∃ l, calls s' = calls s ++ l
       ∧ ((r = Ok tt
           ∧ library s'
             = Library.addComics
                 (Library.createComicFromMetadata <$> md_list s) (library s)
           ∧ omap insert_size l = [length (md_list s)])
          ∨ (r = Ok tt ∧ quit s' = true ∧ library s' = library s
             ∧ omap insert_size l = []
             ∧ (quit s = false → stop_at w ≠ None))
          ∨ (∃ e t, r = Raise e ∧ fault_at w t = true ∧ library s' = library s
             ∧ (omap insert_size l = []
                ∨ omap insert_size l = [length (md_list s)])))).
Proof.
  unfold scan_end, setStatusDetail, logging_info, logging. mrun.
  case_bool_decide as Hne; mrun.
  2: { assert (md_list s = []) by (apply nil_length_inv; lia).
       destruct (quit_when_done _); mrun; intros [= <- <-]; left; by fields. }
  assert (md_list s ≠ []) as Hb.
  { intros Hb. rewrite Hb in Hne. simpl in Hne. lia. }
  destruct (commitMetadataList w (md_list s) s) as [r1 s1] eqn:E1.
  assert (quit s1 = true → quit s = false → stop_at w ≠ None) as Hstopped.
  { intros Hq1 Hq0 Hstop. frame_in E1 stays_running. rewrite E1 in Hq1; done. }
  apply commitMetadataList_spec in E1 as (_ & _ & l & Hc & Hcases).
  destruct Hcases as [(-> & Hl & Hs)|[(-> & Hq & Hl & Hs)
                                     |(e & t & -> & Hf & Hl & Hs)]]; mrun.
  - destruct (quit_when_done _); mrun; intros [= <- <-]; right;
      (split; [done|]); exists l; fields; (split; [done|]); left; done.
  - destruct (quit_when_done _); mrun; intros [= <- <-]; right;
      (split; [done|]); exists l; fields; (split; [done|]); right; left;
      split_and!; auto.
  - intros [= <- <-]. right. split; [done|]. exists l. split; [done|].
    right; right. eauto 10.
Qed.

Lemma omap_insert_size_other c l :
  insert_size c = None → omap insert_size (c :: l) = omap insert_size l.
Proof. intros H. simpl. by rewrite H. Qed.

(** ** Counting in tens *)

(** Division by 10 as its two defining facts, for [lia]. *)
Ltac div_mod_10 n :=
  pose proof (Nat.div_mod_eq n 10);
  pose proof (Nat.mod_upper_bound n 10 ltac:(lia)).

Lemma mod_10_succ n : (n + 1) `mod` 10 ≠ 0 → (n + 1) `mod` 10 = n `mod` 10 + 1.
Proof. intros ?. div_mod_10 n. div_mod_10 (n + 1). lia. Qed.

Lemma mod_10_full n : (n + 1) `mod` 10 = 0 → n `mod` 10 = 9.
Proof. intros ?. div_mod_10 n. div_mod_10 (n + 1). lia. Qed.

Lemma div_10_full n : (9 + S n) / 10 = S (n / 10).
Proof. div_mod_10 n. div_mod_10 (9 + S n). lia. Qed.

(** ** A scan that nothing disturbs *)

Section Undisturbed.

Context (w : World).
Hypothesis Hstop : stop_at w = None.
Hypothesis Hfault : ∀ t, fault_at w t = false.

Lemma scan_files_undisturbed total fl s r s' :
  Forall (recognised w) fl →
  quit s = false →
  length (md_list s) = read_count s `mod` 10 →
  scan_files w total fl s = (r, s') →
  r = Ok false ∧ quit s' = false
  ∧ read_count s' = read_count s + length fl
  ∧ length (md_list s') = read_count s' `mod` 10
  ∧ ∃ l, calls s' = calls s ++ l
      ∧ omap insert_size l
        = replicate ((read_count s `mod` 10 + length fl) / 10) 10.
Proof.
  intros Hfl. revert s. induction Hfl as [|f fl [md Hf] _ IH]; intros s Hq Hinv.
  { simpl. mrun. intros [= <- <-]. rewrite !Nat.add_0_r.
    split_and!; try done. exists []. rewrite app_nil_r.
    rewrite Nat.div_small by (apply Nat.mod_upper_bound; lia). done. }
  simpl. mrun.
  destruct (scan_file w total f s) as [r1 s1] eqn:E1.
  pose proof E1 as Hrun.
  frame_in Hrun stays_running. specialize (Hrun Hq).
  apply scan_file_spec in E1 as (Hrc & l1 & Hc1 & Hcases).
  rewrite Hq, Hstop, (extract_counted _ _ _ Hf) in *. simpl in *.
  rewrite Hf in Hcases.
  destruct Hcases as [(e & ? & _)|(omd & [= <-] & Hcases)]; [done|].
  simpl in Hcases.
  assert (length (md_list s ++ [md]) = read_count s `mod` 10 + 1) as Hlen
    by (rewrite length_app; simpl; lia).
  pose proof (Nat.mod_upper_bound (read_count s) 10 ltac:(lia)) as Hlt.
  destruct Hcases as [(? & _)|[(_ & Hncp & -> & -> & _ & Hm1 & _)
                              |(_ & Hcp1 & _ & _ & Hcases)]]; [done|..].
  - (* the buffer is not due yet *)
    assert ((read_count s + 1) `mod` 10 = read_count s `mod` 10 + 1) as Hmod.
    { apply mod_10_succ. intros Hz. apply Hncp. repeat split; [done|lia|].
      by destruct (md_list s). }
    intros E. apply IH in E as (-> & Hq' & Hrc' & Hinv' & l & Hc' & Hs').
    + split_and!; try done; [simpl; lia|].
      exists (OpenArchive f :: l). split.
      * rewrite Hc', Hc1, <- app_assoc. done.
      * rewrite omap_insert_size_other by done.
        rewrite Hs', Hrc, Hmod. f_equal. f_equal. lia.
    + done.
    + rewrite Hm1, Hrc, Hmod. done.
  - (* the buffer is due: it holds ten *)
    assert (read_count s `mod` 10 = 9) as H9 by by apply mod_10_full.
    destruct Hcases as [(-> & Hm1 & _ & Hs1)|[(_ & _ & Hq1 & _)
                                              |(e & t & _ & Ht & _)]].
    2: { congruence. }
    2: { rewrite Hfault in Ht. done. }
    intros E. apply IH in E as (-> & Hq' & Hrc' & Hinv' & l & Hc' & Hs').
    + split_and!; try done; [simpl; lia|].
      exists (OpenArchive f :: l1 ++ l). split.
      * rewrite Hc', Hc1, <- !app_assoc. done.
      * rewrite omap_insert_size_other by done.
        rewrite omap_app, Hs1, Hs', Hrc, Hcp1, Hlen, H9.
        rewrite div_10_full. done.
    + done.
    + rewrite Hm1, Hrc, Hcp1. done.
Qed.

End Undisturbed.

Lemma scan_begin_stays_running w dirs :
  stop_at w = None → respects stays_running (scan_begin w dirs).
Proof. intros Hstop. frame. Qed.

(** C5.  A scan over exactly 25 new files, all recognised as comic archives
    and none raising, with no stop request and no failing library call,
    makes exactly three bulk inserts, of 10, 10 and 5 comics, in that
    order. *)
Theorem twenty_five_new_files w dirs s fl tr s1 :
  stop_at w = None →
  (∀ t, fault_at w t = false) →
  quit s = false →
  createAddRemoveLists w dirs s = (Ok (fl, tr), s1) →
  length fl = 25 →
  Forall (recognised w) fl →
  ∃ l, calls (dofullScan w dirs s).2 = calls s ++ l
     ∧ omap insert_size l = [10; 10; 5].
Proof.
  intros Hstop Hfault Hq E0 Hlen Hfl.
  destruct (dofullScan w dirs s) as [r s'] eqn:E. simpl.
  apply dofullScan_inv in E as [(e & -> & E1)|(fl' & s2 & E1 & E)].
  { destruct (scan_begin_spec _ _ _ _ _ _ _ _ E0 E1)
      as [_ [(? & _)|(? & t & _ & Ht & _)]]; [done|].
    by rewrite Hfault in Ht. }
  pose proof E1 as Hq2. frame_in Hq2 stays_running. specialize (Hq2 Hq).
  destruct (scan_begin_spec _ _ _ _ _ _ _ _ E0 E1)
    as [Hc2 [([= ->] & Hm2 & Hr2 & _)|(? & t & ? & _)]]; [|done].
  assert (∃ s3 r3, scan_files w (length fl) fl s2 = (Ok false, s3)
                   ∧ scan_end w (length fl) s3 = (r3, s')) as (s3 & r3 & E2 & E3).
  { destruct E as [(e & -> & E2)|[(-> & E2)|(s3 & E2 & [(e & -> & E3)|(-> & E3)])]];
      eauto.
    - eapply scan_files_undisturbed in E2 as (? & _); try done.
      by rewrite Hm2, Hr2.
    - eapply scan_files_undisturbed in E2 as (? & _); try done.
      by rewrite Hm2, Hr2. }
  eapply scan_files_undisturbed in E2
    as (_ & Hq3 & Hr3 & Hm3 & l2 & Hc3 & Hs3); try done;
    [|by rewrite Hm2, Hr2].
  rewrite Hr2, Hlen in Hr3, Hs3. rewrite Hr3 in Hm3.
  change ((0 `mod` 10 + 25) / 10) with 2 in Hs3.
  change ((0 + 25) `mod` 10) with 5 in Hm3.
  apply scan_end_spec in E3 as [(Hnil & _)|(_ & l3 & Hc4 & Hcases)].
  { by rewrite Hnil in Hm3. }
  assert (omap insert_size l3 = [5]) as Hs4.
  { destruct Hcases as [(_ & _ & Hs)|[(_ & _ & _ & _ & Hno)
                                     |(e & t & _ & Ht & _)]].
    - by rewrite Hs, Hm3.
    - by destruct (Hno Hq3).
    - by rewrite Hfault in Ht. }
  eexists. split.
  - rewrite Hc4, Hc3, Hc2, <- !app_assoc. done.
  - rewrite !omap_app, Hs3, Hs4. by case_bool_decide.
Qed.

(** ** Batches stay within ten when nothing raises *)

Lemma collect_current_emits w P fl cur :
  respects (emits P) (collect_current w fl cur).
Proof. revert cur. induction fl as [|p fl IH]; intros cur; simpl; frame. Qed.
Global Hint Resolve collect_current_emits : frame.

Lemma scan_files_batches w total fl s r s' :
  (∀ t, fault_at w t = false) →
  Forall (λ f, ∃ omd, extract w f = Ok omd) fl →
  length (md_list s) ≤ read_count s `mod` 10 →
  scan_files w total fl s = (r, s') →
  (r = Ok false → length (md_list s') ≤ read_count s' `mod` 10)
  ∧ ∃ l, calls s' = calls s ++ l ∧ Forall (λ n, n ≤ 10) (omap insert_size l).
Proof.
  intros Hfault Hfl. revert s.
  induction Hfl as [|f fl [omd Hf] _ IH]; intros s Hinv.
  { simpl. mrun. intros [= <- <-]. split; [done|].
    exists []. by rewrite app_nil_r. }
  simpl. mrun.
  destruct (scan_file w total f s) as [r1 s1] eqn:E1.
  apply scan_file_spec in E1 as (Hrc & l1 & Hc1 & Hcases).
  rewrite (extract_counted _ _ _ Hf), Hf in *.
  destruct Hcases as [(e & ? & _)|(omd' & [= <-] & Hcases)]; [done|].
  pose proof (Nat.mod_upper_bound (read_count s) 10 ltac:(lia)) as Hlt.
  assert (length (md_list s ++ option_list omd)
          = length (md_list s) + match omd with Some _ => 1 | None => 0 end)
    as Hlen by (rewrite length_app; by destruct omd).
  cbn zeta in Hcases.
  destruct Hcases as [(_ & -> & -> & _)|[(_ & Hncp & -> & -> & _ & Hm1 & _)
                                        |(_ & Hcp1 & Hcp2 & Hb & Hcases)]].
  - mrun. intros [= <- <-]. split; [done|]. eexists. split; [done|].
    by repeat constructor.
  - intros E. apply IH in E as (Hinv' & l & Hc' & Hs').
    + split; [done|]. exists (OpenArchive f :: l). split.
      * by rewrite Hc', Hc1, <- app_assoc.
      * by rewrite omap_insert_size_other.
    + rewrite Hm1, Hrc, Hlen. destruct omd as [md|]; [|by rewrite !Nat.add_0_r].
      rewrite mod_10_succ; [lia|]. intros Hz. apply Hncp.
      split_and!; [done|lia|by destruct (md_list s)].
  - assert (length (md_list s ++ option_list omd) ≤ 10) as Hten.
    { rewrite Hlen. destruct omd as [md|]; [lia|].
      rewrite Nat.add_0_r in *. rewrite Hcp1 in Hinv.
      destruct (md_list s); [by rewrite app_nil_r in Hb|simpl in Hinv; lia]. }
    destruct Hcases as [(-> & Hm1 & _ & Hs1)|[(-> & Hm1 & _ & _ & Hs1)
                                              |(e & t & _ & Ht & _)]].
    3: { by rewrite Hfault in Ht. }
    all: intros E; apply IH in E as (Hinv' & l & Hc' & Hs');
      [|rewrite Hm1; simpl; lia].
    all: split; [done|]; exists (OpenArchive f :: l1 ++ l); split;
      [by rewrite Hc', Hc1, <- !app_assoc|].
    all: rewrite omap_insert_size_other, omap_app, Hs1 by done.
    + by constructor.
    + done.
Qed.

(** ** The loop and its [except] clause *)

(** No exception leaves the loop: the [except] clause catches them all. *)
Lemma scan_files_total w total fl s : ∃ b, (scan_files w total fl s).1 = Ok b.
Proof.
  revert s. induction fl as [|f fl IH]; intros s; simpl; [by eexists|].
  mrun. destruct (scan_file w total f s) as [[[]|e] s1]; mrun.
  - by eexists.
  - apply IH.
  - unfold logging_error, logging_exception, logging. mrun. apply IH.
Qed.

(** The loop over a list in two parts: the second part runs when the first
    ran to its end. *)
Lemma scan_files_app w total pre rest s :
  scan_files w total (pre ++ rest) s
  = match scan_files w total pre s with
    | (Ok false, s1) => scan_files w total rest s1
    | other => other
    end.
Proof.
  revert s. induction pre as [|f pre IH]; intros s; simpl; [done|].
  mrun. destruct (scan_file w total f s) as [[[]|e] s1]; mrun.
  - done.
  - apply IH.
  - unfold logging_error, logging_exception, logging. mrun. apply IH.
Qed.

(** ** Once the stop flag is up *)

Lemma create_comics_stopped w mds cs s r s' :
  quit s = true → mds ≠ [] →
  create_comics w mds cs s = (r, s') → ∀ cs', r ≠ Ok (Some cs').
Proof.
  intros Hq Hne. destruct mds as [|md mds]; [done|]. simpl.
  unfold library_createComicFromMetadata, library_call. mrun. fields.
  destruct (fault_at w (clock s)); mrun; [by intros [= <- _]|].
  fields. rewrite Hq. simpl.
  unfold setStatusDetail, logging_debug, logging. mrun. by intros [= <- _].
Qed.

Lemma commitMetadataList_stopped w mds s r s' :
  quit s = true → mds ≠ [] →
  commitMetadataList w mds s = (r, s') →
  library s' = library s
  ∧ ∃ l, calls s' = calls s ++ l ∧ omap insert_size l = [].
Proof.
  intros Hq Hne.
  unfold commitMetadataList, library_create_meta_objs, library_call. mrun. fields.
  destruct (fault_at w (clock s)); mrun.
  { intros [= _ <-]. fields. split; [done|]. by eexists [_]. }
  match goal with |- context [create_comics w mds [] ?s1] =>
    destruct (create_comics w mds [] s1) as [r1 s2] eqn:E1;
    assert (quit s1 = true) as Hq1 by (fields; by rewrite Hq)
  end.
  pose proof (create_comics_stopped _ _ _ _ _ _ Hq1 Hne E1) as Hnone.
  apply create_comics_spec in E1 as (Hl & _ & _ & (l & Hc & Hs) & _).
  revert Hl Hc. fields. unfold id. intros Hl Hc.
  assert (calls s2 = calls s ++ CreateMetaObjs mds :: l) as Hc2
    by (by rewrite Hc, <- app_assoc).
  destruct r1 as [[cs|]|e]; mrun.
  - by destruct (Hnone cs).
  - intros [= _ <-]. split; [done|]. by exists (CreateMetaObjs mds :: l).
  - intros [= _ <-]. split; [done|]. by exists (CreateMetaObjs mds :: l).
Qed.

Lemma scan_files_stopped w total fl s r s' :
  quit s = true →
  scan_files w total fl s = (r, s') →
  library s' = library s
  ∧ ∃ l, calls s' = calls s ++ l ∧ omap insert_size l = [].
Proof.
  revert s. induction fl as [|f fl IH]; intros s Hq; simpl.
  { mrun. intros [= _ <-]. split; [done|]. exists []. by rewrite app_nil_r. }
  mrun. destruct (scan_file w total f s) as [r1 s1] eqn:E1.
  apply scan_file_spec in E1 as (_ & l1 & Hc1 & Hcases).
  rewrite Hq in Hcases. simpl in Hcases.
  destruct Hcases as [(e & _ & -> & -> & Hl1 & _ & Hq1)
                     |(omd & _ & [(_ & -> & -> & Hl1 & _)
                                 |[(? & _)|(? & _)]])]; try done.
  - unfold logging_error, logging_exception, logging. mrun.
    intros E. apply IH in E as (Hl & l & Hc & Hs); [|done].
    revert Hl Hc. fields. intros Hl Hc. split; [congruence|].
    exists (OpenArchive f :: l). split; [|done].
    by rewrite Hc, Hc1, <- app_assoc.
  - mrun. intros [= _ <-]. split; [done|]. by eexists [_].
Qed.

Lemma scan_end_stopped w total s r s' :
  quit s = true →
  scan_end w total s = (r, s') →
  library s' = library s
  ∧ ∃ l, calls s' = calls s ++ l ∧ omap insert_size l = [].
Proof.
  intros Hq. unfold scan_end, setStatusDetail, logging_info, logging. mrun.
  case_bool_decide as Hne; mrun.
  2: { destruct (quit_when_done _); mrun; intros [= _ <-]; fields;
         (split; [done|]); exists []; by rewrite app_nil_r. }
  assert (md_list s ≠ []) as Hb.
  { intros Hb. rewrite Hb in Hne. simpl in Hne. lia. }
  destruct (commitMetadataList w (md_list s) s) as [r1 s1] eqn:E1.
  apply commitMetadataList_stopped in E1 as (Hl & l & Hc & Hs); [|done..].
  destruct r1 as [[]|e]; mrun.
  - destruct (quit_when_done _); mrun; intros [= _ <-]; fields;
      (split; [done|]); by exists l.
  - intros [= _ <-]. split; [done|]. by exists l.
Qed.

(** When the stop flag is up by the time the extraction of a file returns
    without raising, the scan halts there: it makes no further call, so it
    opens no later file and inserts nothing, and the catalog is what the
    commits before that file made it. *)
Theorem stop_flag_halts_scan w dirs s fl pre f post s0 s1 omd s2 :
  scan_begin w dirs s = (Ok fl, s0) →
  fl = pre ++ f :: post →
  scan_files w (length fl) pre s0 = (Ok false, s1) →
  getComicMetadata w f s1 = (Ok omd, s2) →
  quit s2 = true →
  (dofullScan w dirs s).1 = Ok Halted
  ∧ calls (dofullScan w dirs s).2 = calls s2
  ∧ library (dofullScan w dirs s).2 = library s1
  ∧ statusdetail (dofullScan w dirs s).2 = "Monitor: halting scan!".
Proof.
  intros E0 -> E1 E2 Hq2.
  unfold dofullScan. mrun. rewrite E0, scan_files_app, E1. simpl.
  mrun. destruct (scan_file w _ f s1) as [r3 s3] eqn:E3.
  pose proof E3 as Hret.
  apply scan_file_spec in E3 as (_ & l & Hc & Hcases).
  destruct (getComicMetadata_spec w f s1) as (s2' & E2' & Hc2 & _ & _ & _ & Hq).
  rewrite E2 in E2'. injection E2' as Hex <-. rewrite <- Hex in Hcases.
  rewrite <- Hq, Hq2 in Hcases.
  destruct Hcases as [(e & ? & _)|(omd' & _ & [(_ & -> & -> & Hl & _)
                                              |[(? & _)|(? & _)]])]; try done.
  mrun. apply scan_file_returned in Hret. rewrite Hc, Hc2. done.
Qed.

(** Once the stop flag is up, neither the rest of the loop nor the end of
    the scan inserts anything: the catalog stays as it is, whether or not
    the files still to come raise. *)
Theorem stopped_scan_inserts_nothing w total fl s :
  quit s = true →
  library (scan_files w total fl s).2 = library s
  ∧ library (scan_end w total s).2 = library s.
Proof.
  intros Hq. split.
  - destruct (scan_files w total fl s) as [r s'] eqn:E.
    by apply scan_files_stopped in E as (? & _).
  - destruct (scan_end w total s) as [r s'] eqn:E.
    by apply scan_end_stopped in E as (? & _).
Qed.

(** ** Commit failures *)

Lemma scan_end_raises w total s e s1 :
  md_list s ≠ [] →
  commitMetadataList w (md_list s) s = (Raise e, s1) →
  scan_end w total s = (Raise e, s1).
Proof.
  intros Hne E. unfold scan_end. mrun.
  rewrite bool_decide_eq_true_2 by (destruct (md_list s); [done|simpl; lia]).
  mrun. by rewrite E.
Qed.

Import Examples.

(** ** Where the code falls short *)

(** C1 on a concrete input: ten new comics, and the library raises at
    tick 11, which is the [create_meta_objs] call of the commit made inside
    the loop.  The exception does not leave [dofullScan]: the loop's
    [except] clause catches it and logs it as a failure of the file in
    hand, and the scan runs to its end. *)
Lemma commit_failure_caught_in_loop :
  let w := shelf 10 [] None (λ t, bool_decide (t = 11)) in
  let end_ := dofullScan w ["/c"] start in
  (∃ mds, calls end_.2 !! 11 = Some (CreateMetaObjs mds) ∧ length mds = 10)
  ∧ errors end_.2 = [LogMsg ERROR "unable to process file: /c/0.cbz";
                     LogException (DatabaseError 11)]
  ∧ end_.1 = Ok Completed.
Proof. vm_compute. split_and!; [|done..]. eexists. split; reflexivity. Qed.

(** C4 on a concrete input: twenty new comics of which the tenth to be
    processed, [/c/1.cbz], has a first page that does not decode.  Its
    exception skips the commit that was due, and the only bulk insert of
    the scan carries nineteen comics. *)
Lemma batch_of_nineteen :
  let w := shelf 20 ["/c/1.cbz"] None no_fault in
  (∃ fl, (createAddRemoveLists w ["/c"] start).1 = Ok (fl, [])
         ∧ length fl = 20 ∧ fl !! 9 = Some "/c/1.cbz")
  ∧ (dofullScan w ["/c"] start).1 = Ok Completed
  ∧ omap insert_size (calls (dofullScan w ["/c"] start).2) = [19].
Proof. vm_compute. split_and!; [|done..]. eexists. split_and!; reflexivity. Qed.

(** C6 on a concrete input: three new comics of which the first to be
    processed, [/c/1.cbz], is corrupt, and [stop()] runs at tick 1, while
    that file is being processed.  The exception skips the check of the
    stop flag, and the next file, [/c/2.cbz], is opened and processed
    before the scan halts. *)
Lemma stop_check_skipped :
  let w := shelf 3 ["/c/1.cbz"] (Some 1) no_fault in
  let end_ := dofullScan w ["/c"] start in
  calls end_.2 = [GetComicPaths; OpenArchive "/c/1.cbz"; OpenArchive "/c/2.cbz"]
  ∧ errors end_.2 = [LogMsg ERROR "unable to process file: /c/1.cbz";
                     LogException ImageError]
  ∧ end_.1 = Ok Halted.
Proof. vm_compute. done. Qed.

(** ** The theorems at work *)

Lemma twenty_five_new_files_witness :
  ∃ l, calls (dofullScan (shelf 25 [] None no_fault) ["/c"] start).2
       = calls start ++ l
     ∧ omap insert_size l = [10; 10; 5].
Proof.
  eapply (twenty_five_new_files (shelf 25 [] None no_fault) ["/c"] start).
  - reflexivity.
  - reflexivity.
  - reflexivity.
  - vm_compute. reflexivity.
  - reflexivity.
  - repeat (constructor; [eexists; vm_compute; reflexivity|]). constructor.
Defined.

Lemma delete_precedes_inserts_witness :
  ∃ l, calls (dofullScan (shelf 3 [] None no_fault) ["/c"] stale).2
       = calls stale ++ [GetComicPaths] ++ [DeleteComics [3; 2]] ++ l
     ∧ Forall scan_call l.
Proof.
  eapply (delete_precedes_inserts (shelf 3 [] None no_fault) ["/c"] stale
            _ [3; 2]).
  vm_compute. reflexivity.
Defined.

Lemma removed_count_stays_zero_witness :
  let end_ := dofullScan (shelf 3 [] None no_fault) ["/c"] stale in
  length (comics (library stale)) = 3
  ∧ DeleteComics [3; 2] ∈ calls end_.2
  ∧ remove_count end_.2 = 0
  ∧ last (logs end_.2) = Some (LogMsg INFO "Monitor: Removed 0 comics").
Proof.
  pose proof (removed_count_stays_zero (shelf 3 [] None no_fault) ["/c"] stale)
    as [H0 Hlog].
  split_and!.
  - reflexivity.
  - vm_compute. do 1 constructor. constructor.
  - exact H0.
  - apply Hlog. vm_compute. reflexivity.
Defined.

Lemma cancelled_scan_status_witness :
  let end_ := dofullScan (shelf 3 [] (Some 1) no_fault) ["/c"] start in
  end_.1 = Ok Halted
  ∧ status end_.2 = "SCANNING"
  ∧ statusdetail end_.2 = "Monitor: halting scan!"
  ∧ scancomplete_ts end_.2 = NoStamp.
Proof.
  pose proof (cancelled_scan_status (shelf 3 [] (Some 1) no_fault) ["/c"] start)
    as (Hhalt & _ & _).
  split; [vm_compute; reflexivity|].
  apply Hhalt. vm_compute. reflexivity.
Defined.

Module DebounceFacts.

Import Debounce.

Lemma expire_finished now st i :
  (∀ tm, timers st !! i = Some tm → finished tm = true ∨ (now < deadline tm)%Z) →
  expire now st i = st.
Proof.
  intros H. unfold expire. destruct (timers st !! i) as [tm|]; [|done].
  destruct (H tm eq_refl) as [->|Hlt]; [done|].
  destruct (finished tm); [done|].
  by rewrite bool_decide_eq_false_2 by lia.
Qed.

Lemma foldl_expire_idle now st l :
  (∀ i tm, i ∈ l → timers st !! i = Some tm →
           finished tm = true ∨ (now < deadline tm)%Z) →
  foldl (expire now) st l = st.
Proof.
  induction l as [|i l IH]; intros H; simpl; [done|].
  rewrite expire_finished by (intros tm; apply H; left).
  apply IH. intros j tm Hj. apply H. by right.
Qed.

(** While the quiet period has not run out, nothing expires. *)
Lemma advance_pending t now st :
  pending t st → (now < t + 30)%Z → advance now st = st.
Proof.
  intros (old & Ht & Hold & _) Hnow. unfold advance.
  apply foldl_expire_idle. intros i tm _. rewrite Ht.
  intros Hi. apply lookup_app_Some in Hi as [Hi|[_ Hi]].
  - left. by eapply Forall_lookup_1 in Hold.
  - right. apply list_lookup_singleton_Some in Hi as [_ <-]. simpl. lia.
Qed.

(** Once it has, the one live timer expires and queues the scan. *)
Lemma advance_expired t now st :
  pending t st → (t + 30 ≤ now)%Z →
  queue (advance now st) = [((t + 30)%Z, CmdScan)]
  ∧ eventProcessingTimer (advance now st) = None.
Proof.
  intros (old & Ht & Hold & Hslot & Hq) Hnow. unfold advance.
  rewrite Ht, length_app. simpl. rewrite seq_app, foldl_app. simpl.
  rewrite foldl_expire_idle.
  2: { intros i tm Hi. rewrite Ht. apply elem_of_seq in Hi.
       rewrite lookup_app_l by lia. intros Hl. left.
       by eapply Forall_lookup_1 in Hold. }
  unfold expire. rewrite Ht, lookup_app_r by lia.
  rewrite Nat.sub_diag. simpl.
  rewrite bool_decide_eq_true_2 by lia. simpl. by rewrite Hq, Hslot.
Qed.

Lemma handleSingleEvent_pending t t' st :
  pending t st → pending t' (handleSingleEvent t' st).
Proof.
  intros (old & Ht & Hold & Hslot & Hq).
  exists (old ++ [{| deadline := (t + 30)%Z; finished := true |}]).
  unfold handleSingleEvent. rewrite Hslot, Ht. simpl.
  rewrite alter_app_r_alt by lia. rewrite Nat.sub_diag. simpl.
  split_and!; try done.
  apply Forall_app. split; [done|]. by repeat constructor.
Qed.

Lemma handleSingleEvent_init t : pending t (handleSingleEvent t init).
Proof. exists []. by unfold handleSingleEvent. Qed.

Lemma last_cons (t t' : Z) rest :
  List.last (t' :: rest) t = List.last rest t'.
Proof.
  revert t t'. induction rest as [|a rest IH]; intros t t'; [done|].
  change (List.last (a :: rest) t = List.last (a :: rest) t').
  by rewrite !IH.
Qed.

Lemma run_pending t st rest :
  pending t st → burst t rest → pending (List.last rest t) (run rest st).
Proof.
  revert t st. induction rest as [|t' rest IH]; intros t st Hp Hb; [done|].
  destruct Hb as [Hgap Hb]. unfold run. simpl.
  rewrite (advance_pending t) by (done || lia).
  change (pending (List.last (t' :: rest) t) (run rest (handleSingleEvent t' st))).
  rewrite last_cons.
  apply IH; [|done]. by eapply handleSingleEvent_pending.
Qed.

(** C7.  A burst of one or more raw file events, each less than the
    30-second quiet period after the one before, queues exactly one
    "scan" command, and queues it 30 seconds after the last event of the
    burst: until then the queue is empty, from then on it holds that one
    command. *)
Theorem burst_queues_one_scan t rest now :
  burst t rest →
  let final := List.last rest t in
  queue (advance now (run (t :: rest) init))
  = if bool_decide (final + 30 ≤ now)%Z then [((final + 30)%Z, CmdScan)]
    else [].
Proof.
  intros Hb final.
  assert (pending final (run (t :: rest) init)) as Hp.
  { unfold run. simpl.
    change (pending final (run rest (handleSingleEvent t init))).
    apply run_pending; [apply handleSingleEvent_init|done]. }
  case_bool_decide as Hnow.
  - by apply advance_expired.
  - rewrite (advance_pending final) by (done || lia).
    by destruct Hp as (_ & _ & _ & _ & ->).
Qed.

Lemma burst_queues_one_scan_witness :
  queue (advance 200 (run [100; 110; 125; 150]%Z init)) = [(180%Z, CmdScan)]
  ∧ queue (advance 179 (run [100; 110; 125; 150]%Z init)) = [].
Proof.
  split.
  - apply (burst_queues_one_scan 100 [110; 125; 150]%Z 200). simpl. lia.
  - apply (burst_queues_one_scan 100 [110; 125; 150]%Z 179). simpl. lia.
Defined.

End DebounceFacts.

(** ** What the two lists hold *)

Lemma elem_of_get_recursive_filelist w dirs p :
  p ∈ get_recursive_filelist w dirs
  ↔ is_Some (disk w !! p) ∧ ∃ root, root ∈ dirs ∧ inside w root p.
Proof.
  unfold get_recursive_filelist. rewrite list_elem_of_bind. split.
  - intros (root & Hp & Hroot). apply list_elem_of_filter in Hp as [Hin Hel].
    apply elem_of_elements, elem_of_dom in Hel. eauto.
  - intros (Hsome & root & Hroot & Hin). exists root. split; [|done].
    apply list_elem_of_filter. split; [done|].
    by apply elem_of_elements, elem_of_dom.
Qed.

Lemma collect_current_spec w l acc s :
  Forall (λ p, is_Some (disk w !! p)) l →
  ∃ cur, collect_current w l acc s = (Ok cur, s)
    ∧ ∀ p t, (p, t) ∈ cur ↔ (p, t) ∈ acc ∨ (p ∈ l ∧ disk w !! p = Some t).
Proof.
  intros Hl. revert acc. induction Hl as [|p l [t Ht] _ IH]; intros acc; simpl.
  { eexists. split; [done|]. intros p t. split; [by left|].
    by intros [?|[?%elem_of_nil _]]. }
  unfold getmtime. rewrite Ht. mrun.
  destruct (IH ({[(p, t)]} ∪ acc)) as (cur & -> & Hcur).
  exists cur. split; [done|]. intros p' t'. rewrite Hcur.
  rewrite elem_of_union, elem_of_singleton, elem_of_cons. split.
  - intros [[[= -> ->]|?]|[? ?]]; eauto.
  - intros [?|[[->|?] Hd]]; eauto.
    left; left. rewrite Ht in Hd. by injection Hd as ->.
Qed.

Lemma index_rows_fold rows : index_rows rows = foldl index_step (∅, ∅) rows.
Proof. reflexivity. Qed.

Lemma index_step_db rows db0 ix0 p t :
  (p, t) ∈ (foldl index_step (db0, ix0) rows).1
  ↔ (p, t) ∈ db0 ∨ ∃ id, (id, p, t) ∈ rows.
Proof.
  revert db0 ix0. induction rows as [|[[id' p'] t'] rows IH]; intros db0 ix0.
  { simpl. split; [by left|]. intros [?|(? & H)]; [done|]. by apply elem_of_nil in H. }
  simpl. rewrite IH, elem_of_union, elem_of_singleton. split.
  - intros [[[= -> ->]|?]|(id & ?)]; eauto.
    + right. exists id'. by left.
    + right. exists id. by right.
  - intros [?|(id & H)]; eauto. apply elem_of_cons in H as [[= -> -> ->]|?]; eauto.
Qed.

Lemma index_step_ix_other rows db0 ix0 p :
  p ∉ rows.*1.*2 →
  (foldl index_step (db0, ix0) rows).2 !! p = ix0 !! p.
Proof.
  revert db0 ix0. induction rows as [|[[id' p'] t'] rows IH]; intros db0 ix0 Hp;
    [done|].
  simpl in *. apply not_elem_of_cons in Hp as [Hne Hp].
  rewrite IH by done. by rewrite lookup_insert_ne.
Qed.

Lemma index_step_ix_row rows db0 ix0 id p t :
  NoDup rows.*1.*2 → (id, p, t) ∈ rows →
  (foldl index_step (db0, ix0) rows).2 !! p = Some id.
Proof.
  revert db0 ix0. induction rows as [|[[id' p'] t'] rows IH]; intros db0 ix0 Hnd Hin.
  { by apply elem_of_nil in Hin. }
  simpl in *. apply NoDup_cons in Hnd as [Hp' Hnd].
  apply elem_of_cons in Hin as [[= -> -> ->]|Hin].
  - rewrite index_step_ix_other by done. by rewrite lookup_insert_eq.
  - by apply IH.
Qed.

Lemma index_step_ix_some rows db0 ix0 id p :
  (foldl index_step (db0, ix0) rows).2 !! p = Some id →
  ix0 !! p = Some id ∨ ∃ t, (id, p, t) ∈ rows.
Proof.
  revert db0 ix0. induction rows as [|[[id' p'] t'] rows IH]; intros db0 ix0 H;
    [by left|].
  simpl in H. apply IH in H as [H|(t & H)].
  - destruct (decide (p' = p)) as [->|Hne].
    + rewrite lookup_insert_eq in H. injection H as ->. right. exists t'. by left.
    + rewrite lookup_insert_ne in H by done. by left.
  - right. exists t. by right.
Qed.

Lemma lookup_ids_spec ix rs ids :
  lookup_ids ix rs = Ok ids →
  ∀ id, id ∈ ids ↔ ∃ r, r ∈ rs ∧ ix !! r.1 = Some id.
Proof.
  revert ids. induction rs as [|r rs IH]; intros ids; simpl.
  { intros [= <-] id. split; [by intros ?%elem_of_nil|].
    by intros (? & ?%elem_of_nil & _). }
  destruct (ix !! r.1) as [i|] eqn:Hi; [|done].
  destruct (lookup_ids ix rs) as [ids'|]; [|done].
  intros [= <-] id. rewrite elem_of_cons, (IH _ eq_refl). split.
  - intros [->|(r' & ? & ?)]; [exists r|exists r']; split; try done;
      [by left|by right].
  - intros (r' & [->|?]%elem_of_cons & Hr'); [left; congruence|right; eauto].
Qed.

Lemma getComicPaths_elem c id p t :
  (id, p, t) ∈ Library.getComicPaths c
  ↔ ∃ r, r ∈ comics c ∧ comic_id r = id ∧ rec_path r = p ∧ rec_mod_ts r = t.
Proof.
  unfold Library.getComicPaths. rewrite list_elem_of_fmap. split.
  - intros (r & [= -> -> ->] & Hr). eauto.
  - intros (r & Hr & <- & <- & <-). eauto.
Qed.

(** The two lists, said with the disk and the catalog: a file is to be
    added when it is on disk under a root and the catalog has no record of
    its path with its modification time; an id is to be removed when the
    index maps to it the path of a record that is not on disk as stored. *)
Lemma createAddRemoveLists_spec w dirs s fl tr s1 :
  createAddRemoveLists w dirs s = (Ok (fl, tr), s1) →
  (∀ f, f ∈ fl ↔ ∃ t, on_disk w dirs f t ∧ ¬ in_catalog (library s) f t)
  ∧ (∀ id, id ∈ tr ↔
       ∃ p t, in_catalog (library s) p t ∧ ¬ on_disk w dirs p t
              ∧ (index_rows (Library.getComicPaths (library s))).2 !! p = Some id).
Proof.
  unfold createAddRemoveLists. mrun.
  destruct (collect_current_spec w (get_recursive_filelist w dirs) ∅ s)
    as (cur & -> & Hcur).
  { apply Forall_forall. intros p Hp.
    by apply elem_of_get_recursive_filelist in Hp as [? _]. }
  assert (∀ p t, (p, t) ∈ cur ↔ on_disk w dirs p t) as Hcur'.
  { intros p t. rewrite Hcur, elem_of_get_recursive_filelist. unfold on_disk.
    split.
    - intros [?%elem_of_empty|[[_ ?] ?]]; done.
    - intros [Hd ?]. right. split_and!; try done. }
  clear Hcur.
  unfold logging_info, logging, library_getComicPaths, library_call.
  mrun. fields.
  destruct (fault_at w (clock s)); mrun; [done|]. fields. unfold id.
  rewrite index_rows_fold.
  pose proof (index_step_db (Library.getComicPaths (library s)) ∅ ∅) as Hdb.
  destruct (foldl index_step (∅, ∅) (Library.getComicPaths (library s)))
    as [db_set ix] eqn:Hfold. simpl in Hdb. mrun.
  assert (∀ p t, (p, t) ∈ db_set ↔ in_catalog (library s) p t) as Hdb'.
  { intros p t. rewrite Hdb. unfold in_catalog. split.
    - intros [?%elem_of_empty|(id & Hid)]; [done|].
      apply getComicPaths_elem in Hid as (r & ? & _ & ? & ?). eauto.
    - intros (r & ? & ? & ?). right. exists (comic_id r).
      apply getComicPaths_elem. eauto. }
  clear Hdb.
  destruct (lookup_ids ix (elements (db_set ∖ cur))) as [ids|] eqn:Hids; mrun;
    [|done].
  intros [= <- <- _]. split.
  - intros f. rewrite list_elem_of_fmap. split.
    + intros ([p t] & -> & Hel). apply elem_of_elements, elem_of_difference in Hel
        as [Hc Hd]. exists t. simpl. rewrite <- Hcur', <- Hdb'. done.
    + intros (t & Hc & Hd). exists (f, t). split; [done|].
      apply elem_of_elements, elem_of_difference.
      by rewrite Hcur', Hdb'.
  - intros id. rewrite (lookup_ids_spec _ _ _ Hids). split.
    + intros ([p t] & Hel & Hix). apply elem_of_elements, elem_of_difference in Hel
        as [Hd Hc]. exists p, t. rewrite <- Hcur', <- Hdb'. done.
    + intros (p & t & Hd & Hc & Hix). exists (p, t). split; [|done].
      apply elem_of_elements, elem_of_difference. by rewrite Hcur', Hdb'.
Qed.

(** ** The catalog only grows after the bulk delete *)

Global Instance appends_preorder : PreOrder appends.
Proof.
  split.
  - intros s. exists []. by rewrite app_nil_r.
  - intros s1 s2 s3 (a1 & E1 & N1 & F1) (a2 & E2 & N2 & F2). exists (a1 ++ a2).
    rewrite E2, E1, app_assoc. split_and!; [done|lia|].
    apply Forall_app. split; [done|].
    eapply Forall_impl; [exact F2|]. simpl. intros r. lia.
Qed.

Lemma appends_same s s' : library s' = library s → appends s s'.
Proof. intros E. exists []. by rewrite E, app_nil_r. Qed.

Lemma appends_addComics cs s :
  appends s (set_library (Library.addComics cs (library s)) s).
Proof.
  exists (imap (Library.store (next_id (library s))) cs). simpl.
  split_and!; [done|lia|].
  apply Forall_forall. intros r Hr. apply elem_of_lookup_imap in Hr
    as (i & c & -> & _). simpl. lia.
Qed.

Lemma tick_appends w : respects appends (tick w).
Proof. intros s. apply appends_same. rewrite tick_run. simpl. by fields. Qed.
Global Hint Resolve tick_appends : frame.

Ltac appends_leaf :=
  solve [ intros; apply appends_addComics
        | intros; apply appends_same; cbn; done ].

Ltac frame_appends :=
  repeat first
    [ solve [eauto 2 with frame typeclass_instances]
    | respects_step
    | appends_leaf
    | progress autounfold with monitor ].

Lemma create_comics_appends w mds cs : respects appends (create_comics w mds cs).
Proof.
  revert cs. induction mds as [|md mds IH]; intros cs; simpl; frame_appends.
Qed.
Global Hint Resolve create_comics_appends : frame.

Lemma commitMetadataList_appends w mds :
  respects appends (commitMetadataList w mds).
Proof. frame_appends. Qed.
Global Hint Resolve commitMetadataList_appends : frame.

Lemma scan_files_appends w total fl : respects appends (scan_files w total fl).
Proof. induction fl as [|p fl IH]; simpl; frame_appends. Qed.
Global Hint Resolve scan_files_appends : frame.

Lemma scan_end_appends w total : respects appends (scan_end w total).
Proof. frame_appends. Qed.

(** The rows that were there stay, and what is new differs from them. *)
Lemma appends_old s s' r :
  appends s s' → comic_id r < next_id (library s) →
  r ∈ comics (library s') ↔ r ∈ comics (library s).
Proof.
  intros (added & -> & _ & Hadd) Hr. rewrite elem_of_app. split; [|by left].
  intros [?|Hin]; [done|]. eapply Forall_forall in Hadd; [|done]. lia.
Qed.

(** After a scan that returned, the catalog is the old one without the ids
    of [to_remove], plus new rows. *)
Lemma dofullScan_library w dirs s fl tr s0 exit s' :
  createAddRemoveLists w dirs s = (Ok (fl, tr), s0) →
  dofullScan w dirs s = (Ok exit, s') →
  ∃ added, comics (library s')
           = comics (Library.deleteComics tr (library s)) ++ added
    ∧ Forall (λ r, next_id (library s) ≤ comic_id r) added.
Proof.
  intros E0 E.
  apply dofullScan_inv in E as [(e & ? & _)|(fl' & s1 & E1 & E)]; [done|].
  destruct (scan_begin_spec _ _ _ _ _ _ _ _ E0 E1)
    as [_ [([= ->] & _ & _ & Hl1)|(? & ? & ? & _)]]; [|done].
  assert (appends s1 s') as (added & Hc & _ & Hadd).
  { destruct E as [(e & ? & _)|[(_ & E2)|(s2 & E2 & [(e & ? & _)|(_ & E3)])]];
      try done.
    - eapply respects_run; [apply scan_files_appends|done].
    - etrans.
      + eapply respects_run; [apply scan_files_appends|done].
      + eapply respects_run; [apply scan_end_appends|done]. }
  exists added. rewrite Hc. rewrite Hl1 in Hadd |- *. done.
Qed.

Lemma NoDup_fmap_eq {A B} (f : A → B) (l : list A) x y :
  NoDup (f <$> l) → x ∈ l → y ∈ l → f x = f y → x = y.
Proof.
  induction l as [|a l IH]; simpl; intros Hnd Hx Hy Hf.
  { by apply elem_of_nil in Hx. }
  apply NoDup_cons in Hnd as [Hn Hnd].
  apply elem_of_cons in Hx as [->|Hx]; apply elem_of_cons in Hy as [->|Hy].
  - done.
  - destruct Hn. rewrite Hf. apply list_elem_of_fmap. eauto.
  - destruct Hn. rewrite <- Hf. apply list_elem_of_fmap. eauto.
  - by apply IH.
Qed.

(** With one row per path and per id, [to_remove] holds the id of a row
    exactly when the row is not on disk as stored. *)
Lemma to_remove_spec w dirs s fl tr s0 r :
  catalog_wf (library s) →
  createAddRemoveLists w dirs s = (Ok (fl, tr), s0) →
  r ∈ comics (library s) →
  comic_id r ∈ tr ↔ ¬ on_disk w dirs (rec_path r) (rec_mod_ts r).
Proof.
  intros (Hpaths & Hids & _) E0 Hr.
  apply createAddRemoveLists_spec in E0 as [_ Htr]. rewrite Htr.
  assert (NoDup (Library.getComicPaths (library s)).*1.*2) as Hnd.
  { unfold Library.getComicPaths. rewrite <- !list_fmap_compose.
    exact Hpaths. }
  assert (∀ r', r' ∈ comics (library s) →
            (index_rows (Library.getComicPaths (library s))).2 !! rec_path r'
            = Some (comic_id r')) as Hix.
  { intros r' Hr'. rewrite index_rows_fold.
    eapply index_step_ix_row; [done|]. apply getComicPaths_elem. eauto. }
  split.
  - intros (p & t & (r' & Hr' & <- & <-) & Hnot & Hlook).
    rewrite (Hix _ Hr') in Hlook. injection Hlook as Hid.
    assert (r' = r) as ->; [|done].
    eapply (NoDup_fmap_eq comic_id); [exact Hids|done..].
  - intros Hnot. exists (rec_path r), (rec_mod_ts r).
    split_and!; [by exists r|done|by apply Hix].
Qed.

(** C2.  After a full scan that returned, a record that was stored is gone
    from the catalog if and only if its path is no longer on disk, or lies
    under none of the watched roots, or has on disk a modification time
    other than the stored one; every other stored record is still there,
    as it was.  The catalog is taken with one row per path and per id. *)
Theorem removal_is_set_difference w dirs s exit s' r :
  catalog_wf (library s) →
  dofullScan w dirs s = (Ok exit, s') →
  r ∈ comics (library s) →
  r ∉ comics (library s')
  ↔ disk w !! rec_path r = None
    ∨ Forall (λ root, ¬ inside w root (rec_path r)) dirs
    ∨ ∃ t, disk w !! rec_path r = Some t ∧ t ≠ rec_mod_ts r.
Proof.
  intros Hwf E Hr.
  assert (∃ fl tr s0, createAddRemoveLists w dirs s = (Ok (fl, tr), s0))
    as (fl & tr & s0 & E0).
  { pose proof E as E'.
    apply dofullScan_inv in E' as [(e & ? & _)|(fl' & s1 & E1 & _)]; [done|].
    revert E1. unfold scan_begin, setStatusDetail, logging_info, logging_debug, logging.
    mstep.
    match goal with |- context [(createAddRemoveLists w dirs ≫= _) ?s5] =>
      destruct (createAddRemoveLists w dirs s5) as [r5 s6] eqn:E5;
      rewrite run_bind, E5;
      destruct (createAddRemoveLists w dirs s) as [r0 s0] eqn:E0;
      pose proof (proj1 (createAddRemoveLists_run _ _ _ _ _ E0) s5 eq_refl eq_refl)
        as E6; rewrite E5 in E6; simpl in E6; subst r5
    end.
    destruct r0 as [[fl tr]|e]; [eauto|done]. }
  destruct (dofullScan_library _ _ _ _ _ _ _ _ E0 E) as (added & Hc & Hadd).
  pose proof (to_remove_spec _ _ _ _ _ _ _ Hwf E0 Hr) as Htr.
  assert (r ∈ comics (library s') ↔ comic_id r ∉ tr) as ->.
  { rewrite Hc, elem_of_app. unfold Library.deleteComics. simpl.
    rewrite list_elem_of_filter. split.
    - intros [[? _]|Hin]; [done|].
      destruct Hwf as (_ & _ & Hlt).
      eapply Forall_forall in Hadd; [|done].
      eapply Forall_forall in Hlt; [|done]. lia.
    - intros ?. by left. }
  rewrite Htr. unfold on_disk. split.
  - intros Hnnn.
    assert (¬ (disk w !! rec_path r = Some (rec_mod_ts r)
               ∧ ∃ root, root ∈ dirs ∧ inside w root (rec_path r))) as Hnot.
    { intros H. apply Hnnn. intros H'. by apply H'. }
    destruct (disk w !! rec_path r) as [t|] eqn:Hd; [|by left].
    destruct (decide (t = rec_mod_ts r)) as [->|Hne]; [|right; right; eauto].
    right; left. apply Forall_forall. intros root Hroot Hin.
    apply Hnot. eauto.
  - intros Hcases Hnn. apply Hnn. intros [Hd (root & Hroot & Hin)].
    destruct Hcases as [Hnone|[Hout|(t & Ht & Hne)]].
    + congruence.
    + eapply Forall_forall in Hout; done.
    + congruence.
Qed.

(** ** A second scan finds nothing to do *)

Lemma extract_md w f md :
  extract w f = Ok (Some md) →
  md_path md = f ∧ disk w !! f = Some (md_mod_ts md).
Proof.
  unfold extract, read_metadata, mbind, Result_bind.
  destruct (open_archive w f) as [ca|]; [|done].
  destruct (seemsToBeAComicArchive ca); [|done].
  destruct (match (if hasMetadata ca CIX then Some CIX
                   else if hasMetadata ca CBI then Some CBI else None) with
            | Some st => readMetadata ca st
            | None => Ok (metadataFromFilename ca)
            end); [|done].
  destruct (disk w !! f) as [t|]; [|done].
  destruct (getPage ca 0); [|done].
  destruct (resize w _); [|done].
  by intros [= <-].
Qed.

Lemma in_catalog_appends s s' p t :
  appends s s' → in_catalog (library s) p t → in_catalog (library s') p t.
Proof.
  intros (added & E & _) (r & Hr & ? & ?). exists r. rewrite E.
  split; [|done]. apply elem_of_app. by left.
Qed.

Lemma in_catalog_addComics mds c md :
  md ∈ mds →
  in_catalog (Library.addComics (Library.createComicFromMetadata <$> mds) c)
    (md_path md) (md_mod_ts md).
Proof.
  intros Hmd. apply list_elem_of_lookup in Hmd as [i Hi].
  exists (Library.store (next_id c) i (Library.createComicFromMetadata md)).
  split; [|done]. simpl. apply elem_of_app. right.
  apply elem_of_lookup_imap. exists i, (Library.createComicFromMetadata md).
  split; [done|]. by rewrite list_lookup_fmap, Hi.
Qed.

(** What a turn of the loop that does not return keeps: each metadata
    object that was buffered or that the file yields is afterwards in the
    buffer or in the catalog, unless the stop flag is up. *)
Lemma scan_file_keeps_all w total f s r1 s1 :
  scan_file w total f s = (r1, s1) → r1 ≠ Ok true →
  quit s1 = true
  ∨ ∀ md, md ∈ md_list s ∨ extract w f = Ok (Some md) →
          md ∈ md_list s1 ∨ in_catalog (library s1) (md_path md) (md_mod_ts md).
Proof.
  intros E Hr. apply scan_file_spec in E as (_ & l & _ & Hcases).
  destruct Hcases as [(e & He & _ & _ & _ & Hm & _)|(omd & He & Hcases)].
  { right. intros md [?|Hf]; [left; by rewrite Hm|congruence]. }
  assert (∀ md, md ∈ md_list s ∨ extract w f = Ok (Some md) →
                md ∈ md_list s ++ option_list omd) as Hbuf.
  { intros md [?|Hf]; apply elem_of_app; [by left|right].
    rewrite He in Hf. injection Hf as ->. by left. }
  cbn zeta in Hcases.
  destruct Hcases as [(_ & -> & _)|[(_ & _ & _ & _ & _ & Hm & _)
                                   |(_ & _ & _ & _ & Hcases)]]; [done|..].
  - right. intros md Hmd. left. rewrite Hm. by apply Hbuf.
  - destruct Hcases as [(_ & _ & Hl & _)|[(_ & _ & Hq & _)
                                         |(e & t & _ & _ & Hm & _)]].
    + right. intros md Hmd. right. rewrite Hl.
      by apply in_catalog_addComics, Hbuf.
    + by left.
    + right. intros md Hmd. left. rewrite Hm. by apply Hbuf.
Qed.

Lemma scan_files_keeps_all w total fl s s' :
  scan_files w total fl s = (Ok false, s') →
  quit s' = true
  ∨ ∀ md, md ∈ md_list s ∨ (∃ f, f ∈ fl ∧ extract w f = Ok (Some md)) →
          md ∈ md_list s' ∨ in_catalog (library s') (md_path md) (md_mod_ts md).
Proof.
  revert s. induction fl as [|f fl IH]; intros s; simpl.
  { mrun. intros [= <-]. right. intros md [?|(f & ?%elem_of_nil & _)]; by left. }
  mrun. destruct (scan_file w total f s) as [r1 s1] eqn:E1.
  assert (∀ s1', quit s1' = quit s1 → md_list s1' = md_list s1 →
            library s1' = library s1 → r1 ≠ Ok true →
            scan_files w total fl s1' = (Ok false, s') →
            quit s' = true
            ∨ ∀ md, md ∈ md_list s ∨ (∃ f0, f0 ∈ f :: fl ∧ extract w f0 = Ok (Some md)) →
                md ∈ md_list s'
                ∨ in_catalog (library s') (md_path md) (md_mod_ts md)) as Hgo.
  { intros s1' Hq Hm Hl Hr E.
    pose proof E as Hstop. frame_in Hstop stays_stopped.
    pose proof E as Happ.
    assert (appends s1' s') as Happ' by
      (eapply respects_run; [apply scan_files_appends|done]).
    destruct (scan_file_keeps_all _ _ _ _ _ _ E1 Hr) as [Hq1|Hkeep].
    { left. apply Hstop. congruence. }
    destruct (IH _ E) as [?|Hrest]; [by left|]. right.
    intros md [Hmd|(f0 & [->|Hf0]%elem_of_cons & Hex)].
    - destruct (Hkeep md (or_introl Hmd)) as [?|Hcat].
      + apply Hrest. left. congruence.
      + right. eapply in_catalog_appends; [done|]. by rewrite Hl.
    - destruct (Hkeep md (or_intror Hex)) as [?|Hcat].
      + apply Hrest. left. congruence.
      + right. eapply in_catalog_appends; [done|]. by rewrite Hl.
    - apply Hrest. right. eauto. }
  destruct r1 as [[]|e]; mrun.
  - done.
  - by apply Hgo.
  - unfold logging_error, logging_exception, logging. mrun. by apply Hgo.
Qed.

Section OnDisk.

Context (w : World) (dirs : list Path).

Lemma all_on_disk_addComics (mds : list Metadata) (c : Catalog) :
  Forall (λ md, on_disk w dirs (md_path md) (md_mod_ts md)) mds →
  Forall (λ r, on_disk w dirs (rec_path r) (rec_mod_ts r)) (comics c) →
  Forall (λ r, on_disk w dirs (rec_path r) (rec_mod_ts r))
    (comics (Library.addComics (Library.createComicFromMetadata <$> mds) c)).
Proof.
  intros Hmds Hc. simpl. apply Forall_app. split; [done|].
  apply Forall_forall. intros r Hr.
  apply elem_of_lookup_imap in Hr as (i & cm & -> & Hi).
  rewrite list_lookup_fmap in Hi.
  destruct (mds !! i) as [md|] eqn:Hmd; [|done]. injection Hi as <-.
  simpl. by eapply Forall_lookup_1 in Hmds.
Qed.

Lemma scan_files_on_disk total fl s r s' :
  Forall (λ f, ∃ t, on_disk w dirs f t) fl →
  all_on_disk w dirs s →
  scan_files w total fl s = (r, s') →
  all_on_disk w dirs s'.
Proof.
  intros Hfl. revert s. induction Hfl as [|f fl [t Hf] _ IH]; intros s Hs; simpl.
  { mrun. by intros [= _ <-]. }
  mrun. destruct (scan_file w total f s) as [r1 s1] eqn:E1.
  assert (all_on_disk w dirs s1) as Hs1.
  { apply scan_file_spec in E1 as (_ & l & _ & Hcases).
    destruct Hs as [Hmds Hrecs].
    destruct Hcases as [(e & _ & _ & _ & Hl & Hm & _)|(omd & He & Hcases)].
    { split; by rewrite ?Hl, ?Hm. }
    assert (Forall (λ md, on_disk w dirs (md_path md) (md_mod_ts md))
              (md_list s ++ option_list omd)) as Hbuf.
    { apply Forall_app. split; [done|]. destruct omd as [md|]; [|done].
      apply extract_md in He as [Hp Hd]. constructor; [|constructor].
      destruct Hf as [Hd' ?]. unfold on_disk. rewrite Hp. by split. }
    cbn zeta in Hcases.
    destruct Hcases as [(_ & _ & _ & Hl & Hm & _)
                       |[(_ & _ & _ & _ & Hl & Hm & _)
                        |(_ & _ & _ & _ & Hcases)]].
    1,2: split; by rewrite ?Hl, ?Hm.
    destruct Hcases as [(_ & Hm & Hl & _)|[(_ & Hm & _ & Hl & _)
                                          |(e & t' & _ & _ & Hm & Hl & _)]].
    - split; [by rewrite Hm|]. rewrite Hl. by apply all_on_disk_addComics.
    - split; by rewrite ?Hl, ?Hm.
    - split; by rewrite ?Hl, ?Hm. }
  destruct r1 as [[]|e]; mrun.
  - by intros [= _ <-].
  - by apply IH.
  - unfold logging_error, logging_exception, logging. mrun. by apply IH.
Qed.

Lemma scan_end_on_disk total s r s' :
  all_on_disk w dirs s → scan_end w total s = (r, s') →
  Forall (λ r, on_disk w dirs (rec_path r) (rec_mod_ts r)) (comics (library s')).
Proof.
  intros [Hmds Hrecs] E.
  apply scan_end_spec in E as [(_ & _ & _ & Hl)|(_ & l & _ & Hcases)].
  { by rewrite Hl. }
  destruct Hcases as [(_ & Hl & _)|[(_ & _ & Hl & _)|(e & t & _ & _ & Hl & _)]];
    rewrite Hl; [by apply all_on_disk_addComics|done..].
Qed.

End OnDisk.

(** With nothing good left to add, or with the stop flag up, the loop makes
    no call on the library and leaves the catalog alone. *)
Lemma scan_files_idle w total fl s r s' :
  quit s = true ∨ Forall (λ f, ∀ md, extract w f ≠ Ok (Some md)) fl →
  md_list s = [] →
  scan_files w total fl s = (r, s') →
  (r = Ok false → md_list s' = [])
  ∧ library s' = library s
  ∧ ∃ l, calls s' = calls s ++ l ∧ Forall reads_only l.
Proof.
  revert s. induction fl as [|f fl IH]; intros s Hidle Hm; simpl.
  { mrun. intros [= <- <-]. split_and!; try done. exists []. by rewrite app_nil_r. }
  mrun. destruct (scan_file w total f s) as [r1 s1] eqn:E1.
  pose proof E1 as Hstop. frame_in Hstop stays_stopped.
  apply scan_file_spec in E1 as (_ & l1 & Hc1 & Hcases).
  assert (quit s1 = true ∨ Forall (λ f, ∀ md, extract w f ≠ Ok (Some md)) fl)
    as Hidle1.
  { destruct Hidle as [Hq|Hfl]; [left; by apply Hstop|right].
    by apply Forall_cons in Hfl as [_ ?]. }
  assert (∀ s1', md_list s1' = [] → library s1' = library s →
            calls s1' = calls s ++ [OpenArchive f] →
            (quit s1' = true ∨ Forall (λ f, ∀ md, extract w f ≠ Ok (Some md)) fl) →
            scan_files w total fl s1' = (r, s') →
            (r = Ok false → md_list s' = [])
            ∧ library s' = library s
            ∧ ∃ l, calls s' = calls s ++ l ∧ Forall reads_only l) as Hgo.
  { intros s1' Hm1 Hl1 Hc1' Hi1 E. apply IH in E as (Hm' & Hl' & l & Hc' & Hro);
      [|done..].
    split_and!; [done|congruence|]. exists (OpenArchive f :: l).
    split; [by rewrite Hc', Hc1', <- app_assoc|by constructor]. }
  destruct Hcases as [(e & _ & -> & -> & Hl & Hm1 & _)|(omd & He & Hcases)].
  { unfold logging_error, logging_exception, logging. mrun.
    apply Hgo; try done; fields; congruence. }
  cbn zeta in Hcases. rewrite Hm in Hcases. simpl in Hcases.
  destruct Hcases as [(_ & -> & -> & Hl & _)
                     |[(Hq & _ & -> & -> & Hl & Hm1 & Hq1)
                      |(Hq & _ & _ & Hb & _)]].
  - mrun. intros [= <- <-]. split_and!; [done..|].
    exists [OpenArchive f]. split; [done|by repeat constructor].
  - assert (omd = None) as ->.
    { destruct omd as [md|]; [|done]. destruct Hidle as [Hqs|Hfl].
      - rewrite Hqs in Hq. done.
      - apply Forall_cons in Hfl as [Hf _]. by destruct (Hf md). }
    by apply Hgo.
  - destruct omd as [md|]; [|done]. destruct Hidle as [Hqs|Hfl].
    + rewrite Hqs in Hq. done.
    + apply Forall_cons in Hfl as [Hf _]. by destruct (Hf md).
Qed.

(** ** The catalog after a completed scan *)

Lemma on_disk_stable w dirs p t : ¬ ¬ on_disk w dirs p t → on_disk w dirs p t.
Proof.
  intros H. unfold on_disk in *.
  destruct (decide (disk w !! p = Some t)) as [Hd|Hd];
    [|by destruct H; intros [? _]].
  destruct (decide (Exists (λ root, inside w root p) dirs)) as [He|He].
  - split; [done|]. by apply Exists_exists in He.
  - destruct H. intros [_ Hex]. by apply He, Exists_exists.
Qed.

Lemma in_catalog_stable c p t : ¬ ¬ in_catalog c p t → in_catalog c p t.
Proof.
  intros H. unfold in_catalog in *.
  destruct (decide (Exists (λ r, rec_path r = p ∧ rec_mod_ts r = t) (comics c)))
    as [He|He].
  - by apply Exists_exists in He.
  - destruct H. intros Hex. by apply He, Exists_exists.
Qed.

Lemma in_catalog_addComics_old cs c p t :
  in_catalog c p t → in_catalog (Library.addComics cs c) p t.
Proof.
  intros (r & Hr & ? & ?). exists r. split; [|done]. simpl.
  apply elem_of_app. by left.
Qed.

(** With one row per path and per id, the bulk delete keeps exactly the
    rows that are on disk as stored. *)
Lemma deleteComics_kept w dirs s fl tr s0 r :
  catalog_wf (library s) →
  createAddRemoveLists w dirs s = (Ok (fl, tr), s0) →
  r ∈ comics (Library.deleteComics tr (library s))
  ↔ r ∈ comics (library s) ∧ on_disk w dirs (rec_path r) (rec_mod_ts r).
Proof.
  intros Hwf E0. unfold Library.deleteComics. simpl. rewrite list_elem_of_filter.
  split.
  - intros [Hid Hr]. split; [done|]. apply on_disk_stable. intros Hn.
    apply Hid. by eapply to_remove_spec.
  - intros [Hr Hd]. split; [|done]. intros Hid.
    eapply to_remove_spec in Hid; done.
Qed.

(** [createAddRemoveLists] only queries the catalog. *)
Lemma createAddRemoveLists_reads w dirs s r s' :
  createAddRemoveLists w dirs s = (r, s') →
  library s' = library s ∧ ∃ l, calls s' = calls s ++ l ∧ Forall reads_only l.
Proof.
  unfold createAddRemoveLists. mrun.
  destruct (collect_current_pure w (get_recursive_filelist w dirs) ∅ s)
    as [E1 _].
  destruct (collect_current w _ ∅ s) as [r1 s1]. simpl in E1. subst s1.
  destruct r1 as [cur|e]; mrun.
  2: { intros [= _ <-]. split; [done|]. exists []. by rewrite app_nil_r. }
  unfold logging_info, logging, library_getComicPaths, library_call.
  mrun. fields.
  destruct (fault_at w (clock s)); mrun.
  { intros [= _ <-]. fields. split; [done|]. exists [GetComicPaths].
    split; [done|]. by repeat constructor. }
  destruct (index_rows _) as [db_set ix]. mrun.
  destruct (lookup_ids _ _); mrun; intros [= _ <-]; fields;
    (split; [done|]); exists [GetComicPaths];
    (split; [done|]); by repeat constructor.
Qed.

Lemma collect_current_stays_stopped w fl cur :
  respects stays_stopped (collect_current w fl cur).
Proof. revert cur. induction fl as [|p fl IH]; intros cur; simpl; frame. Qed.
Global Hint Resolve collect_current_stays_stopped : frame.

Lemma scan_begin_stays_stopped w dirs : respects stays_stopped (scan_begin w dirs).
Proof. frame. Qed.

(** Either the two lists are there, or [scan_begin] raises what
    [createAddRemoveLists] raised, with the catalog as it was. *)
Lemma scan_begin_lists w dirs s r s' :
  scan_begin w dirs s = (r, s') →
  (∃ fl tr s0, createAddRemoveLists w dirs s = (Ok (fl, tr), s0))
  ∨ (∃ e, r = Raise e ∧ library s' = library s
          ∧ ∃ l, calls s' = calls s ++ l ∧ Forall reads_only l).
Proof.
  unfold scan_begin, setStatusDetail, logging_info, logging_debug, logging.
  mstep.
  match goal with |- context [(createAddRemoveLists w dirs ≫= _) ?s5] =>
    destruct (createAddRemoveLists w dirs s5) as [r5 s6] eqn:E5;
    rewrite run_bind, E5;
    destruct (createAddRemoveLists w dirs s) as [r0 s0] eqn:E0;
    pose proof (proj1 (createAddRemoveLists_run _ _ _ _ _ E0) s5 eq_refl eq_refl)
      as E6; rewrite E5 in E6; simpl in E6; subst r5
  end.
  destruct r0 as [[fl tr]|e]; [eauto 10|].
  apply createAddRemoveLists_reads in E5 as (Hl & l & Hc & Hro).
  revert Hl Hc. fields. intros Hl Hc.
  intros [= <- <-]. right. exists e. split_and!; [done..|]. by exists l.
Qed.

Lemma completed_scan_catalog w dirs s s1 :
  catalog_wf (library s) →
  dofullScan w dirs s = (Ok Completed, s1) →
  Forall (λ r, on_disk w dirs (rec_path r) (rec_mod_ts r)) (comics (library s1))
  ∧ (quit s1 = true
     ∨ ∀ p t md, on_disk w dirs p t → extract w p = Ok (Some md) →
                 in_catalog (library s1) p t).
Proof.
  intros Hwf E.
  apply dofullScan_inv in E as [(e & ? & _)|(fl & sb & Eb & E)]; [done|].
  destruct E as [(e & ? & _)|[(? & _)|(s2 & E2 & [(e & ? & _)|(_ & E3)])]];
    try done.
  destruct (scan_begin_lists _ _ _ _ _ Eb) as [(fl' & tr & s0 & E0)|(e & ? & _)];
    [|done].
  destruct (scan_begin_spec _ _ _ _ _ _ _ _ E0 Eb)
    as [_ [([= <-] & Hmb & _ & Hlb)|(? & ? & ? & _)]]; [|done].
  pose proof (createAddRemoveLists_spec _ _ _ _ _ _ E0) as [Hfl _].
  assert (all_on_disk w dirs sb) as Hsb.
  { split; [by rewrite Hmb|]. rewrite Hlb. apply Forall_forall. intros r Hr.
    by eapply deleteComics_kept in Hr as [_ ?]. }
  assert (all_on_disk w dirs s2) as Hs2.
  { eapply scan_files_on_disk; [|exact Hsb|exact E2].
    apply Forall_forall. intros f Hf. apply Hfl in Hf as (t & ? & _). eauto. }
  split; [by eapply scan_end_on_disk|].
  pose proof E3 as Hstop. frame_in Hstop stays_stopped.
  destruct (scan_files_keeps_all _ _ _ _ _ E2) as [Hq|Hkeep]; [left; auto|].
  assert (appends sb s2) as Happ2
    by (eapply respects_run; [apply scan_files_appends|done]).
  assert (appends s2 s1) as Happ3
    by (eapply respects_run; [apply scan_end_appends|done]).
  assert (quit s1 = true
          ∨ ∀ md, md ∈ md_list s2
                  ∨ in_catalog (library s2) (md_path md) (md_mod_ts md) →
                  in_catalog (library s1) (md_path md) (md_mod_ts md)) as Hend.
  { apply scan_end_spec in E3 as [(Hm & _ & _ & Hl)|(_ & l & _ & Hcases)].
    - right. intros md [Hmd|?]; [|by rewrite Hl].
      rewrite Hm in Hmd. by apply elem_of_nil in Hmd.
    - destruct Hcases as [(_ & Hl & _)|[(_ & ? & _)|(e & t & ? & _)]];
        [|by left|done].
      right. intros md [Hmd|?]; rewrite Hl;
        [by apply in_catalog_addComics|by apply in_catalog_addComics_old]. }
  destruct Hend as [?|Hend]; [by left|]. right.
  intros p t md Hd Hex.
  pose proof (extract_md _ _ _ Hex) as [Hp Ht].
  assert (t = md_mod_ts md) as ->.
  { destruct Hd as [Hd _]. rewrite Ht in Hd. by injection Hd. }
  destruct (decide (p ∈ fl)) as [Hin|Hout].
  - rewrite <- Hp. apply Hend, Hkeep. right. eauto.
  - assert (in_catalog (library s) p (md_mod_ts md)) as (r & Hr & Hrp & Hrt).
    { apply in_catalog_stable. intros Hn. apply Hout, Hfl. eauto. }
    exists r. split; [|done].
    assert (r ∈ comics (library sb)) as Hrb.
    { rewrite Hlb. eapply deleteComics_kept; [done..|].
      split; [done|]. by rewrite Hrp, Hrt. }
    destruct Happ2 as (a2 & Ha2 & _). destruct Happ3 as (a3 & Ha3 & _).
    rewrite Ha3, Ha2, !elem_of_app. by left; left.
Qed.

(** C3.  A full scan that follows a completed one on the same disk asks
    nothing of the catalog but its rows: apart from the query and the
    opening of the files that are still not in the catalog, it makes no call
    at all, so no insert and no delete, and it leaves the catalog as the
    first scan left it.  The catalog the first scan started from is taken
    with one row per path and per id. *)
Theorem second_scan_is_idle w dirs s s1 :
  catalog_wf (library s) →
  dofullScan w dirs s = (Ok Completed, s1) →
  library (dofullScan w dirs s1).2 = library s1
  ∧ ∃ l, calls (dofullScan w dirs s1).2 = calls s1 ++ l ∧ Forall reads_only l.
Proof.
  intros Hwf E1.
  destruct (completed_scan_catalog _ _ _ _ Hwf E1) as [Hrows Hgood].
  destruct (dofullScan w dirs s1) as [r s'] eqn:E. simpl.
  apply dofullScan_inv in E as [(e & _ & Eb)|(fl & sb & Eb & E)].
  - destruct (scan_begin_lists _ _ _ _ _ Eb)
      as [(fl & tr & s0 & E0)|(e' & _ & ? & ?)]; [|done].
    pose proof (createAddRemoveLists_spec _ _ _ _ _ _ E0) as [_ Htr].
    assert (tr = []) as ->.
    { destruct tr as [|i tr]; [done|]. exfalso.
      destruct (proj1 (Htr i)) as (p & t & (r0 & Hr0 & <- & <-) & Hn & _);
        [by left|].
      eapply Forall_forall in Hrows; done. }
    destruct (scan_begin_spec _ _ _ _ _ _ _ _ E0 Eb)
      as [Hc [(? & _)|(? & ? & _ & _ & Hl)]]; [done|].
    split; [done|]. exists [GetComicPaths]. split; [done|]. by repeat constructor.
  - destruct (scan_begin_lists _ _ _ _ _ Eb)
      as [(fl' & tr & s0 & E0)|(e' & ? & _)]; [|done].
    pose proof (createAddRemoveLists_spec _ _ _ _ _ _ E0) as [Hfl Htr].
    assert (tr = []) as ->.
    { destruct tr as [|i tr]; [done|]. exfalso.
      destruct (proj1 (Htr i)) as (p & t & (r0 & Hr0 & <- & <-) & Hn & _);
        [by left|].
      eapply Forall_forall in Hrows; done. }
    pose proof (respects_run _ _ _ _ _ (scan_begin_stays_stopped w dirs) Eb)
      as Hstop.
    destruct (scan_begin_spec _ _ _ _ _ _ _ _ E0 Eb)
      as [Hcb [([= <-] & Hmb & _ & Hlb)|(? & ? & ? & _)]]; [|done].
    rewrite deleteComics_nil in Hlb. simpl in Hcb.
    assert (quit sb = true
            ∨ Forall (λ f, ∀ md, extract w f ≠ Ok (Some md)) fl) as Hidle.
    { destruct Hgood as [Hq|Hgood]; [left; auto|right].
      apply Forall_forall. intros f Hf md Hex.
      apply Hfl in Hf as (t & Hd & Hn). apply Hn. by eapply Hgood. }
    assert (∀ r2 s2, scan_files w (length fl) fl sb = (r2, s2) →
              (r2 = Ok false → md_list s2 = [])
              ∧ library s2 = library s1
              ∧ ∃ l, calls s2 = calls s1 ++ l ∧ Forall reads_only l) as Hloop.
    { intros r2 s2 E2.
      apply scan_files_idle in E2 as (Hm2 & Hl2 & l & Hc2 & Hro); [|done..].
      split_and!; [done|congruence|]. exists (GetComicPaths :: l).
      split; [by rewrite Hc2, Hcb, <- app_assoc|by constructor]. }
    destruct E as [(e & _ & E2)|[(_ & E2)|(s2 & E2 & E)]].
    1,2: by apply Hloop in E2 as (_ & ? & ?).
    apply Hloop in E2 as (Hm2 & Hl2 & l & Hc2 & Hro).
    assert (calls s' = calls s2 ∧ library s' = library s2) as [Hc' Hl'].
    { destruct E as [(e & _ & E3)|(_ & E3)];
        apply scan_end_spec in E3 as [(_ & _ & ? & ?)|(Hne & _)]; try done;
        by destruct Hne; apply Hm2. }
    split; [congruence|]. exists l. by rewrite Hc', Hc2.
Qed.

Lemma second_scan_is_idle_witness :
  let w := shelf 3 [] None no_fault in
  let s1 := (dofullScan w ["/c"] stale).2 in
  library (dofullScan w ["/c"] s1).2 = library s1
  ∧ ∃ l, calls (dofullScan w ["/c"] s1).2 = calls s1 ++ l ∧ Forall reads_only l.
Proof.
  intros w s1. apply (second_scan_is_idle w ["/c"] stale s1).
  - split_and!.
    + apply (bool_decide_unpack _). vm_compute. exact I.
    + apply (bool_decide_unpack _). vm_compute. exact I.
    + repeat (constructor; [simpl; lia|]). constructor.
  - vm_compute. reflexivity.
Defined.

Lemma removal_is_set_difference_witness :
  let w := shelf 3 [] None no_fault in
  let gone := {| comic_id := 3; rec_path := "/c/gone.cbz"; rec_mod_ts := 7%Z |} in
  gone ∈ comics (library stale)
  ∧ gone ∉ comics (library (dofullScan w ["/c"] stale).2).
Proof.
  intros w gone.
  assert (gone ∈ comics (library stale)) as Hin
    by (apply (bool_decide_unpack _); vm_compute; exact I).
  split; [exact Hin|].
  apply (removal_is_set_difference w ["/c"] stale Completed
           (dofullScan w ["/c"] stale).2 gone).
  - split_and!.
    + apply (bool_decide_unpack _). vm_compute. exact I.
    + apply (bool_decide_unpack _). vm_compute. exact I.
    + repeat (constructor; [simpl; lia|]). constructor.
  - vm_compute. reflexivity.
  - exact Hin.
  - left. vm_compute. reflexivity.
Defined.

(** ** What does hold of batches and of cancellation *)

(** In a scan where the extraction raises on no file under the roots and no
    library call fails, every bulk insert carries at most ten comics. *)
Theorem batches_within_ten w dirs s :
  (∀ t, fault_at w t = false) →
  (∀ f t, on_disk w dirs f t → ∃ omd, extract w f = Ok omd) →
  ∃ l, calls (dofullScan w dirs s).2 = calls s ++ l
     ∧ Forall (λ n, n ≤ 10) (omap insert_size l).
Proof.
  intros Hfault Hex.
  destruct (dofullScan w dirs s) as [r s'] eqn:E. simpl.
  assert (∀ r1 s1, scan_begin w dirs s = (r1, s1) →
                   ∃ l, calls s1 = calls s ++ l ∧ omap insert_size l = [])
    as Hbegin.
  { intros r1 s1 E1. frame_in E1 (emits (λ c, insert_size c = None)).
    destruct E1 as (l & Hc & Hl). exists l. split; [done|].
    clear Hc. induction Hl as [|c l Hc _ IH]; [done|].
    by rewrite omap_insert_size_other. }
  apply dofullScan_inv in E as [(e & -> & E1)|(fl & s1 & E1 & E)].
  { apply Hbegin in E1 as (l & Hc & Hl). exists l. by rewrite Hl. }
  assert (md_list s1 = [] ∧ read_count s1 = 0
          ∧ Forall (λ f, ∃ omd, extract w f = Ok omd) fl) as (Hm1 & Hr1 & Hfl).
  { destruct (scan_begin_lists _ _ _ _ _ E1) as [(fl' & tr & s0 & E0)|(e & ? & _)];
      [|done].
    destruct (scan_begin_spec _ _ _ _ _ _ _ _ E0 E1)
      as [_ [([= <-] & ? & ? & _)|(? & ? & ? & _)]]; [|done].
    split_and!; [done..|]. apply Forall_forall. intros f Hf.
    apply (createAddRemoveLists_spec _ _ _ _ _ _ E0) in Hf as (t & Hd & _).
    by eapply Hex. }
  apply Hbegin in E1 as (l1 & Hc1 & Hl1).
  assert (∀ r2 s2, scan_files w (length fl) fl s1 = (r2, s2) →
            (r2 = Ok false → length (md_list s2) ≤ read_count s2 `mod` 10)
            ∧ ∃ l, calls s2 = calls s ++ l
                ∧ Forall (λ n, n ≤ 10) (omap insert_size l)) as Hloop.
  { intros r2 s2 E2. eapply scan_files_batches in E2 as (Hinv & l & Hc & Hl);
      [|done|done|by rewrite Hm1, Hr1].
    split; [done|]. exists (l1 ++ l).
    rewrite Hc, Hc1, <- app_assoc, omap_app, Hl1. done. }
  destruct E as [(e & -> & E2)|[(-> & E2)|(s2 & E2 & E3)]].
  1,2: by apply Hloop in E2 as (_ & ?).
  apply Hloop in E2 as (Hinv & l2 & Hc2 & Hl2). specialize (Hinv eq_refl).
  pose proof (Nat.mod_upper_bound (read_count s2) 10 ltac:(lia)) as Hlt.
  assert (∀ r3, scan_end w (length fl) s2 = (r3, s') →
            ∃ l, calls s' = calls s ++ l
               ∧ Forall (λ n, n ≤ 10) (omap insert_size l)) as Hend.
  { intros r3 E. apply scan_end_spec in E as [(_ & _ & Hc & _)|(_ & l & Hc & Hcases)].
    { exists l2. by rewrite Hc, Hc2. }
    exists (l2 ++ l). rewrite Hc, Hc2, <- app_assoc, omap_app.
    split; [done|]. apply Forall_app. split; [done|].
    destruct Hcases as [(_ & _ & ->)|[(_ & _ & _ & -> & _)
                                     |(e & t & _ & Ht & _)]].
    - constructor; [lia|done].
    - done.
    - by rewrite Hfault in Ht. }
  destruct E3 as [(e & -> & E3)|(-> & E3)]; by eapply Hend.
Qed.

(** On a shelf with no corrupt file, every file on disk is read without an
    exception. *)
Lemma shelf_extract n stop fault f t :
  disk (shelf n [] stop fault) !! f = Some t →
  ∃ omd, extract (shelf n [] stop fault) f = Ok omd.
Proof.
  intros Hd. unfold extract, read_metadata, getmtime, mbind, Result_bind.
  change (open_archive (shelf n [] stop fault) f)
    with (if decide (f ∈ @nil Path) then Ok corrupt else Ok plain).
  rewrite decide_False by apply not_elem_of_nil.
  cbn [seemsToBeAComicArchive plain hasMetadata metadataFromFilename getPage].
  rewrite Hd. cbn [resize shelf]. eauto.
Qed.

Lemma batches_within_ten_witness :
  ∃ l, calls (dofullScan (shelf 25 [] None no_fault) ["/c"] start).2
       = calls start ++ l
     ∧ Forall (λ n, n ≤ 10) (omap insert_size l).
Proof.
  apply (batches_within_ten (shelf 25 [] None no_fault) ["/c"] start).
  - intros t. reflexivity.
  - intros f t [Hd _]. by eapply shelf_extract.
Defined.

Lemma stop_flag_halts_scan_witness :
  let w := shelf 3 [] (Some 2) no_fault in
  (dofullScan w ["/c"] start).1 = Ok Halted
  ∧ statusdetail (dofullScan w ["/c"] start).2 = "Monitor: halting scan!".
Proof.
  intros w.
  pose (s0 := (scan_begin w ["/c"] start).2).
  pose (s1 := (scan_files w 3 ["/c/1.cbz"] s0).2).
  pose (r2 := getComicMetadata w "/c/2.cbz" s1).
  assert (∃ omd, r2.1 = Ok omd) as [omd Homd]
    by (eexists; vm_compute; reflexivity).
  destruct (stop_flag_halts_scan w ["/c"] start
              ["/c/1.cbz"; "/c/2.cbz"; "/c/0.cbz"] ["/c/1.cbz"] "/c/2.cbz"
              ["/c/0.cbz"] s0 s1 omd r2.2) as (H1 & _ & _ & H2).
  - vm_compute. reflexivity.
  - reflexivity.
  - vm_compute. reflexivity.
  - rewrite <- Homd. by destruct (getComicMetadata w "/c/2.cbz" s1).
  - vm_compute. reflexivity.
  - by split.
Defined.

Lemma stopped_scan_inserts_nothing_witness :
  let w := shelf 3 [] None no_fault in
  let s := set_quit true start in
  library (scan_files w 3 (names 3) s).2 = library s
  ∧ library (scan_end w 3 s).2 = library s.
Proof.
  intros w s. apply (stopped_scan_inserts_nothing w 3 (names 3) s). reflexivity.
Defined.

(** * More of the monitor *)

(** ** The worker thread *)

Lemma dofullScan_stays_stopped w dirs : respects stays_stopped (dofullScan w dirs).
Proof. frame. Qed.

Lemma _loop_total w s : (_loop w s).1 = Ok tt.
Proof.
  unfold _loop, queue_get. mrun.
  destruct (queue s) as [|[|args] q]; mrun; [done| |done].
  fields. by destruct (dofullScan w (paths s) (set_queue q s)) as [[ex|e] s1].
Qed.

Lemma _loop_stays_stopped w : respects stays_stopped (_loop w).
Proof.
  intros s. unfold stays_stopped, _loop, queue_get. mrun.
  destruct (queue s) as [|[|args] q]; mrun; [done| |done].
  fields. intros Hq.
  pose proof (dofullScan_stays_stopped w (paths s) (set_queue q s) Hq) as H.
  by destruct (dofullScan w (paths s) (set_queue q s)) as [[ex|e] s1].
Qed.

Lemma scan_end_quit_when_done w total s s' :
  scan_end w total s = (Ok tt, s') → quit_when_done s = true → quit s' = true.
Proof.
  unfold scan_end. mrun.
  set (c := if bool_decide _ then _ else _).
  assert (respects (keeps quit_when_done) c) as Hk by (subst c; frame).
  specialize (Hk s). destruct (c s) as [[[]|e] s1]; [|done].
  unfold setStatusDetail, logging_info, logging. mrun.
  unfold keeps in Hk. simpl in Hk. fields. rewrite Hk.
  intros E Hq. rewrite Hq in E. by injection E as <-.
Qed.

(** Whatever the scan and the library do, no exception leaves the
    dispatcher: [_loop] returns normally from every state, and so does the
    loop around it, for any number of turns. *)
Theorem worker_never_raises w n s :
  (_loop w s).1 = Ok tt ∧ (mainLoop w n s).1 = Ok tt.
Proof.
  split; [apply _loop_total|].
  revert s. induction n as [|n IH]; intros s; [done|].
  simpl. mrun. pose proof (_loop_total w s) as H.
  destruct (_loop w s) as [r s1]. simpl in H. subst r.
  destruct (quit s1); [done|apply IH].
Qed.

(** Once the stop flag is up, the worker leaves its loop after the turn in
    progress: it takes at most one more command from the queue, and the
    commands behind it stay queued. *)
Theorem mainLoop_after_stop w n s :
  quit s = true → mainLoop w (S n) s = _loop w s.
Proof.
  intros Hq. simpl. mrun.
  pose proof (_loop_total w s) as H.
  pose proof (_loop_stays_stopped w s Hq) as Hs.
  destruct (_loop w s) as [r s1]. simpl in *. subst r. by rewrite Hs.
Qed.

Lemma mainLoop_after_stop_witness :
  let w := shelf 3 [] None no_fault in
  let s := set_quit true (set_queue [CmdScan; CmdScan] start) in
  mainLoop w 5 s = _loop w s ∧ queue (mainLoop w 5 s).2 = [CmdScan].
Proof.
  intros w s. split.
  - apply (mainLoop_after_stop w 4 s). reflexivity.
  - vm_compute. reflexivity.
Defined.

(** With [quit_when_done] set, as the module's own [__main__] sets it, the
    worker ends with the first scan that runs to its end: the stop flag is
    up after it, and what is queued behind the scan is not dispatched. *)
Theorem quit_when_done_ends_worker w n s q s1 :
  quit_when_done s = true →
  queue s = CmdScan :: q →
  dofullScan w (paths s) (set_queue q s) = (Ok Completed, s1) →
  mainLoop w (S n) s = (Ok tt, s1) ∧ quit s1 = true ∧ queue s1 = q.
Proof.
  intros Hqwd Hqueue E.
  assert (quit s1 = true ∧ queue s1 = q) as [Hq1 Hq].
  { pose proof E as Eq. frame_in Eq (keeps queue). split; [|done].
    apply dofullScan_inv in E as [(e & ? & _)|(fl & sb & Eb & E)]; [done|].
    destruct E as [(e & ? & _)|[(? & _)|(s2 & E2 & [(e & ? & _)|(_ & E3)])]];
      try done.
    frame_in Eb (keeps quit_when_done). frame_in E2 (keeps quit_when_done).
    unfold keeps in *. eapply scan_end_quit_when_done; [done|].
    rewrite E2, Eb. done. }
  split; [|done]. simpl. mrun. unfold _loop, queue_get. mrun.
  rewrite Hqueue. mrun. fields. rewrite E. mrun. by rewrite Hq1.
Qed.

Lemma quit_when_done_ends_worker_witness :
  let w := shelf 3 [] None no_fault in
  let s := main_monitor ["/c"] {| comics := []; next_id := 1 |} in
  let s1 := (dofullScan w ["/c"] (set_queue [] s)).2 in
  mainLoop w 5 s = (Ok tt, s1) ∧ quit s1 = true ∧ queue s1 = [].
Proof.
  intros w s s1. apply (quit_when_done_ends_worker w 4 s [] s1).
  - reflexivity.
  - reflexivity.
  - vm_compute. reflexivity.
Defined.

(** ** The two lists, once more *)

(** How [createAddRemoveLists] gets to its two lists. *)
Lemma createAddRemoveLists_shape w dirs s fl tr s1 :
  createAddRemoveLists w dirs s = (Ok (fl, tr), s1) →
  ∃ cur db_set ix,
    (∀ p t, (p, t) ∈ cur ↔ on_disk w dirs p t)
    ∧ index_rows (Library.getComicPaths (library s)) = (db_set, ix)
    ∧ fl = (elements (cur ∖ db_set)).*1
    ∧ lookup_ids ix (elements (db_set ∖ cur)) = Ok tr.
Proof.
  unfold createAddRemoveLists. mrun.
  destruct (collect_current_spec w (get_recursive_filelist w dirs) ∅ s)
    as (cur & -> & Hcur).
  { apply Forall_forall. intros p Hp.
    by apply elem_of_get_recursive_filelist in Hp as [? _]. }
  assert (∀ p t, (p, t) ∈ cur ↔ on_disk w dirs p t) as Hcur'.
  { intros p t. rewrite Hcur, elem_of_get_recursive_filelist. unfold on_disk.
    split.
    - intros [?%elem_of_empty|[[_ ?] ?]]; done.
    - intros [Hd ?]. right. split_and!; try done. }
  unfold logging_info, logging, library_getComicPaths, library_call.
  mrun. fields.
  destruct (fault_at w (clock s)); mrun; [done|]. fields. unfold id.
  destruct (index_rows (Library.getComicPaths (library s))) as [db_set ix] eqn:Hix.
  mrun.
  destruct (lookup_ids ix (elements (db_set ∖ cur))) as [ids|] eqn:Hids; mrun;
    [|done].
  intros [= <- <- _]. by exists cur, db_set, ix.
Qed.

Lemma createAddRemoveLists_NoDup w dirs s fl tr s1 :
  createAddRemoveLists w dirs s = (Ok (fl, tr), s1) → NoDup fl.
Proof.
  intros E.
  apply createAddRemoveLists_shape in E as (cur & db_set & ix & Hcur & _ & -> & _).
  apply NoDup_fmap_2_strong; [|apply NoDup_elements].
  intros [p t] [p' t'] Hin Hin' Hp. simpl in Hp. subst p'.
  apply elem_of_elements, elem_of_difference in Hin as [Hin _].
  apply elem_of_elements, elem_of_difference in Hin' as [Hin' _].
  apply Hcur in Hin as [Hd _]. apply Hcur in Hin' as [Hd' _].
  rewrite Hd in Hd'. by injection Hd' as ->.
Qed.

(** The list of new files names each file once, also when the watched
    folders overlap and the walk meets a file more than once. *)
Theorem new_files_listed_once w dirs s fl tr s1 :
  createAddRemoveLists w dirs s = (Ok (fl, tr), s1) → NoDup fl.
Proof. apply createAddRemoveLists_NoDup. Qed.

Lemma new_files_listed_once_witness :
  let r := createAddRemoveLists (shelf 3 [] None no_fault) ["/c"; "/c"] start in
  ∃ fl, r.1 = Ok (fl, []) ∧ length fl = 3 ∧ NoDup fl.
Proof.
  intros r. eexists. split; [vm_compute; reflexivity|]. split; [reflexivity|].
  eapply (new_files_listed_once (shelf 3 [] None no_fault) ["/c"; "/c"] start
            _ [] r.2).
  vm_compute. reflexivity.
Defined.

(** Every path of [db_set] is a key of [ix]. *)
Lemma index_step_ix_key rows db0 ix0 p :
  p ∈ rows.*1.*2 ∨ is_Some (ix0 !! p) →
  is_Some ((foldl index_step (db0, ix0) rows).2 !! p).
Proof.
  revert db0 ix0. induction rows as [|[[id' p'] t'] rows IH]; intros db0 ix0 Hin.
  { destruct Hin as [Hin|?]; [|done]. by apply elem_of_nil in Hin. }
  simpl in *. apply IH.
  destruct Hin as [[->|?]%elem_of_cons|?]; [|by left|].
  - right. rewrite lookup_insert_eq. eauto.
  - right. destruct (decide (p' = p)) as [->|?].
    + rewrite lookup_insert_eq. eauto.
    + by rewrite lookup_insert_ne.
Qed.

Lemma lookup_ids_keys ix rs :
  Forall (λ r, is_Some (ix !! r.1)) rs → ∃ ids, lookup_ids ix rs = Ok ids.
Proof.
  induction 1 as [|r rs [i Hi] _ [ids IH]]; simpl; [eauto|].
  rewrite Hi, IH. eauto.
Qed.

Lemma createAddRemoveLists_ok w dirs s :
  fault_at w (clock s) = false →
  ∃ fl tr s1, createAddRemoveLists w dirs s = (Ok (fl, tr), s1).
Proof.
  intros Hf. unfold createAddRemoveLists. mrun.
  destruct (collect_current_spec w (get_recursive_filelist w dirs) ∅ s)
    as (cur & -> & Hcur).
  { apply Forall_forall. intros p Hp.
    by apply elem_of_get_recursive_filelist in Hp as [? _]. }
  unfold logging_info, logging, library_getComicPaths, library_call.
  mrun. fields. rewrite Hf. mrun. fields. unfold id.
  rewrite index_rows_fold.
  pose proof (index_step_db (Library.getComicPaths (library s)) ∅ ∅) as Hdb.
  pose proof (λ p, index_step_ix_key (Library.getComicPaths (library s))
                     ∅ ∅ p) as Hkey.
  destruct (foldl index_step (∅, ∅) (Library.getComicPaths (library s)))
    as [db_set ix]. simpl in Hdb, Hkey. mrun.
  destruct (lookup_ids_keys ix (elements (db_set ∖ cur))) as [ids ->].
  { apply Forall_forall. intros [p t] Hin. simpl.
    apply elem_of_elements, elem_of_difference in Hin as [Hin _].
    apply Hdb in Hin as [?%elem_of_empty|(i & Hi)]; [done|].
    apply Hkey. left. apply list_elem_of_fmap. exists (i, p). split; [done|].
    apply list_elem_of_fmap. by exists (i, p, t). }
  mrun. eauto.
Qed.

(** [ix[r[0]]] finds its key for every element of [to_remove]: the only
    exception that leaves [createAddRemoveLists] is the one the catalog
    query raises; when the query answers, the two lists are returned. *)
Theorem createAddRemoveLists_succeeds w dirs s :
  fault_at w (clock s) = false →
  ∃ fl tr s1, createAddRemoveLists w dirs s = (Ok (fl, tr), s1).
Proof. apply createAddRemoveLists_ok. Qed.

Lemma createAddRemoveLists_succeeds_witness :
  ∃ fl tr s1,
    createAddRemoveLists (shelf 3 [] None no_fault) ["/c"] stale
    = (Ok (fl, tr), s1).
Proof.
  apply (createAddRemoveLists_succeeds (shelf 3 [] None no_fault) ["/c"] stale).
  reflexivity.
Defined.

(** ** The scan keeps one record per path and per id *)

Lemma addComics_ids cs c : ids_wf c → ids_wf (Library.addComics cs c).
Proof.
  intros [Hnd Hlt]. unfold ids_wf, Library.addComics. simpl.
  assert (comic_id <$> imap (Library.store (next_id c)) cs
          = seq (next_id c) (length cs)) as Hids.
  { apply list_eq. intros i. rewrite list_lookup_fmap, list_lookup_imap.
    destruct (cs !! i) as [cm|] eqn:Hi; simpl; symmetry.
    - apply lookup_seq. split; [done|]. by eapply lookup_lt_Some.
    - apply lookup_seq_ge. by apply lookup_ge_None. }
  split.
  - rewrite fmap_app, Hids. apply NoDup_app. split_and!; [done| |apply NoDup_seq].
    intros i Hi Hseq. apply list_elem_of_fmap in Hi as (r & -> & Hr).
    eapply Forall_forall in Hlt; [|done]. apply elem_of_seq in Hseq. lia.
  - apply Forall_app. split.
    + eapply Forall_impl; [done|]. simpl. intros r ?. lia.
    + apply Forall_forall. intros r Hr.
      apply elem_of_lookup_imap in Hr as (i & cm & -> & Hi). simpl.
      apply lookup_lt_Some in Hi. lia.
Qed.

Lemma addComics_paths mds c :
  rec_path <$> comics (Library.addComics (Library.createComicFromMetadata <$> mds) c)
  = (rec_path <$> comics c) ++ (md_path <$> mds).
Proof.
  unfold Library.addComics. simpl. rewrite fmap_app. f_equal.
  rewrite fmap_imap, imap_fmap. rewrite <- (imap_const md_path mds).
  apply imap_ext. done.
Qed.

Lemma NoDup_fmap_filter {A B} (f : A → B) (P : A → Prop)
    `{!∀ x, Decision (P x)} (l : list A) :
  NoDup (f <$> l) → NoDup (f <$> filter P l).
Proof.
  intros Hnd. eapply sublist_NoDup; [exact Hnd|].
  apply fmap_sublist, sublist_filter.
Qed.

Lemma deleteComics_ids ids c : ids_wf c → ids_wf (Library.deleteComics ids c).
Proof.
  intros [Hnd Hlt]. split; simpl.
  - by apply NoDup_fmap_filter.
  - apply Forall_forall. intros r Hr. apply list_elem_of_filter in Hr as [_ Hr].
    by eapply Forall_forall in Hlt.
Qed.

Lemma apart_skip f rest s s' :
  library s' = library s → md_list s' = md_list s →
  apart (f :: rest) s → apart rest s'.
Proof.
  unfold apart. intros -> ->. intros H. eapply sublist_NoDup; [exact H|].
  apply sublist_app; [done|]. apply sublist_app; [done|]. by apply sublist_cons.
Qed.

Lemma apart_buffer f rest omd s s' w :
  extract w f = Ok omd →
  library s' = library s → md_list s' = md_list s ++ option_list omd →
  apart (f :: rest) s → apart rest s'.
Proof.
  unfold apart. intros He -> ->. destruct omd as [md|]; simpl.
  - apply extract_md in He as [Hp _]. rewrite fmap_app. simpl. rewrite Hp.
    by rewrite <- (app_assoc _ [f] rest).
  - rewrite app_nil_r. intros H. eapply sublist_NoDup; [exact H|].
    apply sublist_app; [done|]. apply sublist_app; [done|]. by apply sublist_cons.
Qed.

Lemma apart_insert rest mds s s' :
  library s'
  = Library.addComics (Library.createComicFromMetadata <$> mds) (library s) →
  md_list s' = [] →
  NoDup ((rec_path <$> comics (library s)) ++ (md_path <$> mds) ++ rest) →
  apart rest s'.
Proof.
  unfold apart. intros -> ->. rewrite addComics_paths. simpl.
  by rewrite <- app_assoc.
Qed.

Lemma apart_drop rest mds s s' :
  library s' = library s → md_list s' = [] →
  NoDup ((rec_path <$> comics (library s)) ++ (md_path <$> mds) ++ rest) →
  apart rest s'.
Proof.
  unfold apart. intros -> ->. simpl. intros H.
  eapply sublist_NoDup; [exact H|].
  apply sublist_app; [done|]. by apply sublist_inserts_l.
Qed.

(** One turn of the loop keeps the paths apart and the ids in order. *)
Lemma scan_file_apart w total f rest s r s' :
  scan_file w total f s = (r, s') →
  apart (f :: rest) s → ids_wf (library s) →
  apart rest s' ∧ ids_wf (library s').
Proof.
  intros E Ha Hi. apply scan_file_spec in E as (_ & l & _ & Hcases).
  destruct Hcases as [(e & _ & _ & _ & Hl & Hm & _)|(omd & He & Hcases)].
  { split; [by eapply apart_skip|by rewrite Hl]. }
  cbn zeta in Hcases.
  assert (NoDup ((rec_path <$> comics (library s))
                   ++ (md_path <$> md_list s ++ option_list omd) ++ rest))
    as Hbuf.
  { eapply (apart_buffer f rest omd s
              (set_md_list (md_list s ++ option_list omd) s)); done. }
  destruct Hcases as [(_ & _ & _ & Hl & Hm & _)
                     |[(_ & _ & _ & _ & Hl & Hm & _)
                      |(_ & _ & _ & _ & Hcases)]].
  1,2: split; [by eapply apart_buffer|by rewrite Hl].
  destruct Hcases as [(_ & Hm & Hl & _)|[(_ & Hm & _ & Hl & _)
                                        |(e & t' & _ & _ & Hm & Hl & _)]].
  - split; [by eapply apart_insert|]. rewrite Hl. by apply addComics_ids.
  - split; [by eapply apart_drop|by rewrite Hl].
  - split; [by eapply apart_buffer|by rewrite Hl].
Qed.

Lemma scan_files_apart w total fl s r s' :
  scan_files w total fl s = (r, s') →
  apart fl s → ids_wf (library s) →
  (r = Ok false → apart [] s') ∧ catalog_wf (library s').
Proof.
  revert s. induction fl as [|f fl IH]; intros s; simpl.
  { mrun. intros [= <- <-] Ha [Hi1 Hi2]. split; [done|].
    split_and!; [|done..]. unfold apart in Ha. by apply NoDup_app in Ha as [? _]. }
  mrun. destruct (scan_file w total f s) as [r1 s1] eqn:E1.
  intros E Ha Hi.
  destruct (scan_file_apart _ _ _ fl _ _ _ E1 Ha Hi) as [Ha1 [Hi1 Hi2]].
  destruct r1 as [[]|e]; revert E; mrun.
  - intros [= <- <-]. split; [done|]. split_and!; [|done..].
    unfold apart in Ha1. by apply NoDup_app in Ha1 as [? _].
  - intros E. by eapply IH.
  - unfold logging_error, logging_exception, logging. mrun.
    intros E. eapply IH; [exact E|exact Ha1|done].
Qed.

Lemma scan_end_wf w total s r s' :
  scan_end w total s = (r, s') →
  apart [] s → ids_wf (library s) → catalog_wf (library s').
Proof.
  intros E Ha [Hi1 Hi2].
  assert (catalog_wf (library s)) as Hwf.
  { split_and!; [|done..]. unfold apart in Ha. by apply NoDup_app in Ha as [? _]. }
  apply scan_end_spec in E as [(_ & _ & _ & Hl)|(_ & l & _ & Hcases)];
    [by rewrite Hl|].
  destruct Hcases as [(_ & Hl & _)|[(_ & _ & Hl & _)|(e & t & _ & _ & Hl & _)]];
    rewrite Hl; [|done..].
  destruct (addComics_ids (Library.createComicFromMetadata <$> md_list s)
              (library s)) as [? ?]; [done|].
  split_and!; [|done..]. rewrite addComics_paths.
  unfold apart in Ha. by rewrite app_nil_r in Ha.
Qed.

(** After the bulk delete, the rows that stay and the new files are apart. *)
Lemma scan_begin_apart w dirs s fl sb :
  catalog_wf (library s) →
  scan_begin w dirs s = (Ok fl, sb) →
  apart fl sb ∧ ids_wf (library sb).
Proof.
  intros Hwf Eb.
  destruct (scan_begin_lists _ _ _ _ _ Eb) as [(fl' & tr & s0 & E0)|(e & ? & _)];
    [|done].
  destruct (scan_begin_spec _ _ _ _ _ _ _ _ E0 Eb)
    as [_ [([= <-] & Hmb & _ & Hlb)|(? & ? & ? & _)]]; [|done].
  pose proof (createAddRemoveLists_spec _ _ _ _ _ _ E0) as [Hfl _].
  pose proof Hwf as (Hp & Hi1 & Hi2).
  split; [|rewrite Hlb; by apply deleteComics_ids].
  unfold apart. rewrite Hmb, Hlb. simpl. apply NoDup_app. split_and!.
  - by apply NoDup_fmap_filter.
  - intros p Hp1 Hp2. apply list_elem_of_fmap in Hp1 as (r & -> & Hr).
    eapply deleteComics_kept in Hr as [Hr [Hd _]]; [|done..].
    apply Hfl in Hp2 as (t & [Hd' _] & Hn). apply Hn.
    rewrite Hd in Hd'. injection Hd' as <-. by exists r.
  - by eapply createAddRemoveLists_NoDup.
Qed.

Lemma dofullScan_wf w dirs s :
  catalog_wf (library s) → catalog_wf (library (dofullScan w dirs s).2).
Proof.
  intros Hwf. destruct (dofullScan w dirs s) as [r s'] eqn:E. simpl.
  apply dofullScan_inv in E as [(e & _ & Eb)|(fl & sb & Eb & E)].
  - destruct (scan_begin_lists _ _ _ _ _ Eb)
      as [(fl & tr & s0 & E0)|(e' & _ & -> & _)]; [|done].
    destruct (scan_begin_spec _ _ _ _ _ _ _ _ E0 Eb)
      as [_ [(? & _)|(? & ? & _ & _ & ->)]]; done.
  - destruct (scan_begin_apart _ _ _ _ _ Hwf Eb) as [Ha Hi].
    destruct E as [(e & _ & E2)|[(_ & E2)|(s2 & E2 & E)]].
    1,2: by eapply scan_files_apart in E2 as [_ ?].
    eapply scan_files_apart in E2 as [Ha2 (? & ? & ?)]; [|done..].
    destruct E as [(e & _ & E3)|(_ & E3)];
      (eapply scan_end_wf; [exact E3|by apply Ha2|done]).
Qed.

Lemma _loop_wf w s : catalog_wf (library s) → catalog_wf (library (_loop w s).2).
Proof.
  intros Hwf. unfold _loop, queue_get. mrun.
  destruct (queue s) as [|[|args] q]; mrun; [done| |done].
  fields. pose proof (dofullScan_wf w (paths s) (set_queue q s) Hwf) as H.
  by destruct (dofullScan w (paths s) (set_queue q s)) as [[ex|e] s1].
Qed.

(** A catalog with one record per path and per id, the ids below the
    next one to assign, is still such a catalog after a full scan, however
    the scan ends, and after any number of turns of the worker's loop. *)
Theorem scan_keeps_catalog_wf w dirs n s :
  catalog_wf (library s) →
  catalog_wf (library (dofullScan w dirs s).2)
  ∧ catalog_wf (library (mainLoop w n s).2).
Proof.
  intros Hwf. split; [by apply dofullScan_wf|].
  revert s Hwf. induction n as [|n IH]; intros s Hwf; [done|].
  simpl. mrun. pose proof (_loop_wf w s Hwf) as H.
  pose proof (_loop_total w s) as Ht.
  destruct (_loop w s) as [r s1]. simpl in *. subst r.
  destruct (quit s1); [done|by apply IH].
Qed.

Lemma scan_keeps_catalog_wf_witness :
  let w := shelf 3 [] None no_fault in
  catalog_wf (library (dofullScan w ["/c"] stale).2)
  ∧ catalog_wf (library (mainLoop w 4 (set_queue [CmdScan; CmdScan] stale)).2).
Proof.
  intros w.
  assert (catalog_wf (library stale)) as Hwf.
  { split_and!.
    - apply (bool_decide_unpack _). vm_compute. exact I.
    - apply (bool_decide_unpack _). vm_compute. exact I.
    - repeat (constructor; [simpl; lia|]). constructor. }
  split.
  - apply (scan_keeps_catalog_wf w ["/c"] 0 stale Hwf).
  - apply (scan_keeps_catalog_wf w ["/c"] 4 (set_queue [CmdScan; CmdScan] stale)
             Hwf).
Defined.

(** ** What the counters count *)

Lemma inserted_app l k : inserted (l ++ k) = inserted l + inserted k.
Proof. unfold inserted. by rewrite omap_app, sum_list_with_app. Qed.

Lemma inserted_none l : omap insert_size l = [] → inserted l = 0.
Proof. unfold inserted. by intros ->. Qed.

Global Instance covers_preorder : PreOrder covers.
Proof.
  split.
  - intros s. exists []. rewrite app_nil_r. unfold inserted. simpl. split; [done|lia].
  - intros s1 s2 s3 (l1 & E1 & H1) (l2 & E2 & H2). exists (l1 ++ l2).
    rewrite E2, E1, app_assoc, inserted_app. split; [done|lia].
Qed.

Lemma covers_same s s' :
  calls s' = calls s → add_count s ≤ add_count s' → covers s s'.
Proof.
  intros Hc Ha. exists []. rewrite app_nil_r. unfold inserted. simpl.
  split; [done|lia].
Qed.

Lemma covers_call c s s' :
  calls s' = calls s ++ [c] → insert_size c = None →
  add_count s ≤ add_count s' → covers s s'.
Proof.
  intros Hc Hn Ha. exists [c]. unfold inserted. simpl. rewrite Hn. simpl.
  split; [done|lia].
Qed.

Lemma tick_covers w : respects covers (tick w).
Proof.
  intros s. rewrite tick_run. simpl. apply covers_same; fields; done.
Qed.
Global Hint Resolve tick_covers : frame.

Ltac covers_leaf :=
  solve [ intros; apply covers_same; cbn; [done|lia]
        | intros; eapply covers_call; cbn; [done|done|lia] ].

Ltac frame_covers :=
  repeat first
    [ solve [eauto 2 with frame typeclass_instances]
    | respects_step
    | covers_leaf
    | progress autounfold with monitor ].

(** The loop of [commitMetadataList] counts every comic it creates. *)
Lemma create_comics_counts w mds cs s r s' :
  create_comics w mds cs s = (r, s') →
  add_count s ≤ add_count s'
  ∧ match r with
    | Ok (Some cs') =>
        add_count s' = add_count s + length mds
        ∧ length cs' = length cs + length mds
    | _ => True
    end.
Proof.
  revert cs s. induction mds as [|md mds IH]; intros cs s; simpl.
  { mrun. intros [= <- <-]. split; [done|]. split; lia. }
  unfold library_createComicFromMetadata, library_call. mrun. fields.
  destruct (fault_at w (clock s)) eqn:Hf; mrun.
  { intros [= <- <-]. fields. split; [lia|done]. }
  match goal with |- context [quit ?s1] => destruct (quit s1) eqn:Hq end.
  { unfold setStatusDetail, logging_debug, logging. mrun.
    intros [= <- <-]. fields. split; [lia|done]. }
  intros E. apply IH in E as (Hle & Hres). revert Hle Hres. fields.
  intros Hle Hres. split; [lia|].
  destruct r as [[cs'|]|e]; try done. destruct Hres as [-> ->].
  rewrite length_app. simpl. split; lia.
Qed.

Lemma commitMetadataList_covers w mds : respects covers (commitMetadataList w mds).
Proof.
  intros s. destruct (commitMetadataList w mds s) as [r s'] eqn:E. simpl.
  revert E.
  unfold commitMetadataList, library_create_meta_objs, library_call. mrun. fields.
  destruct (fault_at w (clock s)) eqn:Hf; mrun.
  { intros [= _ <-]. eapply covers_call; fields; done. }
  match goal with |- context [create_comics w mds [] ?s1] =>
    destruct (create_comics w mds [] s1) as [r1 s2] eqn:E1 end.
  pose proof (create_comics_counts _ _ _ _ _ _ E1) as [Hle Hres].
  apply create_comics_spec in E1 as (_ & _ & _ & (l & Hc & Hs) & _).
  revert Hle Hres Hc. fields. unfold id. intros Hle Hres Hc.
  assert (covers s s2) as H12.
  { exists (CreateMetaObjs mds :: l). rewrite Hc, <- app_assoc.
    split; [done|].
    change (CreateMetaObjs mds :: l) with ([CreateMetaObjs mds] ++ l).
    rewrite inserted_app, (inserted_none l) by done.
    unfold inserted. simpl. lia. }
  destruct r1 as [[cs|]|e]; mrun; try (by intros [= _ <-]).
  destruct Hres as [Ha Hlen]. simpl in Hlen.
  unfold library_addComics, library_call. mrun.
  assert (∀ s3, calls s3 = calls s2 ++ [AddComics cs] →
            add_count s3 = add_count s2 → covers s s3) as Hgo.
  { intros s3 Hc3 Ha3. exists (CreateMetaObjs mds :: l ++ [AddComics cs]).
    rewrite Hc3, Hc, <- !app_assoc. split; [done|].
    change (CreateMetaObjs mds :: l ++ [AddComics cs])
      with ([CreateMetaObjs mds] ++ l ++ [AddComics cs]).
    rewrite !inserted_app, (inserted_none l) by done.
    unfold inserted. simpl. lia. }
  destruct (fault_at w (clock s2)); mrun; intros [= _ <-]; apply Hgo; by fields.
Qed.
Global Hint Resolve commitMetadataList_covers : frame.

Lemma scan_files_covers w total fl : respects covers (scan_files w total fl).
Proof. induction fl as [|p fl IH]; simpl; frame_covers. Qed.

Lemma scan_end_covers w total : respects covers (scan_end w total).
Proof. frame_covers. Qed.

Lemma collect_current_covers w fl cur : respects covers (collect_current w fl cur).
Proof. revert cur. induction fl as [|p fl IH]; intros cur; simpl; frame_covers. Qed.
Global Hint Resolve collect_current_covers : frame.

(** [scan_begin] sets [add_count] to 0 and inserts nothing. *)
Lemma scan_begin_covers w dirs s r s' :
  scan_begin w dirs s = (r, s') →
  ∃ l, calls s' = calls s ++ l ∧ inserted l ≤ add_count s'.
Proof.
  unfold scan_begin, setStatusDetail, logging_info, logging_debug, logging.
  mstep. intros E.
  lazymatch type of E with
  | ?m _ = _ =>
      assert (respects covers m) as Hm by frame_covers;
      apply (respects_run _ _ _ _ _ Hm) in E
  end.
  destruct E as (l & Hc & Ha). revert Hc Ha. fields. intros Hc Ha.
  exists l. split; [done|lia].
Qed.

(** The number that the scan reports as added, [add_count], is never below
    the number of comics that its bulk inserts carried: it counts every
    comic object created, inserted or not. *)
Theorem added_count_covers_inserts w dirs s :
  ∃ l, calls (dofullScan w dirs s).2 = calls s ++ l
     ∧ inserted l ≤ add_count (dofullScan w dirs s).2.
Proof.
  destruct (dofullScan w dirs s) as [r s'] eqn:E. simpl.
  apply dofullScan_inv in E as [(e & _ & Eb)|(fl & sb & Eb & E)].
  { by eapply scan_begin_covers. }
  apply scan_begin_covers in Eb as (l1 & Hc1 & Ha1).
  assert (covers sb s') as (l2 & Hc2 & Ha2).
  { destruct E as [(e & _ & E2)|[(_ & E2)|(s2 & E2 & E)]].
    1,2: eapply respects_run; [apply scan_files_covers|done].
    etrans; [eapply respects_run; [apply scan_files_covers|done]|].
    destruct E as [(e & _ & E3)|(_ & E3)];
      (eapply respects_run; [apply scan_end_covers|done]). }
  exists (l1 ++ l2). rewrite Hc2, Hc1, app_assoc, inserted_app.
  split; [done|lia].
Qed.

(** ** [read_count] *)

Lemma scan_files_read_count w total fl s s' :
  scan_files w total fl s = (Ok false, s') →
  read_count s' = read_count s + length (filter (λ f, counted w f) fl).
Proof.
  revert s. induction fl as [|f fl IH]; intros s; simpl.
  { mrun. intros [= <-]. lia. }
  mrun. destruct (scan_file w total f s) as [r1 s1] eqn:E1.
  apply scan_file_spec in E1 as (Hrc & _). cbn zeta in Hrc.
  assert (read_count s + length (filter (λ f, counted w f) (f :: fl))
          = read_count s1 + length (filter (λ f, counted w f) fl)) as ->.
  { rewrite Hrc, filter_cons.
    destruct (counted w f); case_decide; simpl in *; try done; lia. }
  destruct r1 as [[]|e]; mrun; [done|apply IH|].
  unfold logging_error, logging_exception, logging. mrun.
  intros E. by apply IH in E.
Qed.

Lemma scan_end_read_count w total s r s' :
  scan_end w total s = (r, s') → read_count s' = read_count s.
Proof.
  unfold scan_end, setStatusDetail, logging_info, logging. mrun.
  case_bool_decide as Hne; mrun.
  2: { destruct (quit_when_done _); mrun; intros [= _ <-]; by fields. }
  destruct (commitMetadataList w (md_list s) s) as [r1 s1] eqn:E1.
  apply commitMetadataList_spec in E1 as (_ & Hr & _).
  destruct r1 as [[]|e]; mrun.
  - destruct (quit_when_done _); mrun; intros [= _ <-]; by fields.
  - by intros [= _ <-].
Qed.

(** After a scan that ran to its end, [read_count] is the number of the new
    files that were recognised as comic archives, those whose metadata then
    failed to be read included; it is this number that the last status line
    gives as scanned. *)
Theorem read_count_counts_recognised w dirs s fl tr s0 s' :
  createAddRemoveLists w dirs s = (Ok (fl, tr), s0) →
  dofullScan w dirs s = (Ok Completed, s') →
  read_count s' = length (filter (λ f, counted w f) fl).
Proof.
  intros E0 E.
  apply dofullScan_inv in E as [(e & ? & _)|(fl' & sb & Eb & E)]; [done|].
  destruct (scan_begin_spec _ _ _ _ _ _ _ _ E0 Eb)
    as [_ [([= <-] & _ & Hr & _)|(? & ? & ? & _)]]; [|done].
  destruct E as [(e & ? & _)|[(? & _)|(s2 & E2 & [(e & ? & _)|(_ & E3)])]];
    try done.
  apply scan_files_read_count in E2. apply scan_end_read_count in E3.
  rewrite E3, E2, Hr. done.
Qed.

Lemma read_count_counts_recognised_witness :
  let w := shelf 3 ["/c/1.cbz"] None no_fault in
  read_count (dofullScan w ["/c"] start).2 = 3
  ∧ inserted (calls (dofullScan w ["/c"] start).2) = 2.
Proof.
  intros w. split; [|vm_compute; reflexivity].
  rewrite (read_count_counts_recognised w ["/c"] start
             ["/c/1.cbz"; "/c/2.cbz"; "/c/0.cbz"] []
             (createAddRemoveLists w ["/c"] start).2
             (dofullScan w ["/c"] start).2).
  - vm_compute. reflexivity.
  - vm_compute. reflexivity.
  - vm_compute. reflexivity.
Defined.

(** ** A scan that starts with the stop flag up *)

(** A scan that starts with the stop flag up, and returns, still makes the
    bulk delete and inserts nothing: the catalog is left with exactly those
    of its records that are on disk as stored.  A comic that was modified on
    disk has then no record at all, until a later scan adds it again. *)
Theorem stopped_scan_only_deletes w dirs s exit s' :
  catalog_wf (library s) →
  quit s = true →
  dofullScan w dirs s = (Ok exit, s') →
  (∀ r, r ∈ comics (library s')
        ↔ r ∈ comics (library s) ∧ on_disk w dirs (rec_path r) (rec_mod_ts r))
  ∧ ∀ p t t', disk w !! p = Some t → in_catalog (library s) p t' → t' ≠ t →
      ∀ t'', ¬ in_catalog (library s') p t''.
Proof.
  intros Hwf Hq E.
  apply dofullScan_inv in E as [(e & ? & _)|(fl & sb & Eb & E)]; [done|].
  destruct (scan_begin_lists _ _ _ _ _ Eb) as [(fl' & tr & s0 & E0)|(e & ? & _)];
    [|done].
  pose proof (respects_run _ _ _ _ _ (scan_begin_stays_stopped w dirs) Eb Hq)
    as Hqb.
  destruct (scan_begin_spec _ _ _ _ _ _ _ _ E0 Eb)
    as [_ [([= <-] & _ & _ & Hlb)|(? & ? & ? & _)]]; [|done].
  assert (library s' = library sb) as Hl.
  { destruct E as [(e & ? & _)|[(_ & E2)|(s2 & E2 & [(e & ? & _)|(_ & E3)])]];
      try done.
    - by apply scan_files_stopped in E2 as [? _].
    - pose proof E2 as Hq2. frame_in Hq2 stays_stopped.
      apply scan_files_stopped in E2 as [E2 _]; [|done].
      apply scan_end_stopped in E3 as [E3 _]; [|by apply Hq2].
      congruence. }
  assert (∀ r, r ∈ comics (library s')
               ↔ r ∈ comics (library s)
                 ∧ on_disk w dirs (rec_path r) (rec_mod_ts r)) as Hrows.
  { intros r. rewrite Hl, Hlb. by eapply deleteComics_kept. }
  split; [done|].
  intros p t t' Hd (r & Hr & Hp & Ht) Hne t'' (r' & Hr' & Hp' & _).
  apply Hrows in Hr' as [Hr' [Hd' _]].
  assert (r' = r) as ->.
  { destruct Hwf as (Hpaths & _). eapply (NoDup_fmap_eq rec_path); [done..|].
    congruence. }
  rewrite Hp, Ht, Hd in Hd'. by injection Hd'.
Qed.

Lemma stopped_scan_only_deletes_witness :
  let w := shelf 3 [] None no_fault in
  let s' := (dofullScan w ["/c"] (set_quit true stale)).2 in
  comics (library s')
  = [ {| comic_id := 1; rec_path := "/c/0.cbz"; rec_mod_ts := 7%Z |} ]
  ∧ ∀ t, ¬ in_catalog (library s') "/c/1.cbz" t.
Proof.
  intros w s'.
  destruct (stopped_scan_only_deletes w ["/c"] (set_quit true stale) Halted s')
    as [_ Hlost].
  - split_and!.
    + apply (bool_decide_unpack _). vm_compute. exact I.
    + apply (bool_decide_unpack _). vm_compute. exact I.
    + repeat (constructor; [simpl; lia|]). constructor.
  - reflexivity.
  - vm_compute. reflexivity.
  - split; [vm_compute; reflexivity|].
    apply (Hlost "/c/1.cbz" 7%Z 5%Z).
    + vm_compute. reflexivity.
    + exists {| comic_id := 2; rec_path := "/c/1.cbz"; rec_mod_ts := 5%Z |}.
      split; [|done]. apply (bool_decide_unpack _). vm_compute. exact I.
    + done.
Defined.

(** ** Events, timers and scans *)

Module WatchFacts.

Import Debounce DebounceFacts Watch.

Lemma advance_idle now q st : idle q st → advance now st = st.
Proof.
  intros (Hfin & _). unfold advance. apply foldl_expire_idle.
  intros i tm _ Hi. left. by eapply Forall_lookup_1 in Hfin.
Qed.

Lemma advance_armed_early t q now st :
  armed t q st → (now < t + 30)%Z → advance now st = st.
Proof.
  intros (old & Ht & Hold & _) Hnow. unfold advance.
  apply foldl_expire_idle. intros i tm _. rewrite Ht.
  intros Hi. apply lookup_app_Some in Hi as [Hi|[_ Hi]].
  - left. by eapply Forall_lookup_1 in Hold.
  - right. apply list_lookup_singleton_Some in Hi as [_ <-]. simpl. lia.
Qed.

Lemma armed_eq t q st :
  armed t q st →
  ∃ old, Forall (λ tm, finished tm = true) old
    ∧ st = {| eventProcessingTimer := Some (length old);
              timers := old ++ [{| deadline := (t + 30)%Z; finished := false |}];
              queue := q |}.
Proof.
  intros (old & Ht & Hold & Hslot & Hq). exists old. split; [done|].
  destruct st as [slot tms qu]. simpl in *. by subst.
Qed.

(** What the live timer leaves when it runs: the state does not depend on
    how late it is looked at. *)
Lemma advance_fire old t q now :
  Forall (λ tm, finished tm = true) old → (t + 30 ≤ now)%Z →
  advance now
    {| eventProcessingTimer := Some (length old);
       timers := old ++ [{| deadline := (t + 30)%Z; finished := false |}];
       queue := q |}
  = {| eventProcessingTimer := None;
       timers := old ++ [{| deadline := (t + 30)%Z; finished := true |}];
       queue := q ++ [((t + 30)%Z, CmdScan)] |}.
Proof.
  intros Hold Hnow. unfold advance. cbn [timers]. rewrite length_app.
  cbn [length]. rewrite seq_app, foldl_app. cbn [seq foldl Nat.add].
  rewrite foldl_expire_idle.
  2: { intros i tm Hi. cbn [timers]. apply elem_of_seq in Hi.
       rewrite lookup_app_l by lia. intros Hl. left.
       by eapply Forall_lookup_1 in Hold. }
  unfold expire. cbn [timers]. rewrite lookup_app_r by lia.
  rewrite ?Nat.add_0_l, Nat.sub_diag. simpl.
  rewrite bool_decide_eq_true_2 by lia.
  unfold handleEventProcessing, scan. cbn [eventProcessingTimer timers queue].
  rewrite alter_app_r_alt by lia. rewrite Nat.sub_diag. done.
Qed.

Lemma advance_armed_late t q now st :
  armed t q st → (t + 30 ≤ now)%Z →
  idle (q ++ [((t + 30)%Z, CmdScan)]) (advance now st).
Proof.
  intros Ha Hnow. apply armed_eq in Ha as (old & Hold & ->).
  rewrite advance_fire by done. split_and!; try done. simpl.
  apply Forall_app. split; [done|]. by repeat constructor.
Qed.

Lemma handleSingleEvent_idle t q st :
  idle q st → armed t q (handleSingleEvent t st).
Proof.
  intros (Hfin & Hslot & Hq). exists (timers st).
  unfold handleSingleEvent. rewrite Hslot. simpl. done.
Qed.

Lemma handleSingleEvent_armed t t' q st :
  armed t q st → armed t' q (handleSingleEvent t' st).
Proof.
  intros (old & Ht & Hold & Hslot & Hq).
  exists (old ++ [{| deadline := (t + 30)%Z; finished := true |}]).
  unfold handleSingleEvent. rewrite Hslot, Ht. simpl.
  rewrite alter_app_r_alt by lia. rewrite Nat.sub_diag. simpl.
  split_and!; try done.
  apply Forall_app. split; [done|]. by repeat constructor.
Qed.

Lemma advance_reachable now st : reachable st → reachable (advance now st).
Proof.
  intros [(q & Hi)|(t & q & Ha)].
  - rewrite (advance_idle _ q) by done. left. eauto.
  - destruct (decide (t + 30 ≤ now)%Z) as [Hlate|Hearly].
    + left. eexists. by eapply advance_armed_late.
    + rewrite (advance_armed_early t q) by (done || lia). right. eauto.
Qed.

Lemma handleSingleEvent_reachable t st :
  reachable st → reachable (handleSingleEvent t st).
Proof.
  intros [(q & Hi)|(t0 & q & Ha)]; right; exists t, q.
  - by apply handleSingleEvent_idle.
  - by eapply handleSingleEvent_armed.
Qed.

Lemma init_reachable : reachable init.
Proof. left. exists []. by split_and!. Qed.

(** Looking at the timers twice is looking at them once, at the later
    time. *)
Lemma advance_advance t now st :
  reachable st → (t ≤ now)%Z → advance now (advance t st) = advance now st.
Proof.
  intros [(q & Hi)|(t0 & q & Ha)] Hle.
  - by rewrite (advance_idle t q st Hi).
  - destruct (decide (t0 + 30 ≤ t)%Z) as [Hlate|Hearly].
    + pose proof (advance_armed_late _ _ t _ Ha Hlate) as Hi.
      rewrite (advance_idle _ _ _ Hi).
      apply armed_eq in Ha as (old & Hold & ->).
      by rewrite !advance_fire by (done || lia).
    + by rewrite (advance_armed_early t0 q t) by (done || lia).
Qed.

Lemma run_armed t q rest now st :
  armed t q st →
  queue (advance now (run rest st))
  = q ++ ((λ t, ((t + 30)%Z, CmdScan)) <$> quiet_ends t rest now).
Proof.
  revert t q st. induction rest as [|t' rest IH]; intros t q st Ha; simpl.
  - case_bool_decide as Hnow.
    + by destruct (advance_armed_late _ _ now _ Ha Hnow) as (_ & _ & ->).
    + rewrite (advance_armed_early t q) by (done || lia).
      destruct Ha as (_ & _ & _ & _ & ->). by rewrite app_nil_r.
  - change (run (t' :: rest) st)
      with (run rest (handleSingleEvent t' (advance t' st))).
    case_bool_decide as Hgap.
    + pose proof (advance_armed_late _ _ t' _ Ha Hgap) as Hi.
      rewrite (IH t' _ _ (handleSingleEvent_idle t' _ _ Hi)).
      by rewrite fmap_app, app_assoc.
    + rewrite (advance_armed_early t q t' st) by (done || lia).
      by rewrite (IH t' q _ (handleSingleEvent_armed _ t' _ _ Ha)).
Qed.

(** Whatever the times of the raw file events, the monitor queues one
    "scan" command for each event that no other event follows within the
    30 seconds of the quiet period, 30 seconds after that event, and no
    other command. *)
Theorem one_scan_per_quiet_period times now :
  queue (advance now (run times init)) = scans_due times now.
Proof.
  destruct times as [|t rest]; [done|].
  change (run (t :: rest) init)
    with (run rest (handleSingleEvent t (advance t init))).
  assert (idle [] init) as Hi by by split_and!.
  rewrite (advance_idle _ [] init Hi).
  by rewrite (run_armed t [] rest now _ (handleSingleEvent_idle t _ _ Hi)).
Qed.

Lemma run_reachable times st : reachable st → reachable (run times st).
Proof.
  revert st. induction times as [|t rest IH]; intros st Hr; [done|].
  apply IH. by apply handleSingleEvent_reachable, advance_reachable.
Qed.

(** Time that passes before a series of later events changes nothing. *)
Lemma run_advance t times now st :
  reachable st → Forall (λ t', (t ≤ t')%Z) times → (t ≤ now)%Z →
  advance now (run times (advance t st)) = advance now (run times st).
Proof.
  intros Hr Hle Hnow. destruct Hle as [|t' rest Ht' Hrest].
  - by apply advance_advance.
  - change (run (t' :: rest) (advance t st))
      with (run rest (handleSingleEvent t' (advance t' (advance t st)))).
    by rewrite advance_advance.
Qed.

(** Directory events count for nothing: delivered in the order of their
    times, a series of events leaves the timers and the queue as its file
    events alone would have. *)
Theorem directory_events_ignored events now :
  StronglySorted Z.le (at_time <$> events) →
  Forall (λ ev, (at_time ev ≤ now)%Z) events →
  advance now (observe events init)
  = advance now (run (file_times events) init).
Proof.
  assert (∀ st, reachable st →
            StronglySorted Z.le (at_time <$> events) →
            Forall (λ ev, (at_time ev ≤ now)%Z) events →
            advance now (observe events st)
            = advance now (run (file_times events) st)) as H;
    [|apply H, init_reachable].
  induction events as [|ev rest IH]; intros st Hr Hs Hnow; [done|].
  apply Forall_cons in Hnow as [Hev Hnow].
  simpl in Hs. apply StronglySorted_inv in Hs as [Hs Hge].
  change (observe (ev :: rest) st)
    with (observe rest (on_any_event ev (advance (at_time ev) st))).
  unfold file_times, on_any_event. rewrite filter_cons.
  destruct (is_directory ev) eqn:Hdir; simpl.
  - rewrite IH by (done || by apply advance_reachable).
    apply run_advance; [done| |done].
    apply Forall_forall. intros t Ht.
    apply list_elem_of_fmap in Ht as (ev' & -> & Hin).
    apply list_elem_of_filter in Hin as [_ Hin].
    eapply Forall_forall in Hge; [exact Hge|].
    apply list_elem_of_fmap. eauto.
  - rewrite IH; [done| |done..].
    by apply handleSingleEvent_reachable, advance_reachable.
Qed.

Lemma directory_events_ignored_witness :
  let events := [ {| at_time := 100; is_directory := false |};
                  {| at_time := 131; is_directory := true |};
                  {| at_time := 140; is_directory := false |} ] in
  advance 200 (observe events init) = advance 200 (run [100; 140]%Z init)
  ∧ queue (advance 200 (observe events init))
    = [(130%Z, CmdScan); (170%Z, CmdScan)].
Proof.
  intros events. split; [|vm_compute; reflexivity].
  apply (directory_events_ignored events 200).
  - repeat (constructor; [|repeat (constructor; [simpl; lia|])]); constructor.
  - repeat (constructor; [simpl; lia|]). constructor.
Defined.

End WatchFacts.

(** ** Which stored comics the check gives up *)

Lemma prefix_app p s : String.prefix p s = true ↔ ∃ b, s = (p +:+ b)%string.
Proof.
  revert s. induction p as [|c p IH]; intros s.
  { split; [intros _; by exists s|by destruct s]. }
  destruct s as [|c' s]; simpl; [split; [done|by intros [b ?]]|].
  destruct (Ascii.ascii_dec c c') as [->|Hne].
  - rewrite IH. split; intros [b Hb]; exists b; [by rewrite Hb|by injection Hb].
  - split; [done|]. intros [b [= ? _]]. done.
Qed.

(** [str_in] is the occurrence of one string in another. *)
Lemma str_in_spec p s :
  str_in p s = true ↔ ∃ a b, s = (a +:+ p +:+ b)%string.
Proof.
  induction s as [|c s IH]; cbn [str_in].
  - rewrite orb_false_r, prefix_app. split.
    + intros [b Hb]. by exists "", b.
    + intros (a & b & Hab). destruct a; [by exists b|done].
  - rewrite orb_true_iff, prefix_app, IH. split.
    + intros [[b Hb]|(a & b & Hab)].
      * by exists "", b.
      * exists (String c a), b. simpl. by rewrite Hab.
    + intros (a & b & Hab). destruct a as [|c' a]; [left; by exists b|].
      right. exists a, b. simpl in Hab. by injection Hab.
Qed.

Lemma inFolderlist_spec filepath pathlist :
  inFolderlist filepath pathlist = true
  ↔ ∃ p, p ∈ pathlist ∧ str_in p filepath = true.
Proof.
  induction pathlist as [|p rest IH]; simpl.
  { split; [done|]. by intros (? & ?%elem_of_nil & _). }
  destruct (str_in p filepath) eqn:Hp.
  - split; [|done]. intros _. exists p. split; [by left|done].
  - rewrite IH. split.
    + intros (p' & ? & ?). exists p'. split; [by right|done].
    + intros (p' & [->|?]%elem_of_cons & Hp'); [congruence|eauto].
Qed.

Lemma checkIfRemovedOrModified_run w comic pathlist s :
  ∃ remove s',
    checkIfRemovedOrModified w comic pathlist s = (Ok remove, s')
    ∧ library s' = library s ∧ calls s' = calls s ∧ quit s' = quit s
    ∧ (remove = true
       ↔ disk w !! rec_path comic = None
         ∨ (∀ p a b, p ∈ pathlist → rec_path comic ≠ (a +:+ p +:+ b)%string)
         ∨ ∃ t, disk w !! rec_path comic = Some t ∧ t ≠ rec_mod_ts comic).
Proof.
  unfold checkIfRemovedOrModified, getmtime, logging_debug, logging.
  destruct (disk w !! rec_path comic) as [t|] eqn:Hd.
  2: { rewrite bool_decide_eq_false_2 by (by intros [? ?]). mrun.
       eexists _, _. split; [done|]. split_and!; try done. split; auto. }
  rewrite bool_decide_eq_true_2 by eauto. cbn [negb].
  destruct (inFolderlist (rec_path comic) pathlist) eqn:Hin; cbn [negb].
  2: { mrun. eexists _, _. split; [done|]. split_and!; try done.
       split; [|done]. intros _. right; left. intros p a b Hp Heq.
       assert (inFolderlist (rec_path comic) pathlist = true) as Hin';
         [|congruence].
       apply inFolderlist_spec. exists p. split; [done|].
       apply str_in_spec. eauto. }
  apply inFolderlist_spec in Hin as (p & Hp & Hsub).
  apply str_in_spec in Hsub as (a & b & Hsub).
  mrun. case_bool_decide as Hts; mrun; eexists _, _; (split; [done|]);
    split_and!; try done.
  - split; [|done]. intros _. right; right. eauto.
  - split; [done|]. intros [?|[Hnone|(t' & [= <-] & Hne)]]; [done| |].
    + by destruct (Hnone p a b).
    + done.
Qed.

(** [checkIfRemovedOrModified] never raises, and it answers that the comic
    is to be removed exactly when its file is missing, or none of the given
    folder paths occurs in its path as a substring, or the file's
    modification time is not the stored one.  It changes nothing in the
    monitor but the log. *)
Theorem checkIfRemovedOrModified_spec w comic pathlist s :
  ∃ remove s',
    checkIfRemovedOrModified w comic pathlist s = (Ok remove, s')
    ∧ library s' = library s ∧ calls s' = calls s ∧ quit s' = quit s
    ∧ (remove = true
       ↔ disk w !! rec_path comic = None
         ∨ (∀ p a b, p ∈ pathlist → rec_path comic ≠ (a +:+ p +:+ b)%string)
         ∨ ∃ t, disk w !! rec_path comic = Some t ∧ t ≠ rec_mod_ts comic).
Proof. apply checkIfRemovedOrModified_run. Qed.

(** The check is the more lenient of the two: where the walk of a folder
    only reaches paths in which the folder's own path occurs, a stored
    comic that the check would remove is one whose id the full scan puts
    on its list of ids to delete. *)
Theorem check_removes_only_what_scan_removes w dirs s fl tr s0 comic s1 s2 :
  (∀ root p, inside w root p → str_in root p = true) →
  catalog_wf (library s) →
  createAddRemoveLists w dirs s = (Ok (fl, tr), s0) →
  comic ∈ comics (library s) →
  checkIfRemovedOrModified w comic dirs s1 = (Ok true, s2) →
  comic_id comic ∈ tr.
Proof.
  intros Hwalk Hwf E0 Hin Echeck.
  eapply to_remove_spec; [done..|]. intros [Hd (root & Hroot & Hins)].
  destruct (checkIfRemovedOrModified_run w comic dirs s1)
    as (remove & s' & E & _ & _ & _ & Hrem).
  rewrite Echeck in E. injection E as <- _.
  destruct (proj1 Hrem eq_refl) as [Hnone|[Hout|(t & Ht & Hne)]].
  - congruence.
  - apply Hwalk, str_in_spec in Hins as (a & b & Hab). by eapply Hout.
  - congruence.
Qed.

Lemma prefix_str_in p s : String.prefix p s = true → str_in p s = true.
Proof. intros H. destruct s; cbn [str_in]; by rewrite H. Qed.

Lemma check_removes_only_what_scan_removes_witness :
  let w := shelf 3 [] None no_fault in
  let gone := {| comic_id := 3; rec_path := "/c/gone.cbz"; rec_mod_ts := 7%Z |} in
  (checkIfRemovedOrModified w gone ["/c"] stale).1 = Ok true
  ∧ ∃ fl tr, (createAddRemoveLists w ["/c"] stale).1 = Ok (fl, tr)
             ∧ comic_id gone ∈ tr.
Proof.
  intros w gone. split; [vm_compute; reflexivity|].
  eexists _, _. split; [vm_compute; reflexivity|].
  eapply (check_removes_only_what_scan_removes w ["/c"] stale _ _
            (createAddRemoveLists w ["/c"] stale).2 gone stale
            (checkIfRemovedOrModified w gone ["/c"] stale).2).
  - intros root p Hp. apply prefix_str_in. by apply Is_true_true in Hp.
  - split_and!.
    + apply (bool_decide_unpack _). vm_compute. exact I.
    + apply (bool_decide_unpack _). vm_compute. exact I.
    + repeat (constructor; [simpl; lia|]). constructor.
  - vm_compute. reflexivity.
  - apply (bool_decide_unpack _). vm_compute. exact I.
  - vm_compute. reflexivity.
Defined.

(** ** A scan that nobody stops *)

Lemma scan_files_returned_quit w total fl s s' :
  scan_files w total fl s = (Ok true, s') → quit s' = true.
Proof.
  revert s. induction fl as [|f fl IH]; intros s; simpl; [done|].
  mrun. destruct (scan_file w total f s) as [r1 s1] eqn:E1.
  destruct r1 as [[]|e]; mrun.
  - intros [= <-]. apply scan_file_spec in E1 as (_ & l & _ & Hcases).
    destruct Hcases as [(e & _ & ? & _)|(omd & _ & Hcases)]; [done|].
    cbn zeta in Hcases.
    destruct Hcases as [(_ & _ & _ & _ & _ & ?)
                       |[(_ & _ & ? & _)|(_ & _ & _ & _ & Hcases)]];
      [done|done|].
    by destruct Hcases as [(? & _)|[(? & _)|(e & t & ? & _)]].
  - apply IH.
  - unfold logging_error, logging_exception, logging. mrun. apply IH.
Qed.

(** With no stop request and no failing library call, a scan always runs
    to its end, whatever the files are: what the archive reader raises is
    caught file by file. *)
Theorem undisturbed_scan_completes w dirs s :
  stop_at w = None →
  (∀ t, fault_at w t = false) →
  quit s = false →
  (dofullScan w dirs s).1 = Ok Completed.
Proof.
  intros Hstop Hfault Hq.
  destruct (createAddRemoveLists_ok w dirs s (Hfault _))
    as (fl & tr & s0 & E0).
  destruct (dofullScan w dirs s) as [r s'] eqn:E. simpl.
  apply dofullScan_inv in E as [(e & _ & Eb)|(fl' & sb & Eb & E)].
  { destruct (scan_begin_spec _ _ _ _ _ _ _ _ E0 Eb)
      as [_ [(? & _)|(? & t & _ & Ht & _)]]; [done|].
    by rewrite Hfault in Ht. }
  apply (respects_run _ _ _ _ _ (scan_begin_stays_running w dirs Hstop)) in Eb.
  specialize (Eb Hq).
  destruct E as [(e & _ & E2)|[(_ & E2)|(s2 & E2 & E)]].
  - destruct (scan_files_total w (length fl') fl' sb) as [b Hb].
    rewrite E2 in Hb. done.
  - pose proof (scan_files_returned_quit _ _ _ _ _ E2) as Hq'.
    apply (respects_run _ _ _ _ _ (scan_files_stays_running w _ _ Hstop)) in E2.
    rewrite (E2 Eb) in Hq'. done.
  - destruct E as [(e & _ & E3)|(-> & _)]; [|done].
    apply scan_end_spec in E3 as [(_ & ? & _)|(_ & l & _ & Hcases)]; [done|].
    destruct Hcases as [(? & _)|[(? & _)|(e' & t & _ & Ht & _)]]; try done.
    by rewrite Hfault in Ht.
Qed.

Lemma undisturbed_scan_completes_witness :
  (dofullScan (shelf 20 ["/c/1.cbz"; "/c/7.cbz"] None no_fault) ["/c"] start).1
  = Ok Completed.
Proof.
  apply (undisturbed_scan_completes
           (shelf 20 ["/c/1.cbz"; "/c/7.cbz"] None no_fault) ["/c"] start).
  - reflexivity.
  - intros t. reflexivity.
  - reflexivity.
Defined.

(** ** What a completed scan leaves in the catalog *)

(** After a scan that ran to its end, over a catalog with one record per
    path and per id: every record is of a file that is on disk under a
    watched folder, with the modification time it has there; and, unless the
    stop flag is up by then, every file under a watched folder that is
    recognised as a comic archive and read without exception has a record
    with its modification time. *)
Theorem completed_scan_reconciles w dirs s s1 :
  catalog_wf (library s) →
  dofullScan w dirs s = (Ok Completed, s1) →
  Forall (λ r, on_disk w dirs (rec_path r) (rec_mod_ts r)) (comics (library s1))
  ∧ (quit s1 = true
     ∨ ∀ p t md, on_disk w dirs p t → extract w p = Ok (Some md) →
                 in_catalog (library s1) p t).
Proof. apply completed_scan_catalog. Qed.

Lemma completed_scan_reconciles_witness :
  let w := shelf 3 ["/c/2.cbz"] None no_fault in
  let s1 := (dofullScan w ["/c"] stale).2 in
  (rec_path <$> comics (library s1)) = ["/c/0.cbz"; "/c/1.cbz"]
  ∧ Forall (λ r, on_disk w ["/c"] (rec_path r) (rec_mod_ts r))
      (comics (library s1))
  ∧ in_catalog (library s1) "/c/1.cbz" 7%Z.
Proof.
  intros w s1. split; [vm_compute; reflexivity|].
  destruct (completed_scan_reconciles w ["/c"] stale s1) as [Hrows Hgood].
  - split_and!.
    + apply (bool_decide_unpack _). vm_compute. exact I.
    + apply (bool_decide_unpack _). vm_compute. exact I.
    + repeat (constructor; [simpl; lia|]). constructor.
  - vm_compute. reflexivity.
  - split; [exact Hrows|].
    destruct Hgood as [Hq|Hgood]; [by vm_compute in Hq|].
    eapply (Hgood "/c/1.cbz" 7%Z).
    + split; [vm_compute; reflexivity|]. exists "/c". split; [by left|].
      vm_compute. exact I.
    + vm_compute. reflexivity.
Defined.

(** ** Where a failed commit goes *)

(** A failure of the commit that follows the loop is not caught inside
    [dofullScan]: when the loop has run through with metadata still
    buffered and the commit of that buffer raises, [dofullScan] raises the
    same exception from the state the commit left; the dispatcher [_loop]
    catches it, logs it and returns, and the status is still "SCANNING". *)
Theorem final_commit_failure_propagates w s q fl sb s2 e s3 :
  queue s = CmdScan :: q →
  scan_begin w (paths s) (set_queue q s) = (Ok fl, sb) →
  scan_files w (length fl) fl sb = (Ok false, s2) →
  md_list s2 ≠ [] →
  commitMetadataList w (md_list s2) s2 = (Raise e, s3) →
  dofullScan w (paths s) (set_queue q s) = (Raise e, s3)
  ∧ _loop w s = (Ok tt, set_logs (logs s3 ++ [LogException e]) s3)
  ∧ status s3 = "SCANNING".
Proof.
  intros Hq Eb E2 Hne Ec.
  assert (dofullScan w (paths s) (set_queue q s) = (Raise e, s3)) as E.
  { unfold dofullScan. mrun. rewrite Eb, E2. mrun.
    by rewrite (scan_end_raises _ _ _ _ _ Hne Ec). }
  split_and!; [done| |].
  - unfold _loop, queue_get. mrun. rewrite Hq. mrun. fields. rewrite E.
    unfold logging_exception, logging. done.
  - pose proof (dofullScan_status w (paths s) (set_queue q s)) as (_ & _ & H).
    rewrite E in H. by apply H.
Qed.

Lemma final_commit_failure_propagates_witness :
  let w := shelf 3 [] None (λ t, bool_decide (t = 4)) in
  let s := set_queue [CmdScan] start in
  let s3 := (dofullScan w ["/c"] start).2 in
  dofullScan w ["/c"] start = (Raise (DatabaseError 4), s3)
  ∧ _loop w s = (Ok tt, set_logs (logs s3 ++ [LogException (DatabaseError 4)]) s3)
  ∧ status s3 = "SCANNING".
Proof.
  intros w s s3.
  pose (sb := (scan_begin w ["/c"] start).2).
  pose (fl := ["/c/1.cbz"; "/c/2.cbz"; "/c/0.cbz"]).
  pose (s2 := (scan_files w 3 fl sb).2).
  apply (final_commit_failure_propagates w s [] fl sb s2 (DatabaseError 4) s3).
  - reflexivity.
  - vm_compute. reflexivity.
  - vm_compute. reflexivity.
  - vm_compute. done.
  - vm_compute. reflexivity.
Defined.

(** A failure of a commit made inside the loop does not leave the loop.
    When the turn for a file whose metadata was read raises, it is a library
    call of the commit that failed; the buffer is kept as it was, the new
    metadata included; the [except] clause logs the failure as one of that
    file, and the loop goes on with the next file. *)
Theorem loop_commit_failure_is_caught w total f fl s omd e s1 :
  extract w f = Ok omd →
  scan_file w total f s = (Raise e, s1) →
  (∃ t, fault_at w t = true)
  ∧ md_list s1 = md_list s ++ option_list omd
  ∧ scan_files w total (f :: fl) s
    = scan_files w total fl
        (set_logs (logs s1 ++ [LogMsg ERROR ("unable to process file: " +:+ f);
                               LogException e]) s1)
  ∧ ∃ b, (scan_files w total (f :: fl) s).1 = Ok b.
Proof.
  intros He E. split_and!.
  - apply scan_file_spec in E as (_ & l & _ & Hcases).
    destruct Hcases as [(e' & He' & _)|(omd' & _ & Hcases)]; [congruence|].
    cbn zeta in Hcases.
    destruct Hcases as [(_ & ? & _)|[(_ & _ & ? & _)|(_ & _ & _ & _ & Hcases)]];
      [done..|].
    destruct Hcases as [(? & _)|[(? & _)|(e' & t & _ & Ht & _)]]; [done..|eauto].
  - apply scan_file_spec in E as (_ & l & _ & Hcases).
    destruct Hcases as [(e' & He' & _)|(omd' & He' & Hcases)]; [congruence|].
    rewrite He in He'. injection He' as <-. cbn zeta in Hcases.
    destruct Hcases as [(_ & ? & _)|[(_ & _ & ? & _)|(_ & _ & _ & _ & Hcases)]];
      [done..|].
    by destruct Hcases as [(? & _)|[(? & _)|(e' & t & _ & _ & ? & _)]].
  - simpl. mrun. rewrite E.
    unfold logging_error, logging_exception, logging. mrun. fields.
    by rewrite <- app_assoc.
  - apply scan_files_total.
Qed.

Lemma loop_commit_failure_is_caught_witness :
  let w := shelf 1 [] None (λ t, bool_decide (t = 1)) in
  let s := set_read_count 9 start in
  let s1 := (scan_file w 10 "/c/0.cbz" s).2 in
  (scan_file w 10 "/c/0.cbz" s).1 = Raise (DatabaseError 1)
  ∧ length (md_list s1) = 1
  ∧ (scan_files w 10 ["/c/0.cbz"] s).1 = Ok false.
Proof.
  intros w s s1. split; [vm_compute; reflexivity|].
  assert (∃ omd, extract w "/c/0.cbz" = Ok (Some omd)) as [md Hmd]
    by (eexists; vm_compute; reflexivity).
  destruct (loop_commit_failure_is_caught w 10 "/c/0.cbz" [] s (Some md)
              (DatabaseError 1) s1) as (_ & Hm & Hfiles & _).
  - exact Hmd.
  - vm_compute. reflexivity.
  - split; [by rewrite Hm|vm_compute; reflexivity].
Defined.
